(** * The hypothetical constant folder and dead-store walker of llpe

  A shallow embedding of the evaluators of
  [lib/Analysis/Integrator/HypotheticalConstantFolder.cpp] and of the
  forward walker of [lib/Analysis/Integrator/DSE.cpp], with the
  properties the design document states about them. *)

From stdpp Require Import base decidable option list numbers strings gmap.
From Stdlib Require Import ZArith Lia.

Local Open Scope Z_scope.

(** ** LLVM IR values as the folder sees them *)

Module IR.

(** [CmpInst::Predicate]: the sixteen floating-point predicates are kept
    by their enumerator value, the ten integer ones by name. *)
Inductive Predicate :=
| FCMP (code : nat)
| ICMP_EQ | ICMP_NE
| ICMP_UGT | ICMP_UGE | ICMP_ULT | ICMP_ULE
| ICMP_SGT | ICMP_SGE | ICMP_SLT | ICMP_SLE
| BAD_ICMP_PREDICATE.

#[global] Instance Predicate_eq_dec : EqDecision Predicate.
Proof. solve_decision. Defined.

(** [Pred >= FIRST_ICMP_PREDICATE && Pred <= LAST_ICMP_PREDICATE]. *)
Definition isIntPredicate (p : Predicate) : bool :=
  match p with
  | FCMP _ | BAD_ICMP_PREDICATE => false
  | _ => true
  end.

Inductive Ty :=
| IntegerTy (w : Z)
| PointerTy
| FloatingTy
| VoidTy
| AggregateTy.

#[global] Instance Ty_eq_dec : EqDecision Ty.
Proof. solve_decision. Defined.

Definition isIntegerTy (t : Ty) : bool :=
  match t with IntegerTy _ => true | _ => false end.
Definition isIntegerTyW (w : Z) (t : Ty) : bool :=
  match t with IntegerTy w' => bool_decide (w' = w) | _ => false end.
Definition isPointerTy (t : Ty) : bool :=
  match t with PointerTy => true | _ => false end.
Definition isVoidTy (t : Ty) : bool :=
  match t with VoidTy => true | _ => false end.

Inductive CastOp :=
| Trunc | ZExt | SExt | PtrToInt | IntToPtr | BitCast | FPCast.

#[global] Instance CastOp_eq_dec : EqDecision CastOp.
Proof. solve_decision. Defined.

Inductive BinOp := Add | Sub | And | Or | OtherBinOp (code : nat).

#[global] Instance BinOp_eq_dec : EqDecision BinOp.
Proof. solve_decision. Defined.

(** Constants.  A [ConstantInt] of width [w] carries its unsigned
    representative [v], [0 <= v < 2^w]. *)
Inductive Constant :=
| ConstantInt (w : Z) (v : Z)
| ConstantPointerNull
| ConstantFPZero
| GlobalVariable (name : string) (align : Z)
| Function (name : string) (align : Z)
| GlobalAlias (name : string)
| ConstantExpr (op : CastOp) (c : Constant) (ty : Ty)
| ConstantExprOther (opcode : nat) (ty : Ty)
| OtherConstant (id : nat) (ty : Ty).

#[global] Instance Constant_eq_dec : EqDecision Constant.
Proof. solve_decision. Defined.

Definition getTrue : Constant := ConstantInt 1 1.
Definition getFalse : Constant := ConstantInt 1 0.

Definition isConstantInt (c : Constant) : option (Z * Z) :=
  match c with ConstantInt w v => Some (w, v) | _ => None end.

Definition isNullValue (c : Constant) : bool :=
  match c with
  | ConstantInt _ v => bool_decide (v = 0)
  | ConstantPointerNull | ConstantFPZero => true
  | _ => false
  end.

Definition isGlobalValue (c : Constant) : bool :=
  match c with
  | GlobalVariable _ _ | Function _ _ | GlobalAlias _ => true
  | _ => false
  end.

Definition isGlobalAlias (c : Constant) : bool :=
match c with GlobalAlias _ => true | _ => false end.

(** [GlobalValue::getAlignment]. *)
Definition getAlignment (c : Constant) : Z :=
match c with
| GlobalVariable _ a | Function _ a => a
| _ => 0
end.

Definition isAllOnesValue (w v : Z) : bool := bool_decide (v = 2 ^ w - 1).
(** [isMaxValue(true)] and [isMinValue(true)]: the signed extremes. *)
Definition isMaxSigned (w v : Z) : bool := bool_decide (v = 2 ^ (w - 1) - 1).
Definition isMinSigned (w v : Z) : bool := bool_decide (v = 2 ^ (w - 1)).

(** [getSExtValue]: the two's complement reading of the representative. *)
Definition getSExtValue (w v : Z) : Z :=
  if decide (2 ^ (w - 1) <= v) then v - 2 ^ w else v.

(** [getLimitedValue()]: saturates at [UINT64_MAX]. *)
Definition getLimitedValue (v : Z) : Z := Z.min v (2 ^ 64 - 1).

Fixpoint stripPointerCasts (c : Constant) : Constant :=
  match c with
  | ConstantExpr BitCast c' _ => stripPointerCasts c'
  | _ => c
  end.

Definition isFunction (c : Constant) : bool :=
  match c with Function _ _ => true | _ => false end.

Definition constantType (c : Constant) : Ty :=
  match c with
  | ConstantInt w _ => IntegerTy w
  | ConstantPointerNull => PointerTy
  | ConstantFPZero => FloatingTy
  | GlobalVariable _ _ | Function _ _ | GlobalAlias _ => PointerTy
  | ConstantExpr _ _ ty => ty
  | ConstantExprOther _ ty => ty
  | OtherConstant _ ty => ty
  end.

(** One step of a [gep_type_iterator]: a struct (with the byte offset of
    each field, from the layout) or a sequential type (with the
    allocation size of its element). *)
Inductive GEPStep :=
| StructStep (fieldOffsets : list Z)
| SeqStep (elemSize : Z).

#[global] Instance GEPStep_eq_dec : EqDecision GEPStep.
Proof. solve_decision. Defined.

Inductive Instruction :=
| AllocaInst (align : Z)
| CallInst (ty : Ty) (noaliasRet : bool) (callee : option string)
| CastInst (op : CastOp) (srcTy destTy : Ty)
| CmpInst (pred : Predicate)
| GetElementPtrInst (steps : list GEPStep)
| BinaryOperator (op : BinOp) (ty : Ty)
| LoadInst (ty : Ty)
| StoreInst
| PHINode (ty : Ty) (incomingBlocks : list nat)
| SelectInst (ty : Ty)
| OtherInst (opcode : nat) (ty : Ty).

#[global] Instance Instruction_eq_dec : EqDecision Instruction.
Proof. solve_decision. Defined.

Definition instType (i : Instruction) : Ty :=
  match i with
  | AllocaInst _ => PointerTy
  | CallInst ty _ _ => ty
  | CastInst _ _ d => d
  | CmpInst _ => IntegerTy 1
  | GetElementPtrInst _ => PointerTy
  | BinaryOperator _ ty => ty
  | LoadInst ty => ty
  | StoreInst => VoidTy
  | PHINode ty _ => ty
  | SelectInst ty => ty
  | OtherInst _ ty => ty
  end.

(** [Constant::getNullValue] and [Constant::getAllOnesValue] at a type. *)
Definition getNullValue (t : Ty) : Constant :=
match t with
| IntegerTy w => ConstantInt w 0
| PointerTy => ConstantPointerNull
| FloatingTy => ConstantFPZero
| _ => OtherConstant 0 t
end.

Definition getAllOnesValue (t : Ty) : Constant :=
match t with
| IntegerTy w => ConstantInt w (2 ^ w - 1)
| _ => OtherConstant 1 t
end.

(** [ConstantInt::get(Ty, x)] and [ConstantInt::getSigned(Ty, x)]: the
    value is reduced to the width of the type. *)
Definition constantIntAt (t : Ty) (x : Z) : Constant :=
match t with
| IntegerTy w => ConstantInt w (x mod 2 ^ w)
| _ => OtherConstant 2 t
end.

Record Argument := { argNo : nat; argTy : Ty; hasNoAliasAttr : bool; hasByValAttr : bool }.

#[global] Instance Argument_eq_dec : EqDecision Argument.
Proof. solve_decision. Defined.

End IR.

Export IR.

(** ** Shadow values and the value lattice *)

Module Shadow.

(** A shadow instruction is an instruction instance inside one context of
    the tree: the identity of the owning context (the address of the
    [IntegrationAttempt] object), the block and instruction indices of the
    invariant information, and the IR instruction itself. *)
Record ShadowInstruction := {
  si_ctx : nat;
  si_blockIdx : nat;
  si_instIdx : nat;
  si_I : Instruction
}.

#[global] Instance ShadowInstruction_eq_dec : EqDecision ShadowInstruction.
Proof. solve_decision. Defined.

Record ShadowArg := { sa_ctx : nat; sa_A : Argument }.

#[global] Instance ShadowArg_eq_dec : EqDecision ShadowArg.
Proof. solve_decision. Defined.

(** [ShadowValue]: invalid, an instruction instance, an argument instance
    or a plain IR value (here always a constant). *)
Inductive ShadowValue :=
| SVInval
| SVInst (i : ShadowInstruction)
| SVArg (a : ShadowArg)
| SVVal (c : Constant).

#[global] Instance ShadowValue_eq_dec : EqDecision ShadowValue.
Proof. solve_decision. Defined.

Definition isInval (v : ShadowValue) : bool :=
  match v with SVInval => true | _ => false end.
Definition getInst (v : ShadowValue) : option ShadowInstruction :=
  match v with SVInst i => Some i | _ => None end.
Definition getArg (v : ShadowValue) : option ShadowArg :=
  match v with SVArg a => Some a | _ => None end.
Definition getVal (v : ShadowValue) : option Constant :=
  match v with SVVal c => Some c | _ => None end.

(** [dyn_cast_or_null<ConstantInt>(V.getVal())]. *)
Definition getConstantInt (v : ShadowValue) : option (Z * Z) :=
  c ← getVal v; isConstantInt c.

Definition getType (v : ShadowValue) : option Ty :=
  match v with
  | SVInval => None
  | SVInst i => Some (instType (si_I i))
  | SVArg a => Some (argTy (sa_A a))
  | SVVal c => Some (constantType c)
  end.

Definition typeIsPointer (v : ShadowValue) : bool :=
  match getType v with Some t => isPointerTy t | None => false end.

Inductive ValSetType :=
| ValSetTypeUnknown
| ValSetTypePB
| ValSetTypeScalar
| ValSetTypeFD
| ValSetTypeVarArg
| ValSetTypeOverdef.

#[global] Instance ValSetType_eq_dec : EqDecision ValSetType.
Proof. solve_decision. Defined.

Definition LLONG_MAX : Z := 2 ^ 63 - 1.

(** [ImprovedVal]: a shadow value and an offset; [LLONG_MAX] is the
    indeterminate offset.  For a vararg cookie the offset field holds the
    argument position. *)
Record ImprovedVal := { V : ShadowValue; Offset : Z }.

#[global] Instance ImprovedVal_eq_dec : EqDecision ImprovedVal.
Proof. solve_decision. Defined.

#[global] Instance ImprovedVal_inhabited : Inhabited ImprovedVal :=
  populate {| V := SVInval; Offset := LLONG_MAX |}.

(** Modelled from the spec: the implicit conversion
    [ImprovedVal(ShadowValue)] of the missing header; the offset is left
    at the sentinel "indeterminate". *)
Definition ofShadow (v : ShadowValue) : ImprovedVal :=
  {| V := v; Offset := LLONG_MAX |}.

(** [Improved.V = v]: only the value field is assigned. *)
Definition setV (iv : ImprovedVal) (v : ShadowValue) : ImprovedVal :=
  {| V := v; Offset := Offset iv |}.
Definition setOffset (iv : ImprovedVal) (o : Z) : ImprovedVal :=
  {| V := V iv; Offset := o |}.

(** One evaluated operand, [std::pair<ValSetType, ImprovedVal>]. *)
Definition Operand : Type := ValSetType * ImprovedVal.

#[global] Instance ValSetType_inhabited : Inhabited ValSetType :=
populate ValSetTypeUnknown.

(** Two's complement wrap-around of [int64_t] arithmetic. *)
Definition wrap64 (z : Z) : Z := (z + 2 ^ 63) mod 2 ^ 64 - 2 ^ 63.

(** The value set of an instruction: [PointerBase]. *)
Record PointerBase := {
  Type_ : ValSetType;
  Values : list ImprovedVal;
  Overdef : bool
}.

#[global] Instance PointerBase_eq_dec : EqDecision PointerBase.
Proof. solve_decision. Defined.

(** Modelled from the spec: the members of [PointerBase] are declared in
    HypotheticalConstantFolder.h, which is not part of the sources at hand.
    The default value is Unknown with no candidates. *)
Definition emptyPB : PointerBase :=
  {| Type_ := ValSetTypeUnknown; Values := []; Overdef := false |}.

(** Modelled from the spec: [PointerBase::isInitialised] (header missing):
    a value is initialised once it is Overdef or has a category. *)
Definition isInitialised (pb : PointerBase) : bool :=
  Overdef pb || negb (bool_decide (Type_ pb = ValSetTypeUnknown)).

(** Modelled from the spec: [PointerBase::setOverdef] and
    [PointerBase::getOverdef] (header missing): Overdef is the sink that
    drops every candidate. *)
Definition setOverdef (pb : PointerBase) : PointerBase :=
  {| Type_ := Type_ pb; Values := []; Overdef := true |}.
Definition getOverdef : PointerBase := setOverdef emptyPB.

(** Modelled from the spec: the bound on a candidate set, beyond which a
    merge collapses to Overdef (header missing). *)
Definition PBMAX : nat := 16.

(** Modelled from the spec: [PointerBase::insert] (header missing):
    adding a candidate already present changes nothing, adding one beyond
    the bound collapses to Overdef. *)
Definition insert (pb : PointerBase) (iv : ImprovedVal) : PointerBase :=
  if Overdef pb then pb
  else if bool_decide (iv ∈ Values pb) then pb
  else if decide (PBMAX < S (length (Values pb)))%nat then setOverdef pb
  else {| Type_ := Type_ pb; Values := Values pb ++ [iv]; Overdef := false |}.

(** Modelled from the spec: [PointerBase::merge] (header missing):
    "Unknown merges to anything; any two differing concrete categories
    merge to Overdef; two Pointer-Base values merge by unioning their
    candidate sets (bounded)"; "once a value is Overdef it never changes
    again"; "merging any value with Overdef yields Overdef; merging
    Unknown with X yields X".  The candidate set is kept as a list
    without repetition, in the order the candidates arrived. *)
Definition merge (pb other : PointerBase) : PointerBase :=
  if Overdef pb then pb
  else if Overdef other then setOverdef pb
  else if negb (isInitialised other) then pb
  else if negb (isInitialised pb) then other
  else if negb (bool_decide (Type_ other = Type_ pb)) then setOverdef pb
  else foldl insert pb (Values other).

End Shadow.

Export Shadow.

(** ** The per-instruction evaluators (HypotheticalConstantFolder.cpp) *)

Module Folder.

(** [isNoAliasCall] and [isIdentifiedObject] of AliasAnalysis.cpp, over the
    three kinds of IR value a shadow value can wrap. *)
Inductive BareValue :=
| VInst (i : Instruction)
| VArg (a : Argument)
| VConst (c : Constant).

Definition isNoAliasCall (v : BareValue) : bool :=
match v with
| VInst (CallInst _ noaliasRet _) => noaliasRet
| _ => false
end.

Definition isIdentifiedObject (v : BareValue) : bool :=
match v with
| VInst (AllocaInst _) => true
| VConst c => isGlobalValue c && negb (isGlobalAlias c)
| VInst _ => isNoAliasCall v
| VArg a => hasNoAliasAttr a || hasByValAttr a
end.

Definition getBareVal (v : ShadowValue) : option BareValue :=
match v with
| SVInval => None
| SVInst i => Some (VInst (si_I i))
| SVArg a => Some (VArg (sa_A a))
| SVVal c => Some (VConst c)
end.

(** Modelled from the spec: [isGlobalIdentifiedObject(ShadowValue)] is
    declared in the missing header; an owning object is identified when
    [isIdentifiedObject] (AliasAnalysis.cpp) holds of the IR value beneath
    the shadow value. *)
Definition isGlobalIdentifiedObject (v : ShadowValue) : bool :=
from_option isIdentifiedObject false (getBareVal v).

Inductive VaArgType :=
| va_arg_type_none | va_arg_type_baseptr | va_arg_type_fp | va_arg_type_nonfp.

(** What the evaluators call and the sources at hand do not define:
    LLVM's constant folder, and the vararg and layout helpers of the
    missing header. *)
Record Externals := {
  ConstantFoldCompareInstOperands : Predicate -> option Constant -> option Constant -> option Constant;
  ConstantFoldLoadFromConstPtr : option Constant -> option Constant;
  ConstantFoldInstOperands : Instruction -> list (option Constant) -> option Constant;
  getGVOffset : Constant -> Z -> Ty -> Constant;
  getMallocAlignment : Z;
  first_fp_arg : Z;
  not_va_arg : Z;
  getVaArgType : ImprovedVal -> VaArgType;
  getVaArg : ImprovedVal -> Z;
  getInitialBytesOnStack : ShadowInstruction -> Z;
  getInitialFPBytesOnStack : ShadowInstruction -> Z;
  getSpilledVarargAfter : ShadowInstruction -> Z -> Z
}.

(** [ShadowValue(Constant* )]: a null result of the folder carries no value. *)
Definition svOfConstant (o : option Constant) : ShadowValue :=
match o with Some c => SVVal c | None => SVInval end.

Definition svTrue : ShadowValue := SVVal getTrue.
Definition svFalse : ShadowValue := SVVal getFalse.

(** The predicate exchange done in [getOpenCmpResult] when the descriptor
    is the right-hand operand. *)
Definition flipPred (Pred : Predicate) : Predicate :=
match Pred with
| ICMP_SGT => ICMP_SLT
| ICMP_SGE => ICMP_SLE
| ICMP_SLT => ICMP_SGT
| ICMP_SLE => ICMP_SGE
| _ => Pred
end.

(** [getOpenCmpResult(CmpI, CmpInt, flip)], with [CmpInt] given by its width
    and representative. *)
Definition getOpenCmpResult (CmpPred : Predicate) (w v : Z) (flip : bool) : ShadowValue :=
if decide (64 < w) then SVInval
else
  let Pred := if flip then flipPred CmpPred else CmpPred in
  let CmpVal := getSExtValue w v in
  match Pred with
  | ICMP_EQ => if decide (CmpVal < 0) then svFalse else SVInval
  | ICMP_NE => if decide (CmpVal < 0) then svTrue else SVInval
  | ICMP_SGT => if decide (CmpVal < 0) then svTrue else SVInval
  | ICMP_SGE => if decide (CmpVal <= 0) then svTrue else SVInval
  | ICMP_SLT => if decide (CmpVal <= 0) then svFalse else SVInval
  | ICMP_SLE => if decide (CmpVal < 0) then svFalse else SVInval
  | _ => SVInval
  end.

(** The evaluators return [true] for "handled" together with the new
    contents of the out-parameters [ImpType] and [Improved]; on [false]
    the out-parameters are as the evaluator left them. *)
Definition tryFoldOpenCmp (CmpPred : Predicate) (Ops : list Operand)
    (st : Operand) : bool * Operand :=
let Op0 := Ops !!! 0%nat in
let Op1 := Ops !!! 1%nat in
if bool_decide (Op0.1 ≠ ValSetTypeFD) && bool_decide (Op1.1 ≠ ValSetTypeFD)
then (false, st)
else
  let op0 := V Op0.2 in
  let op1 := V Op1.2 in
  let sides :=
    if bool_decide (is_Some (getInst op0)) && bool_decide (Op0.1 = ValSetTypeFD)
    then Some (false, getConstantInt op1, Op1.1)
    else if bool_decide (is_Some (getInst op1)) && bool_decide (Op1.1 = ValSetTypeFD)
    then Some (true, getConstantInt op0, Op0.1)
    else None in
  match sides with
  | None => (false, st)
  | Some (flip, Some (w, v), _) =>
      let r := getOpenCmpResult CmpPred w v flip in
      if negb (isInval r)
      then (true, (ValSetTypeScalar, setV st.2 r))
      else (true, (ValSetTypeOverdef, setV st.2 r))
  | Some (_, None, CmpIntType) =>
      (true, (if bool_decide (CmpIntType = ValSetTypeUnknown)
              then ValSetTypeUnknown else ValSetTypeOverdef, st.2))
  end.

Definition getSignedPred (Pred : Predicate) : Predicate :=
match Pred with
| ICMP_UGT => ICMP_SGT
| ICMP_UGE => ICMP_SGE
| ICMP_ULT => ICMP_SLT
| ICMP_ULE => ICMP_SLE
| _ => Pred
end.

(** [getReversePred]; the default case is behind an [assert(0)] and
    yields [BAD_ICMP_PREDICATE]. *)
Definition getReversePred (Pred : Predicate) : Predicate :=
match Pred with
| ICMP_UGT => ICMP_ULT
| ICMP_ULT => ICMP_UGT
| ICMP_UGE => ICMP_ULE
| ICMP_ULE => ICMP_UGE
| ICMP_SGT => ICMP_SLT
| ICMP_SLT => ICMP_SGT
| ICMP_SGE => ICMP_SLE
| ICMP_SLE => ICMP_SGE
| _ => BAD_ICMP_PREDICATE
end.

Definition tryFoldNonConstCmp (CmpPred : Predicate) (Ops : list Operand)
    (st : Operand) : bool * Operand :=
if negb (isIntPredicate CmpPred) then (false, st)
else
  match CmpPred with
  | ICMP_EQ | ICMP_NE => (false, st)
  | _ =>
    let Op0C := getVal (V (Ops !!! 0%nat).2) in
    let Op1C := getVal (V (Ops !!! 1%nat).2) in
    let Op0CI := Op0C ≫= isConstantInt in
    let Op1CI := Op1C ≫= isConstantInt in
    if bool_decide (is_Some Op0C <-> is_Some Op1C) then (false, st)
    else
      (* std::swap of the two sides and reversal of the predicate *)
      let '(Op1C, Op1CI, Pred) :=
        match Op1C with
        | None => (Op0C, Op0CI, getReversePred CmpPred)
        | Some _ => (Op1C, Op1CI, CmpPred)
        end in
      let fold (b : ShadowValue) := (true, (ValSetTypeScalar, setV st.2 b)) in
      let unresolved := (false, (ValSetTypeUnknown, st.2)) in
      let rhsIs (test : Z -> Z -> bool) :=
        match Op1CI with Some (w, v) => test w v | None => false end in
      let rhsNull := from_option isNullValue false Op1C in
      match Pred with
      | ICMP_UGT => if rhsIs isAllOnesValue then fold svFalse else unresolved
      | ICMP_UGE => if rhsNull then fold svTrue else unresolved
      | ICMP_ULT => if rhsNull then fold svFalse else unresolved
      | ICMP_ULE => if rhsIs isAllOnesValue then fold svTrue else unresolved
      | ICMP_SGT => if rhsIs isMaxSigned then fold svFalse else unresolved
      | ICMP_SGE => if rhsIs isMinSigned then fold svTrue else unresolved
      | ICMP_SLT => if rhsIs isMinSigned then fold svFalse else unresolved
      | ICMP_SLE => if rhsIs isMaxSigned then fold svTrue else unresolved
      | _ => unresolved
      end
  end.

Section Evaluators.

Context (E : Externals).

(** The 0/1 encoding of case 1 of [tryFoldPointerCmp]: zero for a null
    constant, one for an identified object or a function, nothing
    otherwise.  The source spells this out once per operand. *)
Definition nullOrObjectArg (op : ShadowValue) : option Constant :=
let opC := getVal op in
let opFun := from_option (fun c => isFunction (stripPointerCasts c)) false opC in
if from_option isNullValue false opC then Some (ConstantInt 64 0)
else if typeIsPointer op && (isGlobalIdentifiedObject op || opFun)
then Some (ConstantInt 64 1)
else None.

Definition tryFoldPointerCmp (CmpPred : Predicate) (Ops : list Operand)
    (st : Operand) : bool * Operand :=
let Op0 := Ops !!! 0%nat in
let Op1 := Ops !!! 1%nat in
let zero := ConstantInt 64 0 in
(* Need scalars or pointers throughout *)
if (bool_decide (Op0.1 ≠ ValSetTypeScalar) && bool_decide (Op0.1 ≠ ValSetTypePB))
   || (bool_decide (Op1.1 ≠ ValSetTypeScalar) && bool_decide (Op1.1 ≠ ValSetTypePB))
then (false, st)
else
  let op0 := V Op0.2 in
  let op1 := V Op1.2 in
  let op0Arg := nullOrObjectArg op0 in
  let op1Arg := nullOrObjectArg op1 in
  (* 1. two null pointers, or a null pointer and a resolved pointer *)
  if bool_decide (is_Some op0Arg) && bool_decide (is_Some op1Arg)
     && (bool_decide (op0Arg = Some zero) || bool_decide (op1Arg = Some zero))
  then (true, (ValSetTypeScalar,
               ofShadow (svOfConstant
                 (ConstantFoldCompareInstOperands E CmpPred op0Arg op1Arg))))
  else if bool_decide (Op0.1 ≠ ValSetTypePB) || bool_decide (Op1.1 ≠ ValSetTypePB)
  then (false, st)
  (* 2. pointers with a common base *)
  else if bool_decide (op0 = op1) then
    if bool_decide (Offset Op0.2 = LLONG_MAX) || bool_decide (Offset Op1.2 = LLONG_MAX)
    then (false, st)
    else
      let op0Arg := constantIntAt (IntegerTy 64) (Offset Op0.2) in
      let op1Arg := constantIntAt (IntegerTy 64) (Offset Op1.2) in
      (true, (ValSetTypeScalar,
              setV st.2 (svOfConstant
                (ConstantFoldCompareInstOperands E (getSignedPred CmpPred)
                   (Some op0Arg) (Some op1Arg)))))
  (* 3. pointers with differing, identified bases: equality only *)
  else if isGlobalIdentifiedObject op0 && isGlobalIdentifiedObject op1
          && bool_decide (op0 ≠ op1) then
    match CmpPred with
    | ICMP_EQ => (true, (ValSetTypeScalar, setV st.2 svFalse))
    | ICMP_NE => (true, (ValSetTypeScalar, setV st.2 svTrue))
    | _ => (false, st)
    end
  else (false, st).

(** The static alignment [tryFoldPtrAsIntOp] finds for the base of a
    pointer: a global's, an alloca's, or that of [malloc]. *)
Definition baseAlignment (base : ShadowValue) : Z :=
match base with
| SVVal c => if isGlobalValue c then getAlignment c else 0
| SVInst si =>
    match si_I si with
    | AllocaInst a => a
    | CallInst _ _ (Some name) =>
        if bool_decide (name = "malloc"%string) then getMallocAlignment E else 0
    | _ => 0
    end
| _ => 0
end.

(** [tryFoldPtrAsIntOp], at an instruction of opcode [op] and type [ty]. *)
Definition tryFoldPtrAsIntOp (I : Instruction) (Ops : list Operand)
    (st : Operand) : bool * Operand :=
let Op0 := Ops !!! 0%nat in
let Op1 := Ops !!! 1%nat in
if negb (isIntegerTy (instType I)) then (false, st)
else
  match I with
  | BinaryOperator op ty =>
    let Op0Ptr := bool_decide (Op0.1 = ValSetTypePB) in
    let Op1Ptr := bool_decide (Op1.1 = ValSetTypePB) in
    match op with
    | Sub =>
      if negb Op0Ptr && negb Op1Ptr then (false, st)
      else if negb Op0Ptr then (false, st)
      else if negb Op1Ptr then
        let Off :=
          match getConstantInt (V Op1.2) with
          | Some (w, v) =>
              if bool_decide (Offset Op0.2 = LLONG_MAX) then LLONG_MAX
              else wrap64 (Offset Op0.2 - getSExtValue w v)
          | None => LLONG_MAX
          end in
        (true, (ValSetTypePB, {| V := V Op0.2; Offset := Off |}))
      else if bool_decide (V Op0.2 = V Op1.2)
              && bool_decide (Offset Op0.2 ≠ LLONG_MAX)
              && bool_decide (Offset Op1.2 ≠ LLONG_MAX)
      then (true, (ValSetTypeScalar,
                   ofShadow (SVVal (constantIntAt ty
                     (wrap64 (Offset Op0.2 - Offset Op1.2))))))
      else (false, st)
    | Add =>
      if negb Op0Ptr && negb Op1Ptr then (false, st)
      else if Op0Ptr && Op1Ptr then (false, st)
      else
        let PtrV := if Op0Ptr then Op0 else Op1 in
        let NumC := getConstantInt (if Op0Ptr then V Op1.2 else V Op0.2) in
        let Off :=
          match NumC with
          | Some (w, v) =>
              if bool_decide (Offset PtrV.2 = LLONG_MAX) then LLONG_MAX
              else wrap64 (Offset PtrV.2 + getSExtValue w v)
          | None => LLONG_MAX
          end in
        (true, (ValSetTypePB, {| V := V PtrV.2; Offset := Off |}))
    | And =>
      if negb Op0Ptr && negb Op1Ptr then (false, st)
      else if negb Op0Ptr || Op1Ptr then (false, st)
      else
        match getConstantInt (V Op1.2) with
        | None => (false, st)
        | Some (_, maskv) =>
          if bool_decide (Offset Op0.2 = LLONG_MAX) || bool_decide (Offset Op0.2 < 0)
          then (false, st)
          else
            let UOff := Offset Op0.2 in
            let Align := baseAlignment (V Op0.2) in
            let Mask := getLimitedValue maskv in
            if decide (Mask < Align)
            then (true, (ValSetTypeScalar,
                         setV st.2 (SVVal (constantIntAt ty (Z.land Mask UOff)))))
            else (false, st)
        end
    | _ => (false, st)
    end
  | _ => (false, st)
  end.

Definition tryFoldBitwiseOp (I : Instruction) (Ops : list Operand)
    (st : Operand) : bool * Operand :=
let Op0C := getVal (V (Ops !!! 0%nat).2) in
let Op1C := getVal (V (Ops !!! 1%nat).2) in
match I with
| BinaryOperator And ty =>
    if from_option isNullValue false Op0C || from_option isNullValue false Op1C
    then (true, (ValSetTypeScalar, setV st.2 (SVVal (getNullValue ty))))
    else (false, st)
| BinaryOperator Or ty =>
    let isAllOnes (c : option Constant) :=
      match c ≫= isConstantInt with
      | Some (w, v) => isAllOnesValue w v
      | None => false
      end in
    let allOnes := if isAllOnes Op0C then true else isAllOnes Op1C in
    if allOnes
    then (true, (ValSetTypeScalar, setV st.2 (SVVal (getAllOnesValue ty))))
    else (false, st)
| _ => (false, st)
end.

(** The offset a GEP adds to a resolved base: the loop over the index
    operands, [Ops[1..]], in step with the [gep_type_iterator].  [None]
    stands for undefined behaviour (an index that is no [ConstantInt], a
    field number outside the struct). *)
Fixpoint gepAccumulate (idxOps : list Operand) (steps : list GEPStep)
    (off : Z) : option Z :=
match idxOps with
| [] => Some off
| op :: rest =>
  if bool_decide (op.1 ≠ ValSetTypeScalar) then Some LLONG_MAX
  else
    match getConstantInt (V op.2), steps with
    | Some (w, v), stp :: steps' =>
      if bool_decide (v = 0) then gepAccumulate rest steps' off
      else
        match stp with
        | StructStep fieldOffsets =>
            match fieldOffsets !! Z.to_nat v with
            | Some o => gepAccumulate rest steps' (wrap64 (off + o))
            | None => None
            end
        | SeqStep Size =>
            gepAccumulate rest steps' (wrap64 (off + getSExtValue w v * Size))
        end
    | _, _ => None
    end
end.

(** Indexing off a vararg cookie, the [ValSetTypeVarArg] arm of the GEP
    case.  [None] is undefined behaviour; [Some st] with [st] unchanged is
    the plain [return] that leaves the out-parameters alone. *)
Definition gepVarArg (Ops : list Operand) (st : Operand) : option Operand :=
let Op0 := Ops !!! 0%nat in
let Op1 := Ops !!! 1%nat in
if bool_decide (length Ops = 2%nat) then
  if bool_decide (Op1.1 ≠ ValSetTypeScalar)
  then Some (if bool_decide (Op1.1 = ValSetTypeUnknown)
             then ValSetTypeUnknown else ValSetTypeOverdef, st.2)
  else
    match getConstantInt (V Op1.2), getInst (V Op0.2) with
    | Some (_, v), Some cookie =>
      let GEPOff := getLimitedValue v / 8 in
      let newVaArg :=
        match getVaArgType E Op0.2 with
        | va_arg_type_baseptr =>
            if decide (GEPOff < 6)
            then wrap64 (GEPOff - getInitialBytesOnStack E cookie / 8)
            else if decide (GEPOff < 22)
            then wrap64 ((GEPOff - 6) / 2 - getInitialFPBytesOnStack E cookie / 16
                         + first_fp_arg E)
            else not_va_arg E
        | va_arg_type_fp | va_arg_type_nonfp =>
            getSpilledVarargAfter E cookie (getVaArg E Op0.2)
        | va_arg_type_none => -1
        end in
      if bool_decide (newVaArg ≠ not_va_arg E)
      then Some (ValSetTypeVarArg, {| V := V Op0.2; Offset := newVaArg |})
      else Some st
    | _, _ => None
    end
else Some st.

(** What the operand loop of the generic fallback ends in. *)
Inductive Gathered :=
| CastOfNoConstant
| OverdefAtOnce
| AllGathered (allOpsAvailable : bool) (instOperands : list (option Constant)).

(** The operand loop of the generic fallback.  [OverdefAtOnce]: some
    operand is neither a scalar, nor Unknown, nor a null-based pointer,
    and the instruction is Overdef at once.  [CastOfNoConstant]: the loop
    came to [cast<Constant>(Ops[i].second.V.getVal())] with an operand,
    scalar or Unknown, whose value is no plain IR value: the argument of
    the cast is null, which its assertion rejects; where assertions are
    compiled out a null operand is pushed instead, so the source gives no
    one answer.  Otherwise the flag [allOpsAvailable] and the operands
    pushed. *)
Fixpoint gatherOperands (Ops : list Operand) (allOpsAvailable : bool)
    (instOperands : list (option Constant)) : Gathered :=
match Ops with
| [] => AllGathered allOpsAvailable instOperands
| op :: rest =>
  let nullBase :=
    if bool_decide (op.1 = ValSetTypePB) then
      match getVal (V op.2) with
      | Some OpBase => if isNullValue OpBase then Some OpBase else None
      | None => None
      end
    else None in
  match nullBase with
  | Some OpBase =>
      gatherOperands rest allOpsAvailable
        (instOperands ++ [Some (getGVOffset E OpBase (Offset op.2) (constantType OpBase))])
  | None =>
      if bool_decide (op.1 ≠ ValSetTypeScalar) then
        if bool_decide (op.1 = ValSetTypeUnknown)
        then
          match getVal (V op.2) with
          | Some c => gatherOperands rest false (instOperands ++ [Some c])
          | None => CastOfNoConstant
          end
        else OverdefAtOnce
      else
        match getVal (V op.2) with
        | Some c => gatherOperands rest allOpsAvailable (instOperands ++ [Some c])
        | None => CastOfNoConstant
        end
  end
end.

(** "Try ordinary constant folding?": the tail of [tryEvaluateResult].
    [None] where the operand loop casts a null value. *)
Definition ordinaryConstantFold (I : Instruction) (Ops : list Operand)
    (st : Operand) : option Operand :=
match gatherOperands Ops true [] with
| CastOfNoConstant => None
| OverdefAtOnce => Some (ValSetTypeOverdef, st.2)
| AllGathered false _ => Some (ValSetTypeUnknown, st.2)
| AllGathered true instOperands =>
  let newConst :=
    match I with
    | CmpInst pred =>
        ConstantFoldCompareInstOperands E pred
          (instOperands !!! 0%nat) (instOperands !!! 1%nat)
    | LoadInst _ => ConstantFoldLoadFromConstPtr E (instOperands !!! 0%nat)
    | _ => ConstantFoldInstOperands E I instOperands
    end in
  match newConst with
  | Some (ConstantExpr IntToPtr _ _ as c) | Some (ConstantExpr BitCast _ _ as c) =>
      Some (ValSetTypeScalar, setV st.2 (SVVal c))
  | Some (ConstantExpr _ _ _) | Some (ConstantExprOther _ _) =>
      Some (ValSetTypeOverdef, st.2)
  | Some c => Some (ValSetTypeScalar, setV st.2 (SVVal c))
  | None => Some (ValSetTypeOverdef, st.2)
  end
end.

(** The types a descriptor survives a cast between. *)
Definition fdCastTy (t : Ty) : bool :=
isIntegerTyW 32 t || isIntegerTyW 64 t || isPointerTy t.

(** The cast arm of [tryEvaluateResult]: [Some r] when it returns [r],
    [None] when control leaves the arm for the code below it. *)
Definition castArm (SrcTy DestTy : Ty) (Ops : list Operand)
    (st : Operand) : option Operand :=
let Op0 := Ops !!! 0%nat in
if bool_decide (Op0.1 = ValSetTypeFD) && negb (fdCastTy SrcTy && fdCastTy DestTy)
then Some (ValSetTypeOverdef, st.2)
else if bool_decide (Op0.1 ≠ ValSetTypeScalar)
then Some (Op0.1, Op0.2)
else None.

Definition isAlloca (I : Instruction) : bool :=
match I with AllocaInst _ => true | _ => false end.

(** [tryEvaluateResult(SI, Ops, ImpType, Improved)]: the out-parameters
    come in as [st] and go out as the result; [None] where the source
    gives no one result: undefined behaviour, or a cast whose assertion
    fails. *)
Definition tryEvaluateResult (SI : ShadowInstruction) (Ops : list Operand)
    (st : Operand) : option Operand :=
let I := si_I SI in
let Op0 := Ops !!! 0%nat in
if isAlloca I || isNoAliasCall (VInst I)
then Some (ValSetTypePB, {| V := SVInst SI; Offset := 0 |})
else
  let early :=
    match I with
    | CastInst _ SrcTy DestTy => castArm SrcTy DestTy Ops st
    | _ => None
    end in
  match early with
  | Some r => Some r
  | None =>
    match I with
    | CmpInst pred =>
      let '(handled, st1) := tryFoldOpenCmp pred Ops st in
      if handled then Some st1
      else
        let '(handled, st2) :=
          if isIntPredicate pred then tryFoldPointerCmp pred Ops st1
          else (false, st1) in
        if handled then Some st2
        else
          let '(handled, st3) := tryFoldNonConstCmp pred Ops st2 in
          if handled then Some st3
          else ordinaryConstantFold I Ops st3
    | GetElementPtrInst steps =>
      if bool_decide (Op0.1 = ValSetTypePB) then
        if bool_decide (Offset Op0.2 ≠ LLONG_MAX) then
          off ← gepAccumulate (tail Ops) steps (Offset Op0.2);
          Some (ValSetTypePB, {| V := V Op0.2; Offset := off |})
        else Some (ValSetTypePB, Op0.2)
      else if bool_decide (Op0.1 = ValSetTypeVarArg) then gepVarArg Ops st
      else Some (if bool_decide (Op0.1 = ValSetTypeUnknown)
                 then ValSetTypeUnknown else ValSetTypeOverdef, st.2)
    | BinaryOperator (Add | Sub | And | Or) _ =>
      let '(handled, st1) := tryFoldPtrAsIntOp I Ops st in
      if handled then Some st1
      else
        let '(handled, st2) := tryFoldBitwiseOp I Ops st1 in
        if handled then Some st2
        else ordinaryConstantFold I Ops st2
    | _ => ordinaryConstantFold I Ops st
    end
  end.

End Evaluators.

End Folder.

(** ** The context tree *)

Module Contexts.

Inductive IterationStatus :=
| IterationStatusUnknown
| IterationStatusFinal
| IterationStatusNonFinal.

#[global] Instance IterationStatus_eq_dec : EqDecision IterationStatus.
Proof. solve_decision. Defined.

(** What one context holds itself: its identity, the dead flag, for a peel
    iteration its status and index and what [allExitEdgesDead()] (defined
    outside the sources at hand) answers for it, and the per-instruction
    cache of lattice values, keyed by block and instruction index. *)
Record CtxData := {
  ctxId : nat;
  contextIsDead : bool;
  iterStatus : IterationStatus;
  iterationCount : nat;
  exitEdgesDead : bool;
  PBs : gmap (nat * nat) PointerBase
}.

Record Loop := { header : nat; preheader : nat; latch : nat }.

(** A peel attempt over contexts of type [A]: its loop, the first
    component of the optimistic edge of its invariant information, and
    the iterations in order. *)
Record PeelAttemptOf (A : Type) := {
  paLoop : Loop;
  optimisticEdgeFirst : Z;
  Iterations : list A
}.
Arguments paLoop {A}.
Arguments optimisticEdgeFirst {A}.
Arguments Iterations {A}.

(** A context owns its children: the inline attempts by call site, the
    peel attempts by loop. *)
#[warnings="-register-all"]
Inductive IntegrationAttempt :=
| MkIA (data : CtxData)
       (inlineChildren : gmap nat IntegrationAttempt)
       (peelChildren : gmap nat (PeelAttemptOf IntegrationAttempt)).

Abbreviation PeelAttempt := (PeelAttemptOf IntegrationAttempt).

Definition dataOf (c : IntegrationAttempt) : CtxData :=
match c with MkIA d _ _ => d end.
Definition inlineChildren (c : IntegrationAttempt) : gmap nat IntegrationAttempt :=
match c with MkIA _ i _ => i end.
Definition peelChildren (c : IntegrationAttempt) : gmap nat PeelAttempt :=
match c with MkIA _ _ p => p end.

Definition isDead (c : IntegrationAttempt) : bool := contextIsDead (dataOf c).

Definition setDead (d : CtxData) : CtxData :=
{| ctxId := ctxId d; contextIsDead := true; iterStatus := iterStatus d;
   iterationCount := iterationCount d; exitEdgesDead := exitEdgesDead d;
   PBs := PBs d |}.

Definition mapIterations {A B} (f : A -> B) (pa : PeelAttemptOf A) : PeelAttemptOf B :=
{| paLoop := paLoop pa; optimisticEdgeFirst := optimisticEdgeFirst pa;
   Iterations := f <$> Iterations pa |}.

(** [IntegrationAttempt::markContextDead]: the flag of this context, then
    every inline child, then every iteration of every peel child. *)
Fixpoint markContextDead (c : IntegrationAttempt) : IntegrationAttempt :=
match c with
| MkIA d inls peel =>
    MkIA (setDead d)
         (markContextDead <$> inls)
         ((fun pa : PeelAttempt => mapIterations markContextDead pa) <$> peel)
end.

(** Where a context sits below another: one step per edge of the tree. *)
Inductive CtxStep :=
| InlineStep (call : nat)
| PeelStep (loop : nat) (iteration : nat).

#[global] Instance CtxStep_eq_dec : EqDecision CtxStep.
Proof. solve_decision. Defined.

Definition child (s : CtxStep) (c : IntegrationAttempt) : option IntegrationAttempt :=
match s with
| InlineStep call => inlineChildren c !! call
| PeelStep loop i => pa ← peelChildren c !! loop; Iterations pa !! i
end.

Fixpoint ctxAt (p : list CtxStep) (c : IntegrationAttempt) : option IntegrationAttempt :=
match p with
| [] => Some c
| s :: p' => c' ← child s c; ctxAt p' c'
end.

Definition setChild (s : CtxStep) (c' : IntegrationAttempt)
    (c : IntegrationAttempt) : IntegrationAttempt :=
match c, s with
| MkIA d inls peel, InlineStep call => MkIA d (<[call := c']> inls) peel
| MkIA d inls peel, PeelStep loop i =>
    MkIA d inls
      (alter (fun pa : PeelAttempt =>
                {| paLoop := paLoop pa;
                   optimisticEdgeFirst := optimisticEdgeFirst pa;
                   Iterations := <[i := c']> (Iterations pa) |}) loop peel)
end.

(** The tree after a method that mutates the context at [p] in place. *)
Fixpoint updateAt (f : IntegrationAttempt -> IntegrationAttempt)
    (p : list CtxStep) (c : IntegrationAttempt) : IntegrationAttempt :=
match p with
| [] => f c
| s :: p' =>
    match child s c with
    | Some c' => setChild s (updateAt f p' c') c
    | None => c
    end
end.

(** [PeelAttempt::allNonFinalIterationsDoNotExit].  The bound
    [Iterations.size() - 1] is computed on unsigned 64-bit integers; an
    index past the end of the vector is undefined behaviour, [None].
    [rest] is the vector from index [i] on. *)
Fixpoint scanNonFinal (i bound : Z) (rest : list IntegrationAttempt) : option bool :=
if decide (i < bound) then
  match rest with
  | [] => None
  | it :: rest' =>
      if negb (exitEdgesDead (dataOf it)) then Some false
      else scanNonFinal (i + 1) bound rest'
  end
else Some true.

Definition allNonFinalIterationsDoNotExit (PA : PeelAttempt) : option bool :=
scanNonFinal 0 ((Z.of_nat (length (Iterations PA)) - 1) mod 2 ^ 64) (Iterations PA).

(** [PeelIteration::isOnlyExitingIteration], on an iteration and the peel
    attempt [parentPA] points to. *)
Definition isOnlyExitingIteration (iter : IntegrationAttempt)
    (parentPA : PeelAttempt) : option bool :=
if bool_decide (iterStatus (dataOf iter) ≠ IterationStatusFinal) then Some false
else if bool_decide (optimisticEdgeFirst parentPA = 4294967295) then Some true
else allNonFinalIterationsDoNotExit parentPA.

(** [PeelIteration::isOptimisticPeel]. *)
Definition isOptimisticPeel (parentPA : PeelAttempt) : bool :=
bool_decide (optimisticEdgeFirst parentPA ≠ 4294967295).

End Contexts.

Export Contexts.

(** ** Merge instructions and loop-header phis *)

Module Merging.

(** [ShadowInstIdx]: where an operand is defined, by block and instruction
    index; both fields have an "invalid" sentinel. *)
Record ShadowInstIdx := { blockIdx : Z; instIdx : Z }.

(** The two sentinels, [0xffffffff] as for the optimistic edge; nothing
    below depends on the value. *)
Definition INVALID_BLOCK_IDX : Z := 4294967295.
Definition INVALID_INSTRUCTION_IDX : Z := 4294967295.

(** [PHINode::getBasicBlockIndex]: the position of the first incoming edge
    from [BB], if any. *)
Definition getBasicBlockIndex (incoming : list nat) (BB : nat) : option nat :=
fst <$> list_find (fun b => b = BB) incoming.

(** Modelled from the spec: [PeelAttempt::getIteration] is defined outside
    the sources at hand; it "fails/returns absent if index exceeds
    materialized count". *)
Definition getIteration (PA : PeelAttempt) (iter : nat) : option IntegrationAttempt :=
Iterations PA !! iter.

(** Modelled from the spec: [getPointerBase] on an arena of contexts: "an
    operand defined in a child context is read directly from that child's
    cache"; a literal constant is its own scalar value.  The function is
    declared in the missing header. *)
Definition cachedPointerBase (arena : list IntegrationAttempt)
    (v : ShadowValue) : option PointerBase :=
match v with
| SVInst si =>
    '(_, c) ← list_find (fun c => ctxId (dataOf c) = si_ctx si) arena;
    pb ← PBs (dataOf c) !! (si_blockIdx si, si_instIdx si);
    if isInitialised pb then Some pb else None
| SVVal c =>
    Some {| Type_ := ValSetTypeScalar; Values := [ofShadow (SVVal c)]; Overdef := false |}
| _ => None
end.

Section Merge.

(** The state of the per-instruction caches, as [getPointerBase] reads it
    ([None] when it returns false), and the join of the lattice. *)
Context (getPointerBase : ShadowValue -> option PointerBase).
Context (merge : PointerBase -> PointerBase -> PointerBase).

(** What the operand accessors of the missing header and the operand
    collectors yield: [SI->getOperand(i)], the live return values of the
    inline attempt at a call (if there is one), the operands one incoming
    edge of a phi contributes, [SI->invar->operandIdxs], and the
    instruction the invariant information has at a block and index. *)
Context (getOperand : ShadowInstruction -> nat -> ShadowValue).
Context (getLiveReturnVals : ShadowInstruction -> option (list ShadowValue)).
Context (getExitPHIOperands : ShadowInstruction -> nat -> list ShadowValue).
Context (operandIdxs : ShadowInstruction -> list ShadowInstIdx).
Context (invarInst : nat -> nat -> Instruction).

(** The positions [0, 2, 4, ...] below [ilim] the phi loop visits; it stops
    only on [i == ilim], so an odd [ilim] is undefined behaviour. *)
Definition valueOperandPositions (ilim : nat) : option (list nat) :=
if Nat.even ilim then Some ((fun j => 2 * j)%nat <$> seq 0 (Nat.div2 ilim)) else None.

(** The values a merge instruction merges: [None] when [tryEvaluateMerge]
    returns false before the loop (a void call, a call without an inline
    attempt), [Some None] on undefined behaviour. *)
Definition mergeOperands (SI : ShadowInstruction) : option (option (list ShadowValue)) :=
match si_I SI with
| SelectInst _ => Some (Some [getOperand SI 1; getOperand SI 2])
| CallInst ty _ _ =>
    if isVoidTy ty then None
    else
      match getLiveReturnVals SI with
      | Some Vals => Some (Some Vals)
      | None => None
      end
| _ =>
    Some (positions ← valueOperandPositions (length (operandIdxs SI));
          Some (concat (getExitPHIOperands SI <$> positions)))
end.

(** The merge loop of [tryEvaluateMerge]: [anyInfo] and [NewPB] are its
    two variables. *)
Fixpoint mergeValues (finalise : bool) (Vals : list ShadowValue)
    (anyInfo : bool) (NewPB : PointerBase) : bool * PointerBase :=
match Vals with
| [] => (anyInfo, NewPB)
| v :: rest =>
  if Overdef NewPB then (anyInfo, NewPB)
  else
    match getPointerBase v with
    | None =>
        if finalise then (true, getOverdef)
        else mergeValues finalise rest anyInfo NewPB
    | Some VPB => mergeValues finalise rest true (merge NewPB VPB)
    end
end.

(** [IntegrationAttempt::tryEvaluateMerge(I, finalise, NewPB)]: the
    returned flag and the new [NewPB]; [None] is undefined behaviour. *)
Definition tryEvaluateMerge (SI : ShadowInstruction) (finalise : bool)
    (NewPB : PointerBase) : option (bool * PointerBase) :=
match mergeOperands SI with
| None => Some (false, NewPB)
| Some None => None
| Some (Some Vals) => Some (mergeValues finalise Vals false NewPB)
end.

(** [IntegrationAttempt::getInst(blockIdx, instIdx)]. *)
Definition IA_getInst (ctx : IntegrationAttempt) (b i : nat) : ShadowInstruction :=
{| si_ctx := ctxId (dataOf ctx); si_blockIdx := b; si_instIdx := i;
   si_I := invarInst b i |}.

(** [PeelIteration::getLoopHeaderForwardedOperand], on the iteration
    [iter] of the peel attempt [parentPA].  [None] is undefined behaviour:
    a phi without the edge looked for, a previous iteration that does not
    exist. *)
Definition getLoopHeaderForwardedOperand (parentPA : PeelAttempt)
    (iter : IntegrationAttempt) (SI : ShadowInstruction) : option ShadowValue :=
match si_I SI with
| PHINode _ incoming =>
  let L := paLoop parentPA in
  if bool_decide (iterationCount (dataOf iter) = 0%nat) then
    predIdx ← getBasicBlockIndex incoming (preheader L);
    Some (getOperand SI (predIdx * 2))
  else
    predIdx ← getBasicBlockIndex incoming (latch L);
    SII ← operandIdxs SI !! (predIdx * 2)%nat;
    if bool_decide (blockIdx SII ≠ INVALID_BLOCK_IDX) then
      prevIter ← getIteration parentPA (iterationCount (dataOf iter) - 1);
      Some (SVInst (IA_getInst prevIter (Z.to_nat (blockIdx SII)) (Z.to_nat (instIdx SII))))
    else Some (getOperand SI (predIdx * 2))
| _ => None
end.

Inductive HeaderPHIResult :=
| NotHeaderPHI
| HeaderPHI (result : option PointerBase).

(** [PeelIteration::tryEvaluateHeaderPHI]: [NotHeaderPHI] is the return of
    false, [HeaderPHI r] the return of true with [resultValid] and
    [result] as [getPointerBase] left them. *)
Definition tryEvaluateHeaderPHI (parentPA : PeelAttempt)
    (iter : IntegrationAttempt) (SI : ShadowInstruction) : option HeaderPHIResult :=
match si_I SI with
| PHINode _ _ =>
  let isHeaderPHI := bool_decide (si_blockIdx SI = header (paLoop parentPA)) in
  if isHeaderPHI then
    predValue ← getLoopHeaderForwardedOperand parentPA iter SI;
    Some (HeaderPHI (getPointerBase predValue))
  else Some NotHeaderPHI
| _ => None
end.

(** [IntegrationAttempt::tryEvaluateHeaderPHI], the version every context
    that is no peel iteration runs. *)
Definition tryEvaluateHeaderPHI_base (SI : ShadowInstruction) : HeaderPHIResult :=
NotHeaderPHI.

End Merge.

End Merging.

(** ** The dead-store forward walker (DSE.cpp) *)

Module DSE.

Inductive Callee := Malloc | Free | OtherCallee.

#[global] Instance Callee_eq_dec : EqDecision Callee.
Proof. solve_decision. Defined.

(** The values and instructions DSE.cpp tells apart.  A load and a store
    carry the store size of the type they move. *)
Inductive Value :=
| Alloca (id : nat)
| Call (id : nat) (callee : Callee) (arg0 arg1 : Value)
| MemTransfer (id : nat) (dest source length : Value)
| MemSet (id : nat) (dest length : Value)
| Load (id : nat) (ptr : Value) (storeSize : Z)
| Store (id : nat) (ptr : Value) (storeSize : Z)
| Terminator (id : nat) (numSuccessors : nat)
| OtherValue (id : nat).

#[global] Instance Value_eq_dec : EqDecision Value.
Proof. solve_decision. Defined.

(** [ValCtx]: a value and the context it is seen in (null for none). *)
Record ValCtx := { first : Value; second : option nat; isVaArg : bool }.

#[global] Instance ValCtx_eq_dec : EqDecision ValCtx.
Proof. solve_decision. Defined.

Definition make_vc (v : Value) (ctx : nat) : ValCtx :=
{| first := v; second := Some ctx; isVaArg := false |}.

Inductive AliasResult := NoAlias | MayAlias | MustAlias.

#[global] Instance AliasResult_eq_dec : EqDecision AliasResult.
Proof. solve_decision. Defined.

Inductive WalkInstructionResult := WIRContinue | WIRStopThisPath | WIRStopWholeWalk.

#[global] Instance WalkInstructionResult_eq_dec : EqDecision WalkInstructionResult.
Proof. solve_decision. Defined.

(** [AliasAnalysis::UnknownSize], [~0u]. *)
Definition UnknownSize : Z := 4294967295.

(** The collaborators of the walker: the alias query, the resolved values
    of the fixed point, and the helpers defined elsewhere. *)
Record Oracle := {
  aliasHypothetical : ValCtx -> Z -> ValCtx -> Z -> AliasResult;
  getConstReplacement : nat -> Value -> option Z;
  getReplacement : nat -> Value -> ValCtx;
  isAvailableFromCtx : nat -> option nat -> bool;
  resolvedReadCalls : nat -> Value -> option Z;
  getFunctionRoot : nat -> nat;
  GetBaseWithConstantOffset : Value -> option nat -> ValCtx * Z;
  GetDefinedRange : ValCtx -> Z -> Z -> ValCtx -> Z -> Z -> option (Z * Z)
}.

(** The analysis state the walker reads and [tryKillWriterTo] extends. *)
Record DSEState := {
  unusedWriters : list Value;
  unusedWritersTraversing : gmap nat (list ValCtx)
}.

Section Walker.

Context (O : Oracle).

Definition isaAllocaInst (v : Value) : bool :=
match v with Alloca _ => true | _ => false end.
Definition isMalloc (v : Value) : bool :=
match v with Call _ Malloc _ _ => true | _ => false end.

(** [IntegrationAttempt::isLifetimeEnd(Alloc, I)] in context [this]. *)
Definition isLifetimeEnd (this : nat) (Alloc : ValCtx) (I : Value) : bool :=
if isaAllocaInst (first Alloc) then
  match I with
  | Terminator _ numSuccessors =>
      bool_decide (numSuccessors = 0%nat)
      && bool_decide (getFunctionRoot O <$> second Alloc = Some this)
  | _ => false
  end
else if isMalloc (first Alloc) then
  match I with
  | Call _ Free arg0 _ => bool_decide (getReplacement O this arg0 = Alloc)
  | _ => false
  end
else false.

(** The loop of [DSEHandleWrite] over the bytes from index [i] on: a byte
    inside the written range is marked, the first unmarked byte outside it
    ends the loop with [Finished] false. *)
Fixpoint markBytes (i Size FirstDef FirstNotDef : Z) (bytes : list bool) : bool * list bool :=
match bytes with
| [] => (true, [])
| b :: rest =>
  if decide (i < Size) then
    if decide (FirstDef <= i < FirstNotDef) then
      let '(Finished, rest') := markBytes (i + 1) Size FirstDef FirstNotDef rest in
      (Finished, true :: rest')
    else if negb b then (false, b :: rest)
    else
      let '(Finished, rest') := markBytes (i + 1) Size FirstDef FirstNotDef rest in
      (Finished, b :: rest')
  else (true, b :: rest)
end.

(** [IntegrationAttempt::DSEHandleWrite]: whether the tracked bytes are now
    all overwritten, and the bitmap as the call leaves it. *)
Definition DSEHandleWrite (Writer : ValCtx) (WriteSize : Z) (StorePtr : ValCtx)
    (Size : Z) (StoreBase : ValCtx) (StoreOffset : Z)
    (deadBytes : option (list bool)) : bool * option (list bool) :=
match deadBytes with
| None => (false, None)
| Some bytes =>
  let R := aliasHypothetical O Writer WriteSize StorePtr Size in
  let '(WriteBase, WriteOffset) := GetBaseWithConstantOffset O (first Writer) (second Writer) in
  let '(FirstDef, FirstNotDef) :=
    match R with
    | MayAlias =>
        match GetDefinedRange O StoreBase StoreOffset (Size * 8)
                WriteBase WriteOffset (WriteSize * 8) with
        | Some range => range
        | None => (0, 0)
        end
    | MustAlias => (0, Z.min WriteSize Size)
    | NoAlias => (0, 0)
    end in
  if bool_decide (FirstDef ≠ FirstNotDef) then
    let '(Finished, bytes') := markBytes 0 Size FirstDef FirstNotDef bytes in
    (Finished, Some bytes')
  else (false, Some bytes)
end.

Definition stopOrContinue (r : bool * option (list bool))
    : WalkInstructionResult * option (list bool) :=
(if r.1 then WIRStopThisPath else WIRContinue, r.2).

(** [IntegrationAttempt::noteBytesWrittenBy] in context [this], with the
    set of writers already found unused: the verdict on instruction [I]
    and the bitmap of the path after it. *)
Definition noteBytesWrittenBy (this : nat) (unused : list Value) (I : Value)
    (StorePtr StoreBase : ValCtx) (StoreOffset Size : Z)
    (writtenBytes : option (list bool))
    : WalkInstructionResult * option (list bool) :=
if isLifetimeEnd this StoreBase I then (WIRStopThisPath, writtenBytes)
else
  match I with
  | MemTransfer _ dest _ len | MemSet _ dest len =>
    let MISize :=
      match getConstReplacement O this len with
      | Some n => n
      | None => UnknownSize
      end in
    let unresolvedSource :=
      match I with
      | MemTransfer _ _ source _ =>
          negb (bool_decide (I ∈ unused))
          && negb (bool_decide
               (aliasHypothetical O (make_vc source this) MISize StorePtr Size = NoAlias))
      | _ => false
      end in
    if unresolvedSource then (WIRStopWholeWalk, writtenBytes)
    else if bool_decide (MISize ≠ UnknownSize)
    then stopOrContinue
           (DSEHandleWrite (make_vc dest this) MISize StorePtr Size
              StoreBase StoreOffset writtenBytes)
    else (WIRContinue, writtenBytes)
  | Call _ _ _ arg1 =>
    match resolvedReadCalls O this I with
    | Some readSize =>
        stopOrContinue
          (DSEHandleWrite (make_vc arg1 this) readSize StorePtr Size
             StoreBase StoreOffset writtenBytes)
    | None => (WIRContinue, writtenBytes)
    end
  | Load _ Pointer LoadSize =>
    let Res := getReplacement O this I in
    if bool_decide (Res = make_vc I this)
       || (bool_decide (is_Some (second Res))
           && (negb (isAvailableFromCtx O (default 0%nat (second Res)) (second StorePtr))
               || isVaArg Res))
    then
      if negb (bool_decide
           (aliasHypothetical O (make_vc Pointer this) LoadSize StorePtr Size = NoAlias))
      then (WIRStopWholeWalk, writtenBytes)
      else (WIRContinue, writtenBytes)
    else (WIRContinue, writtenBytes)
  | Store _ Pointer StoreSize =>
    stopOrContinue
      (DSEHandleWrite (make_vc Pointer this) StoreSize StorePtr Size
         StoreBase StoreOffset writtenBytes)
  | _ => (WIRContinue, writtenBytes)
  end.

(** Modelled from the spec: the instruction graph the walker is given
    comes from outside the sources at hand.  Here it is the hypothetical
    execution graph ahead of the writer, unfolded: each step is an
    instruction in its context, followed by the paths that fork after it. *)
#[warnings="-register-all"]
Inductive PathTree :=
| PathStep (ctx : nat) (I : Value) (succs : list PathTree).

Section ForwardIAWalker.

(** The state of a walker subclass and its [walkInstruction]. *)
Context {W : Type}.
Context (walkInstruction :
  Value -> nat -> option (list bool) -> W ->
  WalkInstructionResult * option (list bool) * W).

(** Modelled from the spec: [ForwardIAWalker::walk] is defined outside the
    sources at hand.  "Step rules, evaluated in program order along every
    reachable control-flow path"; the bitmap is "copied on path fork";
    a stop of the whole walk ends "all paths, not just this one".  The
    flag returned says whether the whole walk was stopped. *)
Fixpoint walkFrom (t : PathTree) (Ctx : option (list bool)) (w : W) : W * bool :=
match t with
| PathStep ctx Inst succs =>
  let '(Res, Ctx', w') := walkInstruction Inst ctx Ctx w in
  match Res with
  | WIRStopThisPath => (w', false)
  | WIRStopWholeWalk => (w', true)
  | WIRContinue =>
    (fix walkAll (ts : list PathTree) (w : W) : W * bool :=
       match ts with
       | [] => (w, false)
       | t' :: ts' =>
           let '(w1, stopped) := walkFrom t' Ctx' w in
           if stopped then (w1, true) else walkAll ts' w1
       end) succs w'
  end
end.

(** Modelled from the spec: the walk from the instruction after the
    writer, over every path ahead of it. *)
Definition walk (paths : list PathTree) (Ctx : option (list bool)) (w : W) : W :=
((fix walkAll (ts : list PathTree) (w : W) : W * bool :=
   match ts with
   | [] => (w, false)
   | t' :: ts' =>
       let '(w1, stopped) := walkFrom t' Ctx w in
       if stopped then (w1, true) else walkAll ts' w1
   end) paths w).1.

End ForwardIAWalker.

(** The fields [WriterUsedWalker] adds to the walker. *)
Record WriterUsedWalker := {
  StorePtr : ValCtx;
  StoreBase : ValCtx;
  StoreOffset : Z;
  StoreSize : Z;
  writeUsed : bool;
  WalkIAs : gset nat
}.

(** The value a function hands back when control runs off its end without
    a [return]: nothing in the program determines it.  It may happen to
    be the verdict just computed, so it is given that verdict too. *)
Context (unspecifiedResult :
  WalkInstructionResult -> Value -> nat -> WalkInstructionResult).

(** [StoreUsedWalker::walkInstruction], the only definition the file has
    for the [walkInstruction] that [WriterUsedWalker] declares: the
    context is recorded in [WalkIAs], [noteBytesWrittenBy] is run, and its
    verdict [Res] is neither returned nor looked at. *)
Definition walkInstruction (unused : list Value) (I : Value) (IA : nat)
    (Ctx : option (list bool)) (w : WriterUsedWalker)
    : WalkInstructionResult * option (list bool) * WriterUsedWalker :=
let w' := {| StorePtr := StorePtr w; StoreBase := StoreBase w;
             StoreOffset := StoreOffset w; StoreSize := StoreSize w;
             writeUsed := writeUsed w; WalkIAs := {[IA]} ∪ WalkIAs w |} in
let '(Res, writtenBytes) :=
  noteBytesWrittenBy IA unused I (StorePtr w) (StoreBase w) (StoreOffset w)
    (StoreSize w) Ctx in
(unspecifiedResult Res I IA, writtenBytes, w').

Definition addTraversingInst (VC : ValCtx) (IA : nat)
    (m : gmap nat (list ValCtx)) : gmap nat (list ValCtx) :=
<[IA := VC :: default [] (m !! IA)]> m.

(** [IntegrationAttempt::tryKillWriterTo(Writer, WritePtr, Size)] in
    context [this], on the paths ahead of the writer: the value returned
    and the state after the call. *)
Definition tryKillWriterTo (this : nat) (paths : list PathTree) (st : DSEState)
    (Writer WritePtr : Value) (Size : Z) : bool * DSEState :=
let initialCtx :=
  if bool_decide (Size ≠ UnknownSize) then Some (replicate (Z.to_nat Size) false)
  else None in
let StorePtr := make_vc WritePtr this in
let '(StoreBase, StoreOffset) := GetBaseWithConstantOffset O WritePtr (Some this) in
let Walk0 := {| StorePtr := StorePtr; StoreBase := StoreBase;
                StoreOffset := StoreOffset; StoreSize := Size;
                writeUsed := false; WalkIAs := ∅ |} in
let Walk := walk (walkInstruction (unusedWriters st)) paths initialCtx Walk0 in
if negb (writeUsed Walk) then
  (true,
   {| unusedWriters := Writer :: unusedWriters st;
      unusedWritersTraversing :=
        foldr (addTraversingInst (make_vc Writer this))
              (unusedWritersTraversing st) (elements (WalkIAs Walk)) |})
else (false, st).

(** [tryKillStore]: the size is that of the stored value, in bytes. *)
Definition tryKillStore (this : nat) (paths : list PathTree) (st : DSEState)
    (SI : Value) : option (bool * DSEState) :=
match SI with
| Store _ ptr storeSize => Some (tryKillWriterTo this paths st SI ptr storeSize)
| _ => None
end.

End Walker.

End DSE.

(** ** The meaning of integer comparison, and a concrete folder *)

Module Semantics.

Import Folder.

(** [icmp Pred a b] on the signed readings [a], [b] of two integers of
    width [w] (the unsigned predicates compare the representatives). *)
Definition evalICmp (w : Z) (Pred : Predicate) (a b : Z) : option bool :=
let u x := x mod 2 ^ w in
match Pred with
| ICMP_EQ => Some (bool_decide (a = b))
| ICMP_NE => Some (bool_decide (a ≠ b))
| ICMP_UGT => Some (bool_decide (u b < u a))
| ICMP_UGE => Some (bool_decide (u b <= u a))
| ICMP_ULT => Some (bool_decide (u a < u b))
| ICMP_ULE => Some (bool_decide (u a <= u b))
| ICMP_SGT => Some (bool_decide (b < a))
| ICMP_SGE => Some (bool_decide (b <= a))
| ICMP_SLT => Some (bool_decide (a < b))
| ICMP_SLE => Some (bool_decide (a <= b))
| _ => None
end.

(** The predicate [Q] with [a Q b] the same comparison as [b P a]. *)
Definition swappedPredicate (P : Predicate) : Predicate :=
match P with
| ICMP_UGT => ICMP_ULT
| ICMP_ULT => ICMP_UGT
| ICMP_UGE => ICMP_ULE
| ICMP_ULE => ICMP_UGE
| ICMP_SGT => ICMP_SLT
| ICMP_SLT => ICMP_SGT
| ICMP_SGE => ICMP_SLE
| ICMP_SLE => ICMP_SGE
| _ => P
end.

Definition boolConstant (b : bool) : Constant := if b then getTrue else getFalse.

(** The comparison read with the descriptor (or the non-constant operand)
    on the left: [onRight] says it was written on the right. *)
Definition normalisedPred (onRight : bool) (P : Predicate) : Predicate :=
if onRight then swappedPredicate P else P.

(** The predicates [getOpenCmpResult] has a case for. *)
Definition handlePredicates : list Predicate :=
[ICMP_EQ; ICMP_NE; ICMP_SGT; ICMP_SGE; ICMP_SLT; ICMP_SLE].

(** The folds a comparison with an extremal constant on the right admits,
    in the words of the design: "unsigned > against all-ones is always
    false, unsigned >= against zero is always true", and so on. *)
Definition extremalFold (P : Predicate) (w v : Z) : option bool :=
match P with
| ICMP_UGT => if bool_decide (v = 2 ^ w - 1) then Some false else None
| ICMP_UGE => if bool_decide (v = 0) then Some true else None
| ICMP_ULT => if bool_decide (v = 0) then Some false else None
| ICMP_ULE => if bool_decide (v = 2 ^ w - 1) then Some true else None
| ICMP_SGT => if bool_decide (v = 2 ^ (w - 1) - 1) then Some false else None
| ICMP_SGE => if bool_decide (v = 2 ^ (w - 1)) then Some true else None
| ICMP_SLT => if bool_decide (v = 2 ^ (w - 1)) then Some false else None
| ICMP_SLE => if bool_decide (v = 2 ^ (w - 1) - 1) then Some true else None
| _ => None
end.

(** Bit widths of the types a cast moves between, pointers being 64 bits
    wide (the vararg frame of the folder is the x86-64 one). *)
Definition bitWidth (t : Ty) : option Z :=
match t with
| IntegerTy w => Some w
| PointerTy => Some 64
| _ => None
end.

Definition castChangesWidth (SrcTy DestTy : Ty) : Prop :=
match bitWidth SrcTy, bitWidth DestTy with
| Some a, Some b => a ≠ b
| _, _ => False
end.

(** A small constant folder: integer comparisons of two integers of one
    width, nothing else. *)
Definition foldCompare (P : Predicate) (a b : option Constant) : option Constant :=
match a, b with
| Some (ConstantInt w x), Some (ConstantInt w' y) =>
    if bool_decide (w = w')
    then boolConstant <$> evalICmp w P (getSExtValue w x) (getSExtValue w y)
    else None
| _, _ => None
end.

Definition simpleExternals : Externals :=
{| ConstantFoldCompareInstOperands := foldCompare;
   ConstantFoldLoadFromConstPtr := fun _ => None;
   ConstantFoldInstOperands := fun _ _ => None;
   getGVOffset := fun c _ _ => c;
   getMallocAlignment := 8;
   first_fp_arg := 65536;
   not_va_arg := -1;
   getVaArgType := fun _ => va_arg_type_none;
   getVaArg := fun _ => 0;
   getInitialBytesOnStack := fun _ => 0;
   getInitialFPBytesOnStack := fun _ => 0;
   getSpilledVarargAfter := fun _ _ => -1 |}.

End Semantics.

(** ** The design's wording of some operations *)

Module Specs.

Definition handleCastTypes : list Ty := [IntegerTy 32; IntegerTy 64; PointerTy].

Definition doesNotExit (it : IntegrationAttempt) : Prop :=
exitEdgesDead (dataOf it) = true.

(** The merge the design describes for the optimistic phase, on the
    operand values that are known: each is joined into the result in
    turn, until the result is Overdef. *)
Fixpoint mergeKnown (merge : PointerBase -> PointerBase -> PointerBase)
    (VPBs : list PointerBase) (anyInfo : bool)
    (NewPB : PointerBase) : bool * PointerBase :=
match VPBs with
| [] => (anyInfo, NewPB)
| VPB :: rest =>
    if Overdef NewPB then (anyInfo, NewPB)
    else mergeKnown merge rest true (merge NewPB VPB)
end.

(** The dead-store walk as the design words it, from one instruction on,
    with the bitmap of the path so far: "If coverage becomes total, the
    path terminates successfully"; an unresolved read "forces the entire
    walk (all paths, not just this one) to terminate with write is used";
    "Reaching the end of the tracked object's lifetime ... terminates the
    path successfully"; "Reaching a function/program exit without lifetime
    end and without full coverage means the write is used".  The answer
    is whether the write is used on some path from here. *)
Fixpoint usedAheadAsDesigned (O : DSE.Oracle) (unused : list DSE.Value)
    (StorePtr StoreBase : DSE.ValCtx) (StoreOffset Size : Z)
    (t : DSE.PathTree) (Ctx : option (list bool)) : bool :=
match t with
| DSE.PathStep IA Inst succs =>
  let '(Res, writtenBytes) :=
    DSE.noteBytesWrittenBy O IA unused Inst StorePtr StoreBase StoreOffset
      Size Ctx in
  match Res with
  | DSE.WIRStopThisPath => false
  | DSE.WIRStopWholeWalk => true
  | DSE.WIRContinue =>
      match succs with
      | [] => true
      | _ =>
        existsb (fun t' => usedAheadAsDesigned O unused StorePtr StoreBase
                             StoreOffset Size t' writtenBytes) succs
      end
  end
end.

(** Whether the design judges the write at [WritePtr] used: "A write is
    judged dead only when every path from it terminates in covered or
    lifetime end and none force the global used-state".  A writer with
    nothing ahead of it has reached the exit. *)
Definition writeUsedAsDesigned (O : DSE.Oracle) (this : nat)
    (paths : list DSE.PathTree) (unused : list DSE.Value)
    (WritePtr : DSE.Value) (Size : Z) : bool :=
let '(StoreBase, StoreOffset) :=
  DSE.GetBaseWithConstantOffset O WritePtr (Some this) in
match paths with
| [] => true
| _ =>
  existsb (fun t => usedAheadAsDesigned O unused (DSE.make_vc WritePtr this)
                      StoreBase StoreOffset Size t
                      (if bool_decide (Size ≠ DSE.UnknownSize)
                       then Some (replicate (Z.to_nat Size) false) else None))
          paths
end.

End Specs.

(** ** Small programs to run the embedding on *)

Module Examples.

Import Folder Semantics.

Definition openCall : ShadowInstruction :=
{| si_ctx := 0; si_blockIdx := 0; si_instIdx := 0;
   si_I := CallInst (IntegerTy 32) false (Some "open"%string) |}.

Definition cmpAt (P : Predicate) : ShadowInstruction :=
{| si_ctx := 0; si_blockIdx := 0; si_instIdx := 1; si_I := CmpInst P |}.

Definition handleOperand : Operand :=
(ValSetTypeFD, {| V := SVInst openCall; Offset := 0 |}).

Definition scalarOperand (c : Constant) : Operand :=
(ValSetTypeScalar, ofShadow (SVVal c)).

Definition freshResult : Operand := (ValSetTypeUnknown, ofShadow SVInval).

Definition unresolvedOperand : Operand := (ValSetTypeUnknown, ofShadow SVInval).


Definition allocaAt (n : nat) : ShadowInstruction :=
{| si_ctx := 0; si_blockIdx := 0; si_instIdx := n; si_I := AllocaInst 8 |}.

Definition ptrtoint8 : ShadowInstruction :=
{| si_ctx := 0; si_blockIdx := 0; si_instIdx := 2;
   si_I := CastInst PtrToInt PointerTy (IntegerTy 8) |}.

Definition pointerOperand : Operand :=
(ValSetTypePB, {| V := SVVal (GlobalVariable "g" 8); Offset := 0 |}).

Definition iterationWith (id n : nat) (s : IterationStatus) (exitsDead : bool)
    : IntegrationAttempt :=
MkIA {| ctxId := id; contextIsDead := false; iterStatus := s;
        iterationCount := n; exitEdgesDead := exitsDead; PBs := ∅ |} ∅ ∅.

Definition twoIterations : PeelAttempt :=
{| paLoop := {| header := 1; preheader := 0; latch := 2 |};
   optimisticEdgeFirst := 2;
   Iterations := [iterationWith 10 0 IterationStatusNonFinal true;
                  iterationWith 11 1 IterationStatusFinal false] |}.

(** A context tree: the root inlines two calls, 7 and 8; the callee at 7
    inlines call 9 and peels loop 3 twice. *)
Definition plainContext (id : nat) : IntegrationAttempt :=
iterationWith id 0 IterationStatusUnknown false.

Definition calleeContext : IntegrationAttempt :=
MkIA (dataOf (plainContext 1))
     {[ 9%nat := plainContext 3 ]}
     {[ 3%nat := {| paLoop := {| header := 1; preheader := 0; latch := 2 |};
                    optimisticEdgeFirst := 4294967295;
                    Iterations := [iterationWith 4 0 IterationStatusNonFinal true;
                                   iterationWith 5 1 IterationStatusFinal false] |} ]}.

Definition rootContext : IntegrationAttempt :=
MkIA (dataOf (plainContext 0))
     {[ 7%nat := calleeContext; 8%nat := plainContext 2 ]}
     ∅.

(** Scenario B: [phi(5, x)] away from any loop header, [x] not yet
    evaluated. *)
Definition scalarPB (c : Constant) : PointerBase :=
{| Type_ := ValSetTypeScalar; Values := [ofShadow (SVVal c)]; Overdef := false |}.

Definition pendingInst : ShadowInstruction :=
{| si_ctx := 0; si_blockIdx := 2; si_instIdx := 0;
   si_I := BinaryOperator Add (IntegerTy 32) |}.

Definition mergePhi : ShadowInstruction :=
{| si_ctx := 0; si_blockIdx := 3; si_instIdx := 0;
   si_I := PHINode (IntegerTy 32) [1; 2]%nat |}.

Definition mergePhiOperand (_ : ShadowInstruction) (i : nat) : list ShadowValue :=
if bool_decide (i = 0%nat) then [SVVal (ConstantInt 32 5)] else [SVInst pendingInst].

Definition fourOperandIdxs (_ : ShadowInstruction) : list Merging.ShadowInstIdx :=
[ {| Merging.blockIdx := Merging.INVALID_BLOCK_IDX;
     Merging.instIdx := Merging.INVALID_INSTRUCTION_IDX |};
  {| Merging.blockIdx := 0; Merging.instIdx := Merging.INVALID_INSTRUCTION_IDX |};
  {| Merging.blockIdx := 2; Merging.instIdx := 0 |};
  {| Merging.blockIdx := 2; Merging.instIdx := Merging.INVALID_INSTRUCTION_IDX |} ].

Definition noOperand (_ : ShadowInstruction) (_ : nat) : ShadowValue := SVInval.
Definition noInlineAttempt (_ : ShadowInstruction) : option (list ShadowValue) := None.

(** A counting loop [i = phi(preheader: 0, latch: i.next)], peeled twice;
    the first iteration has found [i.next] to be 1. *)
Definition countingLoop : PeelAttempt :=
{| paLoop := {| header := 1; preheader := 0; latch := 2 |};
   optimisticEdgeFirst := 4294967295;
   Iterations :=
     [MkIA {| ctxId := 10; contextIsDead := false;
              iterStatus := IterationStatusNonFinal; iterationCount := 0;
              exitEdgesDead := true;
              PBs := {[ (2%nat, 0%nat) := scalarPB (ConstantInt 32 1) ]} |} ∅ ∅;
      iterationWith 11 1 IterationStatusFinal false] |}.

Definition headerPhiIn (ctx : nat) : ShadowInstruction :=
{| si_ctx := ctx; si_blockIdx := 1; si_instIdx := 0;
   si_I := PHINode (IntegerTy 32) [0; 2]%nat |}.

Definition initialValue (_ : ShadowInstruction) (_ : nat) : ShadowValue :=
SVVal (ConstantInt 32 0).

Definition bodyInst (_ _ : nat) : Instruction := BinaryOperator Add (IntegerTy 32).

(** Scenario E: a store to [p], then a branch; one side loads through an
    unrelated pointer the alias query cannot tell from [p], the other
    side stores to [p] again. *)
Definition trackedPtr : DSE.Value := DSE.OtherValue 1.
Definition strayPtr : DSE.Value := DSE.OtherValue 5.
Definition firstStore : DSE.Value := DSE.Store 0 trackedPtr 4.
Definition strayLoad : DSE.Value := DSE.Load 2 strayPtr 4.
Definition secondStore : DSE.Value := DSE.Store 3 trackedPtr 4.

Definition scenarioPaths : list DSE.PathTree :=
[DSE.PathStep 0 (DSE.Terminator 9 2)
   [DSE.PathStep 0 strayLoad []; DSE.PathStep 0 secondStore []]].

Definition scenarioOracle : DSE.Oracle :=
{| DSE.aliasHypothetical := fun a _ b _ =>
     if bool_decide (DSE.first a = DSE.first b) then DSE.MustAlias else DSE.MayAlias;
   DSE.getConstReplacement := fun _ _ => None;
   DSE.getReplacement := fun ctx v => DSE.make_vc v ctx;
   DSE.isAvailableFromCtx := fun _ _ => true;
   DSE.resolvedReadCalls := fun _ _ => None;
   DSE.getFunctionRoot := fun ctx => ctx;
   DSE.GetBaseWithConstantOffset := fun v ctx =>
     ({| DSE.first := v; DSE.second := ctx; DSE.isVaArg := false |}, 0);
   DSE.GetDefinedRange := fun _ _ _ _ _ _ => None |}.

Definition noWriters : DSE.DSEState :=
{| DSE.unusedWriters := []; DSE.unusedWritersTraversing := ∅ |}.

End Examples.

(** ** Further wording used by the properties *)

Module MoreSpecs.

(** The eight integer inequalities, the predicates [getReversePred] has a
    case for. *)
Definition integerInequalities : list Predicate :=
[ICMP_UGT; ICMP_UGE; ICMP_ULT; ICMP_ULE; ICMP_SGT; ICMP_SGE; ICMP_SLT; ICMP_SLE].

(** The range of a signed integer of width [w]. *)
Definition signedRange (w a : Z) : Prop := - 2 ^ (w - 1) <= a < 2 ^ (w - 1).

(** A constant folder that folds a comparison of two 64-bit integers to
    its truth value. *)
Definition foldsCompare64 (E : Folder.Externals) : Prop :=
∀ (P : Predicate) (x y : Z),
  Folder.ConstantFoldCompareInstOperands E P
    (Some (ConstantInt 64 x)) (Some (ConstantInt 64 y))
  = Semantics.boolConstant
      <$> Semantics.evalICmp 64 P (getSExtValue 64 x) (getSExtValue 64 y).

(** What one index of a GEP adds to the offset: nothing for a zero index,
    the byte offset of the field for a struct, index times element size
    for an array or pointer. *)
Definition gepContribution (op : Operand) (stp : GEPStep) : option Z :=
match getConstantInt (V op.2) with
| Some (w, v) =>
    if bool_decide (v = 0) then Some 0
    else
      match stp with
      | StructStep fieldOffsets => fieldOffsets !! Z.to_nat v
      | SeqStep Size => Some (getSExtValue w v * Size)
      end
| None => None
end.

Definition sumZ (l : list Z) : Z := foldr Z.add 0 l.

(** An operand the generic fallback cannot take: neither a scalar, nor
    Unknown, nor a pointer based on a null constant. *)
Definition forcesOverdef (op : Operand) : bool :=
negb (bool_decide (op.1 = ValSetTypeScalar))
&& negb (bool_decide (op.1 = ValSetTypeUnknown))
&& negb (bool_decide (op.1 = ValSetTypePB)
         && from_option isNullValue false (getVal (V op.2))).

(** The categories a comparison can evaluate to. *)
Definition comparisonCategories : list ValSetType :=
[ValSetTypeScalar; ValSetTypeOverdef; ValSetTypeUnknown].

End MoreSpecs.

(** ** Further small programs *)

Module MoreExamples.

Import Folder Semantics Examples.

Definition allocaPointer (off : Z) : Operand :=
(ValSetTypePB, {| V := SVInst (allocaAt 0); Offset := off |}).

(** Scenario C: a pointer to a struct whose third field lies at byte 8,
    indexed as [gep p, 0, 2]. *)
Definition fieldGEP : ShadowInstruction :=
{| si_ctx := 0; si_blockIdx := 0; si_instIdx := 5;
   si_I := GetElementPtrInst [SeqStep 16; StructStep [0; 4; 8]] |}.

Definition fieldGEPOperands : list Operand :=
[allocaPointer 0; scalarOperand (ConstantInt 64 0); scalarOperand (ConstantInt 32 2)].

(** A vararg cookie of the call frame of [allocaAt 0]'s context, and a
    GEP that indexes it twice. *)
Definition varargCookie : Operand :=
(ValSetTypeVarArg, {| V := SVInst (allocaAt 0); Offset := 0 |}).

Definition cookieGEP : ShadowInstruction :=
{| si_ctx := 0; si_blockIdx := 0; si_instIdx := 6;
   si_I := GetElementPtrInst [SeqStep 8; SeqStep 8] |}.

Definition cookieGEPOperands : list Operand :=
[varargCookie; scalarOperand (ConstantInt 64 0); scalarOperand (ConstantInt 64 8)].

(** An alias query that cannot tell any two pointers apart, with a range
    helper that places every write on bytes 2 and 3 of the tracked one. *)
Definition upperHalfOracle : DSE.Oracle :=
{| DSE.aliasHypothetical := fun _ _ _ _ => DSE.MayAlias;
   DSE.getConstReplacement := fun _ _ => None;
   DSE.getReplacement := fun ctx v => DSE.make_vc v ctx;
   DSE.isAvailableFromCtx := fun _ _ => true;
   DSE.resolvedReadCalls := fun _ _ => None;
   DSE.getFunctionRoot := fun ctx => ctx;
   DSE.GetBaseWithConstantOffset := fun v ctx =>
     ({| DSE.first := v; DSE.second := ctx; DSE.isVaArg := false |}, 0);
   DSE.GetDefinedRange := fun _ _ _ _ _ _ => Some (2, 4) |}.

(** An alias query that separates every pair of pointers. *)
Definition noAliasOracle : DSE.Oracle :=
{| DSE.aliasHypothetical := fun _ _ _ _ => DSE.NoAlias;
   DSE.getConstReplacement := fun _ _ => None;
   DSE.getReplacement := fun ctx v => DSE.make_vc v ctx;
   DSE.isAvailableFromCtx := fun _ _ => true;
   DSE.resolvedReadCalls := fun _ _ => None;
   DSE.getFunctionRoot := fun ctx => ctx;
   DSE.GetBaseWithConstantOffset := fun v ctx =>
     ({| DSE.first := v; DSE.second := ctx; DSE.isVaArg := false |}, 0);
   DSE.GetDefinedRange := fun _ _ _ _ _ _ => None |}.

Definition trackedVC : DSE.ValCtx := DSE.make_vc trackedPtr 0.

End MoreExamples.

(** * Properties *)

(** ** Comparisons against a resource handle *)

Module OpenCmpFacts.

Import Folder Semantics Examples.

Lemma flipPred_swapped (P : Predicate) :
  P ∈ handlePredicates -> flipPred P = swappedPredicate P.
Proof.
  unfold handlePredicates. rewrite !elem_of_cons, elem_of_nil.
  intros [->|[->|[->|[->|[->|[->|[]]]]]]]; reflexivity.
Qed.

Lemma svTrue_not_svFalse : svTrue ≠ svFalse.
Proof. discriminate. Qed.

Ltac open_cmp_cases :=
  repeat case_decide; repeat split; intros;
  repeat match goal with
         | H : _ ∧ _ |- _ => destruct H
         | H : _ ∨ _ |- _ => destruct H
         end;
  try discriminate; try lia; try congruence; auto 8.

(** C10 (amended): with the handle read on the left and [c] the signed
    value of the constant, [getOpenCmpResult] folds to false exactly for
    [== c] with [c < 0], [<s c] with [c <= 0] and [<=s c] with [c < 0]; to
    true exactly for [!= c] with [c < 0], [>s c] with [c < 0] and [>=s c]
    with [c <= 0]; in every other case (any other [c] under these
    predicates, every unsigned or floating-point predicate, a constant
    wider than 64 bits) it yields no fold. *)
Theorem getOpenCmpResult_table (CmpPred : Predicate) (w v : Z) (flip : bool) :
  let c := getSExtValue w v in
  let P := normalisedPred flip CmpPred in
  let r := getOpenCmpResult CmpPred w v flip in
  (r = svFalse <->
     w <= 64 ∧ ((P = ICMP_EQ ∧ c < 0) ∨ (P = ICMP_SLT ∧ c <= 0) ∨ (P = ICMP_SLE ∧ c < 0)))
  ∧ (r = svTrue <->
     w <= 64 ∧ ((P = ICMP_NE ∧ c < 0) ∨ (P = ICMP_SGT ∧ c < 0) ∨ (P = ICMP_SGE ∧ c <= 0)))
  ∧ (r ≠ svFalse -> r ≠ svTrue -> r = SVInval).
Proof.
  cbv zeta. unfold getOpenCmpResult, normalisedPred.
  generalize (getSExtValue w v) as c. intros c.
  destruct flip, CmpPred; cbn [flipPred swappedPredicate];
    unfold svTrue, svFalse; open_cmp_cases.
Qed.

(** C10 as first stated fails: it denies any fold against a nonnegative
    constant under the six predicates, yet [fd >=s 0] folds to true. *)
Lemma getOpenCmpResult_folds_at_zero :
  ¬ (∀ (P : Predicate) (w v : Z),
       P ∈ handlePredicates -> w <= 64 -> 0 <= getSExtValue w v ->
       getOpenCmpResult P w v false = SVInval).
Proof.
  intros H. specialize (H ICMP_SGE 32 0).
  assert (Hin : ICMP_SGE ∈ handlePredicates) by (unfold handlePredicates; set_solver).
  specialize (H Hin ltac:(lia) ltac:(vm_compute; discriminate)).
  vm_compute in H. discriminate.
Qed.

(** What the table means: under the six predicates a fold to [b] is made
    exactly when every nonnegative descriptor compares to [c] as [b]. *)
Lemma getOpenCmpResult_nonneg_exact (CmpPred : Predicate) (w v : Z)
    (flip b : bool) :
  w <= 64 ->
  normalisedPred flip CmpPred ∈ handlePredicates ->
  getOpenCmpResult CmpPred w v flip = SVVal (boolConstant b) <->
  ∀ fd : Z, 0 <= fd ->
    evalICmp 64 (normalisedPred flip CmpPred) fd (getSExtValue w v) = Some b.
Proof.
  intros Hw HP. unfold getOpenCmpResult.
  destruct (decide (64 < w)) as [|_]; [lia|].
  generalize dependent (getSExtValue w v). intros c.
  unfold handlePredicates in HP. rewrite !elem_of_cons, elem_of_nil in HP.
  split.
  - intros Hr fd Hfd.
    destruct flip, CmpPred; cbn in HP |- *;
      try (exfalso; clear -HP; intuition discriminate);
      repeat case_decide; destruct b; try discriminate Hr;
      f_equal; case_bool_decide; try reflexivity; lia.
  - intros H.
    pose proof (H 0 ltac:(lia)) as H0.
    pose proof (H (Z.max 0 c) ltac:(lia)) as H1.
    pose proof (H (Z.max 0 c + 1) ltac:(lia)) as H2.
    clear H.
    destruct flip, CmpPred; cbn in HP, H0, H1, H2 |- *;
      try (exfalso; clear -HP; intuition discriminate);
      clear HP;
      repeat case_bool_decide; repeat case_decide; destruct b;
      try discriminate; try reflexivity; exfalso; lia.
Qed.

Lemma getOpenCmpResult_unsupported (CmpPred : Predicate) (w v : Z) (flip : bool) :
  64 < w ∨ CmpPred ∉ handlePredicates ->
  getOpenCmpResult CmpPred w v flip = SVInval.
Proof.
  intros [Hw|HP]; unfold getOpenCmpResult.
  - destruct (decide (64 < w)); [reflexivity|lia].
  - destruct (decide (64 < w)); [reflexivity|].
    assert (Hflip : (if flip then flipPred CmpPred else CmpPred) ∉ handlePredicates).
    { destruct flip; [|exact HP].
      intros Hin. apply HP. clear HP. revert Hin. unfold handlePredicates.
      rewrite !elem_of_cons, !elem_of_nil.
      destruct CmpPred; cbn; intuition discriminate. }
    revert Hflip. generalize (if flip then flipPred CmpPred else CmpPred).
    intros P HP'. unfold handlePredicates in HP'.
    destruct P; try reflexivity; exfalso; apply HP'; set_solver.
Qed.

(** C9: a comparison of a resource handle (left or right) with an integer
    constant wider than 64 bits, or under a predicate outside the six
    [getOpenCmpResult] supports, is claimed by [tryFoldOpenCmp] with
    result Overdef, and [tryEvaluateResult] returns that Overdef: no fold,
    no generic constant folding. *)
Theorem handle_comparison_gives_up (E : Externals) (SI : ShadowInstruction)
    (CmpPred : Predicate) (fd cst : Operand) (w v : Z) (onRight : bool)
    (st : Operand) :
  si_I SI = CmpInst CmpPred ->
  fd.1 = ValSetTypeFD ->
  is_Some (getInst (V fd.2)) ->
  getConstantInt (V cst.2) = Some (w, v) ->
  64 < w ∨ CmpPred ∉ handlePredicates ->
  let Ops := if onRight then [cst; fd] else [fd; cst] in
  tryFoldOpenCmp CmpPred Ops st = (true, (ValSetTypeOverdef, setV st.2 SVInval))
  ∧ tryEvaluateResult E SI Ops st = Some (ValSetTypeOverdef, setV st.2 SVInval).
Proof.
  intros HSI Hfd Hinst Hcst Hbad Ops.
  assert (Hopen : tryFoldOpenCmp CmpPred Ops st
                  = (true, (ValSetTypeOverdef, setV st.2 SVInval))).
  { assert (Hcinst : getInst (V cst.2) = None).
    { unfold getConstantInt in Hcst. destruct (V cst.2); try discriminate. reflexivity. }
    unfold tryFoldOpenCmp, Ops.
    destruct onRight; cbn [lookup_total list_lookup_total fst snd];
      rewrite Hfd, Hcinst, Hcst;
      rewrite (bool_decide_eq_true_2 _ Hinst);
      rewrite ?(getOpenCmpResult_unsupported _ _ _ _ Hbad);
      repeat (case_bool_decide; try congruence; cbn);
      try reflexivity;
      try (exfalso; match goal with H : is_Some None |- _ => destruct H; discriminate end).
    all: rewrite (getOpenCmpResult_unsupported _ _ _ _ Hbad); reflexivity. }
  split; [exact Hopen|].
  unfold tryEvaluateResult. rewrite HSI. cbn. fold Ops. rewrite Hopen. reflexivity.
Qed.

Lemma handle_comparison_gives_up_witness :
  tryFoldOpenCmp ICMP_ULT [handleOperand; scalarOperand (ConstantInt 32 0)] freshResult
    = (true, (ValSetTypeOverdef, setV freshResult.2 SVInval))
  ∧ tryEvaluateResult simpleExternals (cmpAt ICMP_ULT)
      [handleOperand; scalarOperand (ConstantInt 32 0)] freshResult
    = Some (ValSetTypeOverdef, setV freshResult.2 SVInval).
Proof.
  apply (handle_comparison_gives_up simpleExternals (cmpAt ICMP_ULT) ICMP_ULT
           handleOperand (scalarOperand (ConstantInt 32 0)) 32 0 false freshResult).
  - reflexivity.
  - reflexivity.
  - eexists; reflexivity.
  - reflexivity.
  - right. unfold handlePredicates. intros H.
    repeat (apply elem_of_cons in H; destruct H as [H|H]; [discriminate|]).
    apply elem_of_nil in H. exact H.
Defined.

End OpenCmpFacts.

(** ** Inequalities against extremal constants *)

Module NonConstCmpFacts.

Import Folder Semantics Examples.

Lemma getSExtValue_mod (w v : Z) :
  0 < w -> 0 <= v < 2 ^ w -> getSExtValue w v mod 2 ^ w = v.
Proof.
  intros Hw Hv. unfold getSExtValue. case_decide.
  - replace (v - 2 ^ w) with (v + (-1) * 2 ^ w) by lia.
    rewrite Z.mod_add by lia. apply Z.mod_small. lia.
  - apply Z.mod_small. lia.
Qed.

Lemma pow2_half (w : Z) : 0 < w -> 2 ^ w = 2 * 2 ^ (w - 1).
Proof.
  intros Hw. replace w with (Z.succ (w - 1)) at 1 by lia.
  rewrite Z.pow_succ_r by lia. reflexivity.
Qed.

Lemma getSExtValue_range (w v : Z) :
  0 < w -> 0 <= v < 2 ^ w -> - 2 ^ (w - 1) <= getSExtValue w v < 2 ^ (w - 1).
Proof.
  intros Hw Hv. pose proof (pow2_half w Hw).
  unfold getSExtValue. case_decide; lia.
Qed.

(** The folds of [extremalFold] are tautologies: whatever integer of the
    width stands on the left, the comparison has the value folded to. *)
Lemma extremalFold_tautology (P : Predicate) (w v a : Z) (b : bool) :
  0 < w -> 0 <= v < 2 ^ w ->
  - 2 ^ (w - 1) <= a < 2 ^ (w - 1) ->
  extremalFold P w v = Some b ->
  evalICmp w P a (getSExtValue w v) = Some b.
Proof.
  intros Hw Hv Ha Hfold.
  pose proof (pow2_half w Hw) as Hhalf.
  pose proof (getSExtValue_mod w v Hw Hv) as Hmod.
  pose proof (Z.mod_pos_bound a (2 ^ w) ltac:(lia)) as Hamod.
  assert (Hpos : 0 < 2 ^ (w - 1)) by (apply Z.pow_pos_nonneg; lia).
  destruct P; cbn in Hfold; try discriminate; case_bool_decide; try discriminate;
    injection Hfold as <-; cbn; rewrite ?Hmod; f_equal; subst v;
    unfold getSExtValue; repeat case_decide; case_bool_decide; try reflexivity;
    exfalso; lia.
Qed.






(** Scenario F through the whole evaluator. *)
Example scenarioF_runs :
  tryEvaluateResult simpleExternals (cmpAt ICMP_ULT)
    [unresolvedOperand; scalarOperand (ConstantInt 32 0)] freshResult
  = Some (ValSetTypeScalar, ofShadow (SVVal getFalse)).
Proof. reflexivity. Qed.

(** The same comparison written with the constant first, [0 >u v]. *)
Example zero_ugt_unresolved :
  tryFoldNonConstCmp ICMP_UGT
    [(ValSetTypeScalar, ofShadow (SVVal (ConstantInt 32 0))); unresolvedOperand]
    (ValSetTypeUnknown, ofShadow SVInval)
  = (true, (ValSetTypeScalar, setV (ofShadow SVInval) (SVVal getFalse))).
Proof. reflexivity. Qed.

End NonConstCmpFacts.

(** ** Comparisons of pointers to distinct objects *)

Module PointerCmpFacts.

Import Folder Semantics Examples.

(** An identified object is never a null constant, so case 1 of
    [tryFoldPointerCmp] encodes it as one or not at all. *)
Lemma identified_not_null (op : ShadowValue) :
  isGlobalIdentifiedObject op = true ->
  nullOrObjectArg op ≠ Some (ConstantInt 64 0).
Proof.
  unfold isGlobalIdentifiedObject, nullOrObjectArg.
  destruct op as [|si|a|c]; cbn; try discriminate.
  - intros _. repeat case_match; discriminate.
  - intros _. repeat case_match; discriminate.
  - destruct c; cbn; try discriminate; intros _; repeat case_match; discriminate.
Qed.

(** C4: for two Pointer-Base operands whose owning objects are distinct
    and both identified, whatever their offsets, [tryFoldPointerCmp] folds
    [==] to the Scalar false and [!=] to the Scalar true, and leaves every
    other predicate unhandled with the out-parameters untouched. *)
Theorem distinct_objects_compare_unequal (E : Externals) (CmpPred : Predicate)
    (Op0 Op1 : Operand) (st : Operand) :
  Op0.1 = ValSetTypePB ->
  Op1.1 = ValSetTypePB ->
  isGlobalIdentifiedObject (V Op0.2) = true ->
  isGlobalIdentifiedObject (V Op1.2) = true ->
  V Op0.2 ≠ V Op1.2 ->
  tryFoldPointerCmp E CmpPred [Op0; Op1] st =
    match CmpPred with
    | ICMP_EQ => (true, (ValSetTypeScalar, setV st.2 (SVVal getFalse)))
    | ICMP_NE => (true, (ValSetTypeScalar, setV st.2 (SVVal getTrue)))
    | _ => (false, st)
    end.
Proof.
  intros HT0 HT1 Hid0 Hid1 Hne.
  pose proof (identified_not_null _ Hid0) as Hz0.
  pose proof (identified_not_null _ Hid1) as Hz1.
  unfold tryFoldPointerCmp.
  cbn [lookup_total list_lookup_total].
  rewrite HT0, HT1, Hid0, Hid1.
  rewrite (bool_decide_eq_false_2 (nullOrObjectArg (V Op0.2) = _) Hz0).
  rewrite (bool_decide_eq_false_2 (nullOrObjectArg (V Op1.2) = _) Hz1).
  rewrite (bool_decide_eq_false_2 (V Op0.2 = V Op1.2) Hne).
  rewrite (bool_decide_eq_true_2 (V Op0.2 ≠ V Op1.2) Hne).
  rewrite andb_false_r.
  repeat (case_bool_decide; try congruence); cbn;
    destruct CmpPred; reflexivity.
Qed.

(** Two allocas, one at a known offset, one at the indeterminate one. *)
Lemma distinct_objects_compare_unequal_witness :
  tryFoldPointerCmp simpleExternals ICMP_EQ
    [(ValSetTypePB, {| V := SVInst (allocaAt 0); Offset := 4 |});
     (ValSetTypePB, {| V := SVInst (allocaAt 1); Offset := LLONG_MAX |})]
    (ValSetTypeUnknown, ofShadow SVInval)
  = (true, (ValSetTypeScalar, setV (ofShadow SVInval) (SVVal getFalse))).
Proof.
  apply (distinct_objects_compare_unequal simpleExternals ICMP_EQ
           (ValSetTypePB, {| V := SVInst (allocaAt 0); Offset := 4 |})
           (ValSetTypePB, {| V := SVInst (allocaAt 1); Offset := LLONG_MAX |})
           (ValSetTypeUnknown, ofShadow SVInval)).
  - reflexivity.
  - reflexivity.
  - reflexivity.
  - reflexivity.
  - discriminate.
Defined.

End PointerCmpFacts.

(** ** Casts *)

Module CastFacts.

Import Folder Semantics Specs Examples.

Lemma fdCastTy_spec (t : Ty) : fdCastTy t = true <-> t ∈ handleCastTypes.
Proof.
  unfold fdCastTy, handleCastTypes, isIntegerTyW, isPointerTy.
  rewrite !elem_of_cons, elem_of_nil.
  destruct t; cbn; repeat case_bool_decide; subst; cbn;
    intuition (try discriminate; try congruence).
Qed.

(** C5 (amended): through any cast, of any widths, a Pointer-Base or
    VarArg-Slot operand passes unchanged; a Resource-Handle operand passes
    unchanged when source and destination type are each i32, i64 or a
    pointer, and becomes Overdef otherwise; a Scalar operand is left to
    the generic constant folding. *)
Theorem cast_of_operand (E : Externals) (SI : ShadowInstruction) (op : CastOp)
    (SrcTy DestTy : Ty) (Ops : list Operand) (st : Operand) :
  si_I SI = CastInst op SrcTy DestTy ->
  let Op0 := Ops !!! 0%nat in
  (Op0.1 = ValSetTypePB ∨ Op0.1 = ValSetTypeVarArg ->
     tryEvaluateResult E SI Ops st = Some Op0)
  ∧ (Op0.1 = ValSetTypeFD ->
       (SrcTy ∈ handleCastTypes ∧ DestTy ∈ handleCastTypes ->
          tryEvaluateResult E SI Ops st = Some Op0)
       ∧ (¬ (SrcTy ∈ handleCastTypes ∧ DestTy ∈ handleCastTypes) ->
          tryEvaluateResult E SI Ops st = Some (ValSetTypeOverdef, st.2)))
  ∧ (Op0.1 = ValSetTypeScalar ->
       tryEvaluateResult E SI Ops st
       = ordinaryConstantFold E (CastInst op SrcTy DestTy) Ops st).
Proof.
  intros HSI Op0. unfold tryEvaluateResult. rewrite HSI. cbn.
  unfold castArm. fold Op0. destruct Op0 as [t iv] eqn:HOp0. cbn [fst snd].
  split; [|split].
  - intros [-> | ->]; reflexivity.
  - intros ->. split.
    + intros [HS HD].
      apply (proj2 (fdCastTy_spec _)) in HS. apply (proj2 (fdCastTy_spec _)) in HD.
      cbn. rewrite HS, HD. reflexivity.
    + intros Hnot. cbn.
      destruct (fdCastTy SrcTy) eqn:HS; destruct (fdCastTy DestTy) eqn:HD;
        try reflexivity.
      exfalso. apply Hnot. split; apply fdCastTy_spec; assumption.
  - intros ->. reflexivity.
Qed.

Lemma cast_of_operand_witness :
  tryEvaluateResult simpleExternals ptrtoint8 [pointerOperand] freshResult
  = Some pointerOperand.
Proof.
  refine (proj1 (cast_of_operand simpleExternals ptrtoint8 PtrToInt PointerTy
                   (IntegerTy 8) [pointerOperand] freshResult _) _).
  - reflexivity.
  - left. reflexivity.
Defined.

(** C5 as first stated fails: a pointer put through [ptrtoint] to [i8], a
    cast that changes the width, is not Overdef. *)
Lemma pointer_survives_narrowing_cast :
  ¬ (∀ (E : Externals) (SI : ShadowInstruction) (op : CastOp) (SrcTy DestTy : Ty)
       (Ops : list Operand) (st : Operand),
       si_I SI = CastInst op SrcTy DestTy ->
       (Ops !!! 0%nat).1 = ValSetTypePB ->
       castChangesWidth SrcTy DestTy ->
       fst <$> tryEvaluateResult E SI Ops st = Some ValSetTypeOverdef).
Proof.
  intros H.
  specialize (H simpleExternals ptrtoint8 PtrToInt PointerTy (IntegerTy 8)
                [pointerOperand] freshResult eq_refl eq_refl).
  assert (Hw : castChangesWidth PointerTy (IntegerTy 8)) by (cbn; lia).
  specialize (H Hw). vm_compute in H. discriminate.
Qed.

(** A descriptor widened from [i32] to [i64] passes unchanged as well. *)
Example handle_survives_widening_cast :
  tryEvaluateResult simpleExternals
    {| si_ctx := 0; si_blockIdx := 0; si_instIdx := 2;
       si_I := CastInst SExt (IntegerTy 32) (IntegerTy 64) |}
    [handleOperand] freshResult
  = Some handleOperand.
Proof. reflexivity. Qed.

End CastFacts.

(** ** The only exiting iteration *)

Module IterationFacts.

Import Specs Examples.

Lemma scanNonFinal_prefix (rest : list IntegrationAttempt) (i bound : Z) :
  0 <= bound - i <= Z.of_nat (length rest) ->
  scanNonFinal i bound rest
  = Some (forallb (fun it => exitEdgesDead (dataOf it)) (take (Z.to_nat (bound - i)) rest)).
Proof.
  revert i. induction rest as [|it rest IH]; intros i Hb.
  - cbn in *. case_decide; [lia|]. replace (Z.to_nat (bound - i)) with 0%nat by lia.
    reflexivity.
  - cbn [scanNonFinal]. case_decide as Hlt.
    + replace (Z.to_nat (bound - i)) with (S (Z.to_nat (bound - (i + 1)))) by lia.
      cbn [take forallb]. destruct (exitEdgesDead (dataOf it)); cbn.
      * apply IH. cbn [length] in Hb. lia.
      * reflexivity.
    + replace (Z.to_nat (bound - i)) with 0%nat by lia. reflexivity.
Qed.

Lemma allNonFinal_earlier (PA : PeelAttempt) (earlier : list IntegrationAttempt)
    (last : IntegrationAttempt) :
  Iterations PA = earlier ++ [last] ->
  Z.of_nat (length (Iterations PA)) < 2 ^ 64 ->
  allNonFinalIterationsDoNotExit PA
  = Some (forallb (fun it => exitEdgesDead (dataOf it)) earlier).
Proof.
  intros HI Hlen. unfold allNonFinalIterationsDoNotExit.
  assert (Hl : length (Iterations PA) = S (length earlier)).
  { rewrite HI, length_app. cbn. lia. }
  rewrite Z.mod_small by lia.
  rewrite scanNonFinal_prefix by lia.
  replace (Z.to_nat (Z.of_nat (length (Iterations PA)) - 1 - 0)) with (length earlier) by lia.
  rewrite HI, take_app_length. reflexivity.
Qed.

(** C7: on the last iteration [iter] of a peel attempt,
    [isOnlyExitingIteration] returns true exactly when [iter] has the
    final status and either the attempt has no optimistic edge or every
    earlier iteration has all its exit edges dead; on any iteration
    without the final status it returns false. *)
Theorem only_exiting_iteration (PA : PeelAttempt)
    (earlier : list IntegrationAttempt) (iter : IntegrationAttempt) :
  Iterations PA = earlier ++ [iter] ->
  Z.of_nat (length (Iterations PA)) < 2 ^ 64 ->
  (∃ b : bool,
     isOnlyExitingIteration iter PA = Some b
     ∧ (b = true <->
        iterStatus (dataOf iter) = IterationStatusFinal
        ∧ (optimisticEdgeFirst PA = 4294967295 ∨ Forall doesNotExit earlier)))
  ∧ (∀ other : IntegrationAttempt,
       iterStatus (dataOf other) ≠ IterationStatusFinal ->
       isOnlyExitingIteration other PA = Some false).
Proof.
  intros HI Hlen. split.
  - unfold isOnlyExitingIteration.
    rewrite (allNonFinal_earlier PA earlier iter HI Hlen).
    assert (Hall : forallb (fun it => exitEdgesDead (dataOf it)) earlier = true
                   <-> Forall doesNotExit earlier).
    { rewrite forallb_forall, Forall_forall. unfold doesNotExit.
      split; intros H x Hx; apply H; [apply list_elem_of_In|apply list_elem_of_In in Hx];
        assumption. }
    repeat case_bool_decide; eexists; (split; [reflexivity|]).
    + split; [discriminate|]. intros [Hf _]. contradiction.
    + split; [|reflexivity]. intros _. split; [|left; assumption].
      destruct (decide (iterStatus (dataOf iter) = IterationStatusFinal)); [assumption|contradiction].
    + rewrite Hall. split.
      * intros HF. split; [|right; assumption].
        destruct (decide (iterStatus (dataOf iter) = IterationStatusFinal)); [assumption|contradiction].
      * intros [_ [Hopt|HF]]; [contradiction|assumption].
  - intros other Hnf. unfold isOnlyExitingIteration.
    rewrite bool_decide_eq_true_2 by assumption. reflexivity.
Qed.

Lemma only_exiting_iteration_witness :
  (∃ b : bool,
     isOnlyExitingIteration (iterationWith 11 1 IterationStatusFinal false) twoIterations
     = Some b
     ∧ (b = true <->
        iterStatus (dataOf (iterationWith 11 1 IterationStatusFinal false))
        = IterationStatusFinal
        ∧ (optimisticEdgeFirst twoIterations = 4294967295
           ∨ Forall doesNotExit [iterationWith 10 0 IterationStatusNonFinal true])))
  ∧ (∀ other : IntegrationAttempt,
       iterStatus (dataOf other) ≠ IterationStatusFinal ->
       isOnlyExitingIteration other twoIterations = Some false).
Proof.
  apply (only_exiting_iteration twoIterations
           [iterationWith 10 0 IterationStatusNonFinal true]
           (iterationWith 11 1 IterationStatusFinal false)).
  - reflexivity.
  - vm_compute. reflexivity.
Defined.

Example only_exiting_iteration_runs :
  isOnlyExitingIteration (iterationWith 11 1 IterationStatusFinal false) twoIterations
  = Some true.
Proof. reflexivity. Qed.

End IterationFacts.

(** ** Marking a context dead *)

Module DeadFacts.

Import Examples.

Lemma child_markContextDead (s : CtxStep) (c : IntegrationAttempt) :
  child s (markContextDead c) = markContextDead <$> child s c.
Proof.
  destruct c as [d inls peel], s as [call|loop i]; cbn.
  - apply lookup_fmap.
  - rewrite lookup_fmap. destruct (peel !! loop) as [pa|]; cbn; [|reflexivity].
    apply list_lookup_fmap.
Qed.

Lemma ctxAt_markContextDead (q : list CtxStep) (c : IntegrationAttempt) :
  ctxAt q (markContextDead c) = markContextDead <$> ctxAt q c.
Proof.
  revert c. induction q as [|s q IH]; intros c; cbn; [reflexivity|].
  rewrite child_markContextDead.
  destruct (child s c) as [c'|]; cbn; [apply IH|reflexivity].
Qed.

Lemma dataOf_markContextDead (c : IntegrationAttempt) :
  dataOf (markContextDead c) = setDead (dataOf c).
Proof. destruct c; reflexivity. Qed.

Lemma child_setChild_same (s : CtxStep) (c c' x : IntegrationAttempt) :
  child s c = Some x -> child s (setChild s c' c) = Some c'.
Proof.
  destruct c as [d inls peel], s as [call|loop i]; cbn.
  - intros _. apply lookup_insert_eq.
  - rewrite lookup_alter_eq. destruct (peel !! loop) as [pa|]; cbn; [|discriminate].
    intros Hx. apply list_lookup_insert_eq. eapply lookup_lt_Some; eassumption.
Qed.

Lemma child_setChild_other (s s' : CtxStep) (c c' : IntegrationAttempt) :
  s ≠ s' -> child s' (setChild s c' c) = child s' c.
Proof.
  intros Hne. destruct c as [d inls peel], s as [call|loop i], s' as [call'|loop' i']; cbn;
    try reflexivity.
  - apply lookup_insert_ne. congruence.
  - destruct (decide (loop = loop')) as [->|Hl].
    + rewrite lookup_alter_eq. destruct (peel !! loop') as [pa|]; cbn; [|reflexivity].
      apply list_lookup_insert_ne. congruence.
    + rewrite lookup_alter_ne by assumption. reflexivity.
Qed.

Lemma dataOf_setChild (s : CtxStep) (c c' : IntegrationAttempt) :
  dataOf (setChild s c' c) = dataOf c.
Proof. destruct c, s; reflexivity. Qed.

Lemma ctxAt_app (p q : list CtxStep) (root : IntegrationAttempt) :
  ctxAt (p ++ q) root = ctxAt p root ≫= ctxAt q.
Proof.
  revert root. induction p as [|s p IH]; intros root; cbn; [reflexivity|].
  destruct (child s root) as [c1|]; cbn; [apply IH|reflexivity].
Qed.

Lemma ctxAt_updateAt_below (f : IntegrationAttempt -> IntegrationAttempt)
    (p q : list CtxStep) (root c : IntegrationAttempt) :
  ctxAt p root = Some c ->
  ctxAt (p ++ q) (updateAt f p root) = ctxAt q (f c).
Proof.
  revert root. induction p as [|s p IH]; intros root Hc; cbn in *.
  - congruence.
  - destruct (child s root) as [c1|] eqn:Hs; cbn in *; [|discriminate].
    rewrite (child_setChild_same s root _ c1 Hs). cbn. apply IH. assumption.
Qed.

Lemma ctxAt_updateAt_outside (f : IntegrationAttempt -> IntegrationAttempt)
    (p r : list CtxStep) (root : IntegrationAttempt) :
  ¬ p `prefix_of` r ->
  dataOf <$> ctxAt r (updateAt f p root) = dataOf <$> ctxAt r root.
Proof.
  revert r root. induction p as [|s p IH]; intros r root Hnp.
  - exfalso. apply Hnp. apply prefix_nil.
  - cbn [updateAt]. destruct (child s root) as [c1|] eqn:Hs; [|reflexivity].
    destruct r as [|s' r]; cbn [ctxAt].
    + cbn. rewrite dataOf_setChild. reflexivity.
    + destruct (decide (s = s')) as [<-|Hne].
      * rewrite (child_setChild_same s root _ c1 Hs), Hs. cbn.
        apply IH. intros Hpre. apply Hnp. apply prefix_cons. assumption.
      * rewrite child_setChild_other by assumption. reflexivity.
Qed.

(** C8: after [markContextDead] on the context at [p], every context of
    the subtree below [p] (the context itself, its inline children, the
    iterations of its peel children, and so on down) is still there, has
    its dead flag set and is otherwise as before; no context outside the
    subtree has changed. *)
Theorem markContextDead_subtree (root : IntegrationAttempt) (p : list CtxStep)
    (c : IntegrationAttempt) :
  ctxAt p root = Some c ->
  let root' := updateAt markContextDead p root in
  (∀ (q : list CtxStep) (c' : IntegrationAttempt),
     ctxAt (p ++ q) root = Some c' ->
     ∃ c'' : IntegrationAttempt,
       ctxAt (p ++ q) root' = Some c''
       ∧ isDead c'' = true
       ∧ dataOf c'' = setDead (dataOf c'))
  ∧ (∀ r : list CtxStep,
       ¬ p `prefix_of` r ->
       dataOf <$> ctxAt r root' = dataOf <$> ctxAt r root).
Proof.
  intros Hc root'. split.
  - intros q c' Hq. unfold root'.
    rewrite (ctxAt_updateAt_below markContextDead p q root c Hc).
    rewrite ctxAt_markContextDead.
    assert (Hq' : ctxAt q c = Some c').
    { rewrite ctxAt_app, Hc in Hq. exact Hq. }
    rewrite Hq'. cbn. eexists. split; [reflexivity|].
    rewrite dataOf_markContextDead. split; [|reflexivity].
    unfold isDead. rewrite dataOf_markContextDead. reflexivity.
  - intros r Hr. apply ctxAt_updateAt_outside. assumption.
Qed.

Lemma markContextDead_subtree_witness :
  (∀ (q : list CtxStep) (c' : IntegrationAttempt),
     ctxAt ([InlineStep 7] ++ q) rootContext = Some c' ->
     ∃ c'' : IntegrationAttempt,
       ctxAt ([InlineStep 7] ++ q)
         (updateAt markContextDead [InlineStep 7] rootContext) = Some c''
       ∧ isDead c'' = true
       ∧ dataOf c'' = setDead (dataOf c'))
  ∧ (∀ r : list CtxStep,
       ¬ [InlineStep 7] `prefix_of` r ->
       dataOf <$> ctxAt r (updateAt markContextDead [InlineStep 7] rootContext)
       = dataOf <$> ctxAt r rootContext).
Proof.
  apply (markContextDead_subtree rootContext [InlineStep 7] calleeContext).
  reflexivity.
Defined.

(** The second iteration of the loop peeled in the callee is dead after the
    callee is marked; the sibling call and the root are not. *)
Example markContextDead_runs :
  let after := updateAt markContextDead [InlineStep 7] rootContext in
  isDead <$> ctxAt [InlineStep 7; PeelStep 3 1] after = Some true
  ∧ isDead <$> ctxAt [InlineStep 7; InlineStep 9] after = Some true
  ∧ isDead <$> ctxAt [InlineStep 8] after = Some false
  ∧ isDead <$> ctxAt [] after = Some false.
Proof. vm_compute. repeat split. Qed.

End DeadFacts.

(** ** Merges *)

Module MergeFacts.

Import Merging Specs Examples.

(** The join modelled from the design meets what the design asks of it
    at the ends of the lattice: "merging any value with Overdef yields
    Overdef; merging Unknown with X yields X", on either side. *)
Lemma merge_ends (pb : PointerBase) :
  merge pb emptyPB = pb
  ∧ (isInitialised pb = true -> merge emptyPB pb = if Overdef pb then getOverdef else pb)
  ∧ Overdef (merge pb getOverdef) = true
  ∧ Overdef (merge getOverdef pb) = true.
Proof.
  unfold merge. cbn. repeat split.
  - destruct (Overdef pb); reflexivity.
  - intros Hinit. destruct (Overdef pb) eqn:HO; [reflexivity|].
    rewrite Hinit. reflexivity.
  - destruct (Overdef pb) eqn:HO; [assumption|reflexivity].
Qed.

Section Facts.

Context (getPointerBase : ShadowValue -> option PointerBase).
Context (merge : PointerBase -> PointerBase -> PointerBase).

Lemma mergeKnown_overdef (VPBs : list PointerBase) (anyInfo : bool) (NewPB : PointerBase) :
  Overdef NewPB = true -> mergeKnown merge VPBs anyInfo NewPB = (anyInfo, NewPB).
Proof. intros H. destruct VPBs; cbn; [reflexivity|]. rewrite H. reflexivity. Qed.

Lemma mergeValues_optimistic (Vals : list ShadowValue) (anyInfo : bool)
    (NewPB : PointerBase) :
  mergeValues getPointerBase merge false Vals anyInfo NewPB
  = mergeKnown merge (omap getPointerBase Vals) anyInfo NewPB.
Proof.
  revert anyInfo NewPB. induction Vals as [|v Vals IH]; intros anyInfo NewPB; cbn;
    [reflexivity|].
  destruct (Overdef NewPB) eqn:HO.
  - rewrite mergeKnown_overdef by assumption. reflexivity.
  - destruct (getPointerBase v) as [VPB|]; cbn.
    + rewrite HO. apply IH.
    + apply IH.
Qed.

Lemma mergeValues_finalise (Vals : list ShadowValue) (anyInfo : bool)
    (NewPB : PointerBase) :
  (∃ v, v ∈ Vals ∧ getPointerBase v = None) ->
  Overdef (mergeValues getPointerBase merge true Vals anyInfo NewPB).2 = true.
Proof.
  revert anyInfo NewPB. induction Vals as [|v Vals IH]; intros anyInfo NewPB [u [Hu Hnone]].
  - apply elem_of_nil in Hu. contradiction.
  - cbn. destruct (Overdef NewPB) eqn:HO; [exact HO|].
    destruct (getPointerBase v) as [VPB|] eqn:Hv; [|reflexivity].
    apply IH. exists u. split; [|assumption].
    apply elem_of_cons in Hu. destruct Hu as [->|Hu]; [congruence|assumption].
Qed.

End Facts.

(** C1: for a merge instruction with operand values [Vals]: with
    [finalise] false the result is the merge of the operands whose value
    is known, the Unknown ones being skipped; with [finalise] true an
    Unknown operand among [Vals] leaves the result Overdef. *)
Theorem merge_skips_or_gives_up
    (getPointerBase : ShadowValue -> option PointerBase)
    (merge : PointerBase -> PointerBase -> PointerBase)
    (getOperand : ShadowInstruction -> nat -> ShadowValue)
    (getLiveReturnVals : ShadowInstruction -> option (list ShadowValue))
    (getExitPHIOperands : ShadowInstruction -> nat -> list ShadowValue)
    (operandIdxs : ShadowInstruction -> list ShadowInstIdx)
    (SI : ShadowInstruction) (Vals : list ShadowValue) (NewPB : PointerBase) :
  mergeOperands getOperand getLiveReturnVals getExitPHIOperands operandIdxs SI
  = Some (Some Vals) ->
  let run := tryEvaluateMerge getPointerBase merge getOperand getLiveReturnVals
               getExitPHIOperands operandIdxs SI in
  run false NewPB = Some (mergeKnown merge (omap getPointerBase Vals) false NewPB)
  ∧ ((∃ v, v ∈ Vals ∧ getPointerBase v = None) ->
     ∃ r, run true NewPB = Some r ∧ Overdef r.2 = true).
Proof.
  intros HV run. unfold run, tryEvaluateMerge. rewrite HV. split.
  - f_equal. apply mergeValues_optimistic.
  - intros Hex. eexists. split; [reflexivity|].
    apply mergeValues_finalise. assumption.
Qed.

Lemma merge_skips_or_gives_up_witness :
  let run := tryEvaluateMerge (cachedPointerBase []) merge noOperand noInlineAttempt
               mergePhiOperand fourOperandIdxs mergePhi in
  let Vals := [SVVal (ConstantInt 32 5); SVInst pendingInst] in
  run false emptyPB
  = Some (mergeKnown merge (omap (cachedPointerBase []) Vals) false emptyPB)
  ∧ ((∃ v, v ∈ Vals ∧ cachedPointerBase [] v = None) ->
     ∃ r, run true emptyPB = Some r ∧ Overdef r.2 = true).
Proof.
  apply (merge_skips_or_gives_up (cachedPointerBase []) merge noOperand
           noInlineAttempt mergePhiOperand fourOperandIdxs mergePhi
           [SVVal (ConstantInt 32 5); SVInst pendingInst] emptyPB).
  reflexivity.
Defined.

(** Scenario B on the code: in the optimistic phase the phi takes the
    value of its one known operand, 5; in the finalising phase it is
    Overdef. *)
Example phi_known_and_unknown :
  let run := tryEvaluateMerge (cachedPointerBase []) merge noOperand noInlineAttempt
               mergePhiOperand fourOperandIdxs mergePhi in
  run false emptyPB = Some (true, scalarPB (ConstantInt 32 5))
  ∧ run true emptyPB = Some (true, getOverdef).
Proof. vm_compute. split; reflexivity. Qed.

End MergeFacts.

(** ** Loop-header phis *)

Module HeaderPhiFacts.

Import Merging Examples.

Lemma getBasicBlockIndex_first (incoming : list nat) (BB p : nat) :
  incoming !! p = Some BB ->
  ∃ j : nat,
    getBasicBlockIndex incoming BB = Some j
    ∧ incoming !! j = Some BB
    ∧ (∀ i : nat, (i < j)%nat -> incoming !! i ≠ Some BB).
Proof.
  intros Hp. unfold getBasicBlockIndex.
  destruct (list_find (λ b : nat, b = BB) incoming) as [[j y]|] eqn:Hfind.
  - apply list_find_Some in Hfind. destruct Hfind as (Hj & -> & Hfirst).
    exists j. split; [reflexivity|]. split; [assumption|].
    intros i Hi Hinc. exact (Hfirst i BB Hinc Hi eq_refl).
  - exfalso. apply list_find_None in Hfind.
    rewrite Forall_forall in Hfind.
    apply (Hfind BB); [|reflexivity].
    apply list_elem_of_lookup. exists p. assumption.
Qed.

(** C2: a phi at the header of the loop of a peel attempt, evaluated in
    the iteration [iter] of that attempt, gets a value, and it is the
    value of one operand.  In iteration 0 that is the operand on the
    first edge from the preheader.  In iteration [k + 1] it is the operand
    on the first edge from the latch, as iteration [k] has it: the
    instance in iteration [k] of the instruction that defines it or, when
    no instruction defines it, the operand itself.  The phi has an edge
    from the preheader and one from the latch, and an operand index for
    each of its operands. *)
Theorem header_phi_follows_one_edge
    (getPointerBase : ShadowValue -> option PointerBase)
    (getOperand : ShadowInstruction -> nat -> ShadowValue)
    (operandIdxs : ShadowInstruction -> list ShadowInstIdx)
    (invarInst : nat -> nat -> Instruction)
    (PA : PeelAttempt) (iter : IntegrationAttempt) (SI : ShadowInstruction)
    (ty : Ty) (incoming : list nat) (p l : nat) :
  si_I SI = PHINode ty incoming ->
  si_blockIdx SI = header (paLoop PA) ->
  incoming !! p = Some (preheader (paLoop PA)) ->
  incoming !! l = Some (latch (paLoop PA)) ->
  (2 * length incoming <= length (operandIdxs SI))%nat ->
  Iterations PA !! iterationCount (dataOf iter) = Some iter ->
  let run := tryEvaluateHeaderPHI getPointerBase getOperand operandIdxs invarInst
               PA iter SI in
  match iterationCount (dataOf iter) with
  | O =>
      ∃ j : nat,
        incoming !! j = Some (preheader (paLoop PA))
        ∧ (∀ i : nat, (i < j)%nat -> incoming !! i ≠ Some (preheader (paLoop PA)))
        ∧ run = Some (HeaderPHI (getPointerBase (getOperand SI (j * 2)%nat)))
  | S k =>
      ∃ (j : nat) (SII : ShadowInstIdx) (prevIter : IntegrationAttempt),
        incoming !! j = Some (latch (paLoop PA))
        ∧ (∀ i : nat, (i < j)%nat -> incoming !! i ≠ Some (latch (paLoop PA)))
        ∧ operandIdxs SI !! (j * 2)%nat = Some SII
        ∧ Iterations PA !! k = Some prevIter
        ∧ run = Some (HeaderPHI (getPointerBase
                  (if bool_decide (blockIdx SII ≠ INVALID_BLOCK_IDX)
                   then SVInst {| si_ctx := ctxId (dataOf prevIter);
                                  si_blockIdx := Z.to_nat (blockIdx SII);
                                  si_instIdx := Z.to_nat (instIdx SII);
                                  si_I := invarInst (Z.to_nat (blockIdx SII))
                                            (Z.to_nat (instIdx SII)) |}
                   else getOperand SI (j * 2)%nat)))
  end.
Proof.
  intros HSI Hhdr Hp Hl Hidx Hiter run.
  unfold run, tryEvaluateHeaderPHI, getLoopHeaderForwardedOperand.
  rewrite HSI. rewrite (bool_decide_eq_true_2 _ Hhdr).
  destruct (iterationCount (dataOf iter)) as [|k] eqn:Hk.
  - destruct (getBasicBlockIndex_first incoming _ p Hp) as (j & Hj & Hin & Hfirst).
    exists j. split; [assumption|]. split; [assumption|].
    rewrite (bool_decide_eq_true_2 (0%nat = 0%nat)) by reflexivity.
    rewrite Hj. reflexivity.
  - destruct (getBasicBlockIndex_first incoming _ l Hl) as (j & Hj & Hin & Hfirst).
    assert (Hlt : (j * 2 < length (operandIdxs SI))%nat).
    { apply lookup_lt_Some in Hin. lia. }
    destruct (lookup_lt_is_Some_2 _ _ Hlt) as [SII HSII].
    assert (Hklt : (k < length (Iterations PA))%nat).
    { apply lookup_lt_Some in Hiter. lia. }
    destruct (lookup_lt_is_Some_2 _ _ Hklt) as [prevIter Hprev].
    exists j, SII, prevIter.
    split; [assumption|]. split; [assumption|]. split; [assumption|].
    split; [assumption|].
    rewrite (bool_decide_eq_false_2 (S k = 0%nat)) by lia.
    rewrite Hj. cbn. rewrite HSII. cbn.
    case_bool_decide; [|reflexivity].
    unfold getIteration. replace (k - 0)%nat with k by lia.
    rewrite Hprev. reflexivity.
Qed.

(** The counting loop, second iteration: the phi takes what the first
    iteration has for the instruction at block 2, index 0. *)
Lemma header_phi_follows_one_edge_witness :
  let iter := iterationWith 11 1 IterationStatusFinal false in
  let SI := headerPhiIn 11 in
  let run := tryEvaluateHeaderPHI (cachedPointerBase (Iterations countingLoop))
               initialValue fourOperandIdxs bodyInst countingLoop iter SI in
  ∃ (j : nat) (SII : ShadowInstIdx) (prevIter : IntegrationAttempt),
    [0; 2]%nat !! j = Some (latch (paLoop countingLoop))
    ∧ (∀ i : nat, (i < j)%nat ->
         [0; 2]%nat !! i ≠ Some (latch (paLoop countingLoop)))
    ∧ fourOperandIdxs SI !! (j * 2)%nat = Some SII
    ∧ Iterations countingLoop !! 0%nat = Some prevIter
    ∧ run = Some (HeaderPHI (cachedPointerBase (Iterations countingLoop)
              (if bool_decide (blockIdx SII ≠ INVALID_BLOCK_IDX)
               then SVInst {| si_ctx := ctxId (dataOf prevIter);
                              si_blockIdx := Z.to_nat (blockIdx SII);
                              si_instIdx := Z.to_nat (instIdx SII);
                              si_I := bodyInst (Z.to_nat (blockIdx SII))
                                        (Z.to_nat (instIdx SII)) |}
               else initialValue SI (j * 2)%nat))).
Proof.
  refine (header_phi_follows_one_edge (cachedPointerBase (Iterations countingLoop))
            initialValue fourOperandIdxs bodyInst countingLoop
            (iterationWith 11 1 IterationStatusFinal false) (headerPhiIn 11)
            (IntegerTy 32) [0; 2]%nat 0 1 _ _ _ _ _ _).
  - reflexivity.
  - reflexivity.
  - reflexivity.
  - reflexivity.
  - simpl. lia.
  - reflexivity.
Defined.

(** The counting loop on the code: in iteration 0 the phi is the 0 from the
    preheader, in iteration 1 it is the 1 iteration 0 has cached for the
    instruction on the latch edge. *)
Example counting_loop_runs :
  match Iterations countingLoop with
  | [iter0; iter1] =>
      tryEvaluateHeaderPHI (cachedPointerBase (Iterations countingLoop))
        initialValue fourOperandIdxs bodyInst countingLoop iter0 (headerPhiIn 10)
      = Some (HeaderPHI (Some (scalarPB (ConstantInt 32 0))))
      ∧ tryEvaluateHeaderPHI (cachedPointerBase (Iterations countingLoop))
          initialValue fourOperandIdxs bodyInst countingLoop iter1 (headerPhiIn 11)
        = Some (HeaderPHI (Some (scalarPB (ConstantInt 32 1))))
  | _ => False
  end.
Proof. vm_compute. split; reflexivity. Qed.

End HeaderPhiFacts.

(** ** The dead-store walk *)

Module WalkerFacts.

Import DSE Specs Examples.

Section Facts.

Context (O : Oracle).
Context (unspecifiedResult :
  WalkInstructionResult -> Value -> nat -> WalkInstructionResult).
Context (unused : list Value).

Lemma walkInstruction_writeUsed (Inst : Value) (IA : nat)
    (Ctx : option (list bool)) (w : WriterUsedWalker) :
  writeUsed (walkInstruction O unspecifiedResult unused Inst IA Ctx w).2 = writeUsed w.
Proof.
  unfold walkInstruction.
  destruct (noteBytesWrittenBy O IA unused Inst (StorePtr w) (StoreBase w)
              (StoreOffset w) (StoreSize w) Ctx) as [Res bytes].
  reflexivity.
Qed.

Lemma walkFrom_writeUsed (t : PathTree) (Ctx : option (list bool))
    (w : WriterUsedWalker) :
  writeUsed (walkFrom (walkInstruction O unspecifiedResult unused) t Ctx w).1
  = writeUsed w.
Proof.
  revert t Ctx w. fix IH 1. intros [ctx Inst succs] Ctx w. cbn [walkFrom].
  pose proof (walkInstruction_writeUsed Inst ctx Ctx w) as Hstep.
  destruct (walkInstruction O unspecifiedResult unused Inst ctx Ctx w)
    as [[Res Ctx'] w'].
  cbn in Hstep. destruct Res; cbn; try exact Hstep.
  rewrite <- Hstep. clear Hstep. generalize w'. clear w'.
  induction succs as [|t' ts IHts]; intros w'; cbn; [reflexivity|].
  pose proof (IH t' Ctx' w') as Ht'.
  destruct (walkFrom (walkInstruction O unspecifiedResult unused) t' Ctx' w')
    as [w1 stopped].
  cbn in Ht'. destruct stopped; cbn; [exact Ht'|].
  rewrite IHts. exact Ht'.
Qed.

Lemma walk_writeUsed (paths : list PathTree) (Ctx : option (list bool))
    (w : WriterUsedWalker) :
  writeUsed (walk (walkInstruction O unspecifiedResult unused) paths Ctx w)
  = writeUsed w.
Proof.
  unfold walk. revert w. induction paths as [|t ts IH]; intros w; cbn; [reflexivity|].
  pose proof (walkFrom_writeUsed t Ctx w) as Ht.
  destruct (walkFrom (walkInstruction O unspecifiedResult unused) t Ctx w)
    as [w1 stopped].
  cbn in Ht. destruct stopped; cbn; [exact Ht|].
  rewrite IH. exact Ht.
Qed.

End Facts.

(** Whatever lies ahead of a writer, [tryKillWriterTo] returns true: no
    step of the walk sets [writeUsed]. *)
Lemma tryKillWriterTo_always_kills (O : Oracle)
    (unspecifiedResult : WalkInstructionResult -> Value -> nat -> WalkInstructionResult)
    (this : nat) (paths : list PathTree) (st : DSEState)
    (Writer WritePtr : Value) (Size : Z) :
  (tryKillWriterTo O unspecifiedResult this paths st Writer WritePtr Size).1 = true.
Proof.
  unfold tryKillWriterTo.
  destruct (GetBaseWithConstantOffset O WritePtr (Some this)) as [SB SO].
  rewrite walk_writeUsed. reflexivity.
Qed.

(** A load that the fixed point left unresolved and whose pointer may
    alias the tracked one makes [noteBytesWrittenBy] ask for the stop of
    the whole walk, whatever the bitmap. *)
Lemma unresolved_load_stops_whole_walk (O : Oracle) (this : nat)
    (unused : list Value) (id : nat) (Pointer : Value) (LoadSize : Z)
    (StorePtr StoreBase : ValCtx) (StoreOffset Size : Z)
    (writtenBytes : option (list bool)) :
  let LI := Load id Pointer LoadSize in
  getReplacement O this LI = make_vc LI this ->
  aliasHypothetical O (make_vc Pointer this) LoadSize StorePtr Size ≠ NoAlias ->
  isLifetimeEnd O this StoreBase LI = false ->
  noteBytesWrittenBy O this unused LI StorePtr StoreBase StoreOffset Size writtenBytes
  = (WIRStopWholeWalk, writtenBytes).
Proof.
  intros LI Hrep Halias Hlife. unfold noteBytesWrittenBy. rewrite Hlife.
  unfold LI in *. rewrite Hrep.
  rewrite bool_decide_eq_true_2 by reflexivity. cbn.
  rewrite bool_decide_eq_false_2 by assumption. reflexivity.
Qed.

(** With the walk the design describes, scenario E ends in "write is
    used", whichever side of the branch is walked first, although the
    other side overwrites the store in full; two stores in a row
    (scenario D) leave the first one unused; and a store that reaches the
    exit, at once or through a return, is used. *)
Example scenarioE_as_designed :
  writeUsedAsDesigned scenarioOracle 0 scenarioPaths [] trackedPtr 4 = true
  ∧ writeUsedAsDesigned scenarioOracle 0
      [PathStep 0 (Terminator 9 2)
         [PathStep 0 secondStore []; PathStep 0 strayLoad []]]
      [] trackedPtr 4 = true
  ∧ writeUsedAsDesigned scenarioOracle 0 [PathStep 0 secondStore []]
      [] trackedPtr 4 = false
  ∧ writeUsedAsDesigned scenarioOracle 0 [] [] trackedPtr 4 = true
  ∧ writeUsedAsDesigned scenarioOracle 0 [PathStep 0 (Terminator 9 0) []]
      [] trackedPtr 4 = true.
Proof. vm_compute. repeat split. Qed.

(** C3, on the code: in scenario E the stray load does make
    [noteBytesWrittenBy] answer with the stop of the whole walk, yet
    [tryKillWriterTo] returns true for the first store, that is, judges it
    unused: [walkInstruction] drops the answer and nothing ever sets
    [writeUsed].  The design asks for the verdict "write is used". *)
Theorem scenarioE_store_judged_unused :
  noteBytesWrittenBy scenarioOracle 0 [] strayLoad
    (make_vc trackedPtr 0) (make_vc trackedPtr 0) 0 4 (Some (replicate 4 false))
  = (WIRStopWholeWalk, Some (replicate 4 false))
  ∧ ∀ unspecifiedResult : WalkInstructionResult -> Value -> nat -> WalkInstructionResult,
      (tryKillWriterTo scenarioOracle unspecifiedResult 0 scenarioPaths noWriters
         firstStore trackedPtr 4).1 = true.
Proof.
  split.
  - vm_compute. reflexivity.
  - intros unspecifiedResult. apply tryKillWriterTo_always_kills.
Qed.

End WalkerFacts.

(** * Further properties of the evaluators *)

(** ** Reversed and signed predicates *)

Module PredicateFacts.

Import Folder Semantics MoreSpecs.

(** X1: on the eight integer inequalities [getReversePred] never runs
    into its assertion, is its own inverse, and yields the predicate that
    holds of [(a, b)] exactly when the given one holds of [(b, a)]. *)
Theorem getReversePred_swaps_operands (P : Predicate) (w a b : Z) :
  P ∈ integerInequalities ->
  getReversePred P ∈ integerInequalities
  ∧ getReversePred (getReversePred P) = P
  ∧ evalICmp w (getReversePred P) a b = evalICmp w P b a.
Proof.
  unfold integerInequalities. rewrite !elem_of_cons, elem_of_nil.
  intros [->|[->|[->|[->|[->|[->|[->|[->|[]]]]]]]]]; cbn;
    (split; [set_solver|split; [reflexivity|]]);
    f_equal; apply bool_decide_ext; lia.
Qed.

Lemma getReversePred_swaps_operands_witness :
  getReversePred ICMP_ULT ∈ integerInequalities
  ∧ getReversePred (getReversePred ICMP_ULT) = ICMP_ULT
  ∧ evalICmp 32 (getReversePred ICMP_ULT) 3 5 = evalICmp 32 ICMP_ULT 5 3.
Proof.
  apply (getReversePred_swaps_operands ICMP_ULT 32 3 5).
  unfold integerInequalities. apply list_elem_of_further, list_elem_of_further,
    list_elem_of_here.
Defined.

(** X2: [getSignedPred] changes nothing when applied twice, and on two
    nonnegative offsets the signed predicate it yields decides as the
    given predicate does; that is the assumption under which
    [tryFoldPointerCmp] compares offsets signed. *)
Theorem getSignedPred_agrees_on_nonnegative (P : Predicate) (w a b : Z) :
  0 <= a < 2 ^ w ->
  0 <= b < 2 ^ w ->
  getSignedPred (getSignedPred P) = getSignedPred P
  ∧ evalICmp w (getSignedPred P) a b = evalICmp w P a b.
Proof.
  intros Ha Hb. split; [destruct P; reflexivity|].
  destruct P; cbn; try reflexivity;
    rewrite !Z.mod_small by lia; reflexivity.
Qed.

Lemma getSignedPred_agrees_on_nonnegative_witness :
  getSignedPred (getSignedPred ICMP_UGE) = getSignedPred ICMP_UGE
  ∧ evalICmp 64 (getSignedPred ICMP_UGE) 8 16 = evalICmp 64 ICMP_UGE 8 16.
Proof.
  apply (getSignedPred_agrees_on_nonnegative ICMP_UGE 64 8 16); lia.
Defined.

End PredicateFacts.

(** ** Comparisons written either way round *)

Module CmpOrderFacts.

Import Folder Semantics MoreSpecs Examples.

Lemma flipPred_of_swapped (P : Predicate) (w v : Z) :
  getOpenCmpResult (swappedPredicate P) w v true = getOpenCmpResult P w v false.
Proof. unfold getOpenCmpResult. destruct P; reflexivity. Qed.

(** X3: [tryFoldOpenCmp] does not care on which side the descriptor is
    written: [c P' fd], with [P'] the predicate [P] swapped, gets the
    result of [fd P c], whatever the predicate and the other operand. *)
Theorem tryFoldOpenCmp_either_side (P : Predicate) (fd other : Operand)
    (st : Operand) :
  fd.1 = ValSetTypeFD ->
  is_Some (getInst (V fd.2)) ->
  other.1 ≠ ValSetTypeFD ->
  tryFoldOpenCmp (swappedPredicate P) [other; fd] st
  = tryFoldOpenCmp P [fd; other] st.
Proof.
  intros Hfd Hinst Hother. unfold tryFoldOpenCmp.
  cbn [lookup_total list_lookup_total fst snd].
  rewrite Hfd. rewrite (bool_decide_eq_true_2 _ Hinst).
  rewrite (bool_decide_eq_false_2 (other.1 = ValSetTypeFD)) by assumption.
  rewrite (bool_decide_eq_true_2 (other.1 ≠ ValSetTypeFD)) by assumption.
  rewrite (bool_decide_eq_false_2 (ValSetTypeFD ≠ ValSetTypeFD)) by congruence.
  rewrite (bool_decide_eq_true_2 (ValSetTypeFD = ValSetTypeFD)) by reflexivity.
  rewrite !andb_false_r. cbn.
  destruct (getConstantInt (V other.2)) as [[w v]|]; [|reflexivity].
  rewrite flipPred_of_swapped. reflexivity.
Qed.

Lemma tryFoldOpenCmp_either_side_witness :
  tryFoldOpenCmp (swappedPredicate ICMP_SLT)
    [scalarOperand (ConstantInt 32 0); handleOperand] freshResult
  = tryFoldOpenCmp ICMP_SLT
      [handleOperand; scalarOperand (ConstantInt 32 0)] freshResult.
Proof.
  apply (tryFoldOpenCmp_either_side ICMP_SLT handleOperand
           (scalarOperand (ConstantInt 32 0)) freshResult).
  - reflexivity.
  - eexists; reflexivity.
  - discriminate.
Defined.

(** X4: nor does [tryFoldNonConstCmp]: with the constant first and the
    predicate swapped it returns what it returns with the constant
    second, for every predicate. *)
Theorem tryFoldNonConstCmp_either_side (P : Predicate) (x cst : Operand)
    (c : Constant) (st : Operand) :
  getVal (V x.2) = None ->
  getVal (V cst.2) = Some c ->
  tryFoldNonConstCmp (swappedPredicate P) [cst; x] st
  = tryFoldNonConstCmp P [x; cst] st.
Proof.
  intros Hx Hc. unfold tryFoldNonConstCmp.
  cbn [lookup_total list_lookup_total fst snd]. rewrite Hx, Hc.
  destruct P; cbn; reflexivity.
Qed.

Lemma tryFoldNonConstCmp_either_side_witness :
  tryFoldNonConstCmp (swappedPredicate ICMP_UGE)
    [scalarOperand (ConstantInt 32 0); unresolvedOperand] freshResult
  = tryFoldNonConstCmp ICMP_UGE
      [unresolvedOperand; scalarOperand (ConstantInt 32 0)] freshResult.
Proof.
  apply (tryFoldNonConstCmp_either_side ICMP_UGE unresolvedOperand
           (scalarOperand (ConstantInt 32 0)) (ConstantInt 32 0) freshResult).
  - reflexivity.
  - reflexivity.
Defined.

(** X5: every fold [tryFoldNonConstCmp] makes against an integer constant
    is sound: the value folded to is a Scalar truth value, and it is the
    value of the comparison for every integer of the width on the left. *)
Theorem tryFoldNonConstCmp_sound (P : Predicate) (x cst : Operand)
    (w v : Z) (st r : Operand) :
  getVal (V x.2) = None ->
  V cst.2 = SVVal (ConstantInt w v) ->
  0 < w -> 0 <= v < 2 ^ w ->
  tryFoldNonConstCmp P [x; cst] st = (true, r) ->
  ∃ b : bool,
    r = (ValSetTypeScalar, setV st.2 (SVVal (boolConstant b)))
    ∧ ∀ a : Z, signedRange w a -> evalICmp w P a (getSExtValue w v) = Some b.
Proof.
  intros Hx Hcst Hw Hv Hrun.
  assert (Hfold : ∃ b, extremalFold P w v = Some b
                       ∧ r = (ValSetTypeScalar, setV st.2 (SVVal (boolConstant b)))).
  { revert Hrun. unfold tryFoldNonConstCmp.
    cbn [lookup_total list_lookup_total fst snd]. rewrite Hx, Hcst.
    destruct P; cbn; try discriminate;
      unfold isAllOnesValue, isMaxSigned, isMinSigned;
      repeat case_bool_decide; try discriminate;
      intros [= <-]; eexists; (split; [reflexivity|reflexivity]). }
  destruct Hfold as [b [Hb ->]]. exists b. split; [reflexivity|].
  intros a Ha. apply NonConstCmpFacts.extremalFold_tautology; assumption.
Qed.

Lemma tryFoldNonConstCmp_sound_witness :
  ∃ b : bool,
    (ValSetTypeScalar, setV freshResult.2 (SVVal getTrue))
    = (ValSetTypeScalar, setV freshResult.2 (SVVal (boolConstant b)))
    ∧ ∀ a : Z, signedRange 8 a -> evalICmp 8 ICMP_SLE a (getSExtValue 8 127) = Some b.
Proof.
  apply (tryFoldNonConstCmp_sound ICMP_SLE unresolvedOperand
           (scalarOperand (ConstantInt 8 127)) 8 127 freshResult
           (ValSetTypeScalar, setV freshResult.2 (SVVal getTrue))).
  - reflexivity.
  - reflexivity.
  - lia.
  - lia.
  - reflexivity.
Defined.

End CmpOrderFacts.

(** ** Pointers into one object *)

Module SameBaseFacts.

Import Folder Semantics MoreSpecs Examples.

Lemma getSExtValue_of_mod (o : Z) :
  signedRange 64 o -> getSExtValue 64 (o mod 2 ^ 64) = o.
Proof.
  unfold signedRange, getSExtValue. intros Ho.
  change (2 ^ (64 - 1)) with 9223372036854775808 in *.
  change (2 ^ 64) with 18446744073709551616 in *.
  destruct (decide (0 <= o)).
  - rewrite Z.mod_small by lia. case_decide; lia.
  - replace (o mod 18446744073709551616) with (o + 18446744073709551616).
    + case_decide; lia.
    + symmetry. rewrite <- (Z.mod_add o 1) by lia. apply Z.mod_small. lia.
Qed.

Lemma not_null_no_zero_arg (op : ShadowValue) :
  from_option isNullValue false (getVal op) = false ->
  nullOrObjectArg op ≠ Some (ConstantInt 64 0).
Proof.
  intros Hn. unfold nullOrObjectArg. rewrite Hn.
  repeat case_match; discriminate.
Qed.

(** X6: two Pointer-Base operands with the same base, which is not a null
    constant: when either offset is indeterminate [tryFoldPointerCmp]
    makes no progress; when both are resolved it folds to the signed
    comparison of the two offsets, also under an unsigned predicate. *)
Theorem same_base_compares_offsets (E : Externals) (P : Predicate)
    (Op0 Op1 : Operand) (st : Operand) :
  Op0.1 = ValSetTypePB ->
  Op1.1 = ValSetTypePB ->
  V Op0.2 = V Op1.2 ->
  from_option isNullValue false (getVal (V Op0.2)) = false ->
  (Offset Op0.2 = LLONG_MAX ∨ Offset Op1.2 = LLONG_MAX ->
     tryFoldPointerCmp E P [Op0; Op1] st = (false, st))
  ∧ (Offset Op0.2 ≠ LLONG_MAX -> Offset Op1.2 ≠ LLONG_MAX ->
     signedRange 64 (Offset Op0.2) -> signedRange 64 (Offset Op1.2) ->
     foldsCompare64 E ->
     tryFoldPointerCmp E P [Op0; Op1] st
     = (true, (ValSetTypeScalar,
               setV st.2 (svOfConstant
                 (boolConstant <$> evalICmp 64 (getSignedPred P)
                                     (Offset Op0.2) (Offset Op1.2)))))).
Proof.
  intros HT0 HT1 Hsame Hnn.
  pose proof (not_null_no_zero_arg _ Hnn) as Hz0.
  assert (Hz1 : nullOrObjectArg (V Op1.2) ≠ Some (ConstantInt 64 0))
    by (rewrite <- Hsame; exact Hz0).
  assert (Hpre :
            tryFoldPointerCmp E P [Op0; Op1] st
            = if bool_decide (Offset Op0.2 = LLONG_MAX)
                 || bool_decide (Offset Op1.2 = LLONG_MAX)
              then (false, st)
              else (true, (ValSetTypeScalar,
                     setV st.2 (svOfConstant
                       (ConstantFoldCompareInstOperands E (getSignedPred P)
                          (Some (constantIntAt (IntegerTy 64) (Offset Op0.2)))
                          (Some (constantIntAt (IntegerTy 64) (Offset Op1.2)))))))).
  { unfold tryFoldPointerCmp. cbn [lookup_total list_lookup_total].
    rewrite HT0, HT1.
    rewrite (bool_decide_eq_false_2 (nullOrObjectArg (V Op0.2) = _) Hz0).
    rewrite (bool_decide_eq_false_2 (nullOrObjectArg (V Op1.2) = _) Hz1).
    rewrite (bool_decide_eq_true_2 (V Op0.2 = V Op1.2) Hsame).
    rewrite andb_false_r.
    repeat (case_bool_decide; try congruence); reflexivity. }
  split.
  - intros Hvague. rewrite Hpre.
    destruct Hvague as [H|H]; rewrite (bool_decide_eq_true_2 _ H);
      rewrite ?orb_true_r; reflexivity.
  - intros H0 H1 R0 R1 HE. rewrite Hpre.
    rewrite (bool_decide_eq_false_2 _ H0), (bool_decide_eq_false_2 _ H1). cbn.
    rewrite HE, !getSExtValue_of_mod by assumption. reflexivity.
Qed.

Lemma simpleExternals_foldsCompare64 : foldsCompare64 simpleExternals.
Proof.
  intros P x y. cbn. rewrite bool_decide_eq_true_2 by reflexivity. reflexivity.
Qed.

Lemma same_base_compares_offsets_witness :
  let Op0 := (ValSetTypePB, {| V := SVInst (allocaAt 0); Offset := -4 |}) in
  let Op1 := (ValSetTypePB, {| V := SVInst (allocaAt 0); Offset := 8 |}) in
  (Offset Op0.2 = LLONG_MAX ∨ Offset Op1.2 = LLONG_MAX ->
     tryFoldPointerCmp simpleExternals ICMP_ULT [Op0; Op1] freshResult
     = (false, freshResult))
  ∧ (Offset Op0.2 ≠ LLONG_MAX -> Offset Op1.2 ≠ LLONG_MAX ->
     signedRange 64 (Offset Op0.2) -> signedRange 64 (Offset Op1.2) ->
     foldsCompare64 simpleExternals ->
     tryFoldPointerCmp simpleExternals ICMP_ULT [Op0; Op1] freshResult
     = (true, (ValSetTypeScalar,
               setV freshResult.2 (svOfConstant
                 (boolConstant <$> evalICmp 64 (getSignedPred ICMP_ULT)
                                     (Offset Op0.2) (Offset Op1.2)))))).
Proof.
  apply (same_base_compares_offsets simpleExternals ICMP_ULT
           (ValSetTypePB, {| V := SVInst (allocaAt 0); Offset := -4 |})
           (ValSetTypePB, {| V := SVInst (allocaAt 0); Offset := 8 |})
           freshResult).
  - reflexivity.
  - reflexivity.
  - reflexivity.
  - reflexivity.
Defined.

(** The offset -4 is below the offset 8, although as an unsigned number it
    is far above it. *)
Example negative_offset_is_below :
  tryFoldPointerCmp simpleExternals ICMP_ULT
    [(ValSetTypePB, {| V := SVInst (allocaAt 0); Offset := -4 |});
     (ValSetTypePB, {| V := SVInst (allocaAt 0); Offset := 8 |})] freshResult
  = (true, (ValSetTypeScalar, setV freshResult.2 (SVVal getTrue))).
Proof. reflexivity. Qed.

End SameBaseFacts.

(** ** Pointers handled as integers *)

Module PtrAsIntFacts.

Import Folder Semantics MoreSpecs Examples MoreExamples.

Lemma wrap64_id (z : Z) : signedRange 64 z -> wrap64 z = z.
Proof.
  unfold signedRange, wrap64. intros Hz.
  change (2 ^ (64 - 1)) with 9223372036854775808 in *.
  change (2 ^ 63) with 9223372036854775808.
  change (2 ^ 64) with 18446744073709551616.
  rewrite Z.mod_small by lia. lia.
Qed.

Lemma wrap64_range (z : Z) : signedRange 64 (wrap64 z).
Proof.
  unfold signedRange, wrap64.
  change (2 ^ (64 - 1)) with 9223372036854775808.
  change (2 ^ 63) with 9223372036854775808.
  change (2 ^ 64) with 18446744073709551616.
  pose proof (Z.mod_pos_bound (z + 9223372036854775808) 18446744073709551616
                ltac:(lia)). lia.
Qed.

Lemma wrap64_add_l (x y : Z) : wrap64 (wrap64 x + y) = wrap64 (x + y).
Proof.
  unfold wrap64.
  change (2 ^ 63) with 9223372036854775808.
  change (2 ^ 64) with 18446744073709551616.
  f_equal.
  replace ((x + 9223372036854775808) mod 18446744073709551616
           - 9223372036854775808 + y + 9223372036854775808)
    with ((x + 9223372036854775808) mod 18446744073709551616 + y) by lia.
  rewrite Zplus_mod_idemp_l. f_equal. lia.
Qed.

(** X7: an addition with exactly one pointer operand is folded alike
    whichever side the pointer is on. *)
Theorem ptr_add_commutes (E : Externals) (ty : Ty) (p n : Operand)
    (st : Operand) :
  p.1 = ValSetTypePB ->
  n.1 ≠ ValSetTypePB ->
  tryFoldPtrAsIntOp E (BinaryOperator Add ty) [n; p] st
  = tryFoldPtrAsIntOp E (BinaryOperator Add ty) [p; n] st.
Proof.
  intros Hp Hn. unfold tryFoldPtrAsIntOp.
  cbn [lookup_total list_lookup_total instType].
  destruct (isIntegerTy ty); cbn [negb]; [|reflexivity].
  rewrite Hp, (bool_decide_eq_true_2 (ValSetTypePB = ValSetTypePB)) by reflexivity.
  rewrite (bool_decide_eq_false_2 (n.1 = ValSetTypePB)) by assumption.
  reflexivity.
Qed.

Lemma ptr_add_commutes_witness :
  tryFoldPtrAsIntOp simpleExternals (BinaryOperator Add (IntegerTy 64))
    [scalarOperand (ConstantInt 64 16); allocaPointer 8] freshResult
  = tryFoldPtrAsIntOp simpleExternals (BinaryOperator Add (IntegerTy 64))
      [allocaPointer 8; scalarOperand (ConstantInt 64 16)] freshResult.
Proof.
  apply (ptr_add_commutes simpleExternals (IntegerTy 64) (allocaPointer 8)
           (scalarOperand (ConstantInt 64 16)) freshResult).
  - reflexivity.
  - discriminate.
Defined.

Lemma wrap64_shift (z k : Z) : wrap64 (z + k * 2 ^ 64) = wrap64 z.
Proof.
  unfold wrap64. f_equal.
  replace (z + k * 2 ^ 64 + 2 ^ 63) with (z + 2 ^ 63 + k * 2 ^ 64) by lia.
  apply Z.mod_add. discriminate.
Qed.

Lemma wrap64_offset (z : Z) : ∃ k : Z, wrap64 z = z + k * 2 ^ 64.
Proof.
  exists (- ((z + 2 ^ 63) / 2 ^ 64)). unfold wrap64.
  rewrite Z.mod_eq by discriminate. lia.
Qed.

Lemma wrap64_sub (x y : Z) : wrap64 (wrap64 x - wrap64 y) = wrap64 (x - y).
Proof.
  destruct (wrap64_offset x) as [k1 ->]. destruct (wrap64_offset y) as [k2 ->].
  replace (x + k1 * 2 ^ 64 - (y + k2 * 2 ^ 64)) with (x - y + (k1 - k2) * 2 ^ 64) by lia.
  apply wrap64_shift.
Qed.

(** X8: adding a non-pointer to a pointer, or subtracting one from it,
    always gives a Pointer-Base on the same base, never Overdef; its
    offset is indeterminate when the pointer's is or when the other
    operand is no integer constant, and the sum or difference, wrapped to
    64 bits, otherwise. *)
Theorem ptr_plus_minus_keeps_base (E : Externals) (op : BinOp) (ty : Ty)
    (p n : Operand) (st : Operand) :
  op = Add ∨ op = Sub ->
  isIntegerTy ty = true ->
  p.1 = ValSetTypePB ->
  n.1 ≠ ValSetTypePB ->
  ∃ off : Z,
    tryFoldPtrAsIntOp E (BinaryOperator op ty) [p; n] st
    = (true, (ValSetTypePB, {| V := V p.2; Offset := off |}))
    ∧ (Offset p.2 = LLONG_MAX ∨ getConstantInt (V n.2) = None -> off = LLONG_MAX)
    ∧ (∀ w v : Z,
         Offset p.2 ≠ LLONG_MAX -> getConstantInt (V n.2) = Some (w, v) ->
         off = wrap64 (if bool_decide (op = Add)
                       then Offset p.2 + getSExtValue w v
                       else Offset p.2 - getSExtValue w v)).
Proof.
  intros Hop Hty Hp Hn. unfold tryFoldPtrAsIntOp.
  cbn [lookup_total list_lookup_total instType]. rewrite Hty. cbn [negb].
  rewrite Hp, (bool_decide_eq_true_2 (ValSetTypePB = ValSetTypePB)) by reflexivity.
  rewrite (bool_decide_eq_false_2 (n.1 = ValSetTypePB)) by assumption.
  destruct Hop as [-> | ->]; cbn;
    destruct (getConstantInt (V n.2)) as [[w v]|] eqn:Hc;
    try (case_bool_decide as Ho);
    eexists; (split; [reflexivity|]); split;
    try (intros [H|H]; congruence); try (intros _; reflexivity);
    try (intros w' v' H1 H2; congruence).
  - intros w' v' _ [= <- <-]. reflexivity.
  - intros w' v' _ [= <- <-]. reflexivity.
Qed.

Lemma ptr_plus_minus_keeps_base_witness :
  ∃ off : Z,
    tryFoldPtrAsIntOp simpleExternals (BinaryOperator Sub (IntegerTy 64))
      [allocaPointer 8; scalarOperand (ConstantInt 64 16)] freshResult
    = (true, (ValSetTypePB, {| V := V (allocaPointer 8).2; Offset := off |}))
    ∧ (Offset (allocaPointer 8).2 = LLONG_MAX
       ∨ getConstantInt (V (scalarOperand (ConstantInt 64 16)).2) = None ->
       off = LLONG_MAX)
    ∧ (∀ w v : Z,
         Offset (allocaPointer 8).2 ≠ LLONG_MAX ->
         getConstantInt (V (scalarOperand (ConstantInt 64 16)).2) = Some (w, v) ->
         off = wrap64 (if bool_decide (Sub = Add)
                       then Offset (allocaPointer 8).2 + getSExtValue w v
                       else Offset (allocaPointer 8).2 - getSExtValue w v)).
Proof.
  apply (ptr_plus_minus_keeps_base simpleExternals Sub (IntegerTy 64)
           (allocaPointer 8) (scalarOperand (ConstantInt 64 16)) freshResult).
  - right. reflexivity.
  - reflexivity.
  - reflexivity.
  - discriminate.
Defined.

Lemma tryFoldPtrAsIntOp_add_const (E : Externals) (ty : Ty) (p n : Operand)
    (w v : Z) (st : Operand) :
  isIntegerTy ty = true ->
  p.1 = ValSetTypePB ->
  Offset p.2 ≠ LLONG_MAX ->
  n.1 ≠ ValSetTypePB ->
  getConstantInt (V n.2) = Some (w, v) ->
  tryFoldPtrAsIntOp E (BinaryOperator Add ty) [p; n] st
  = (true, (ValSetTypePB,
            {| V := V p.2; Offset := wrap64 (Offset p.2 + getSExtValue w v) |})).
Proof.
  intros Hty Hp Ho Hn Hc. unfold tryFoldPtrAsIntOp.
  cbn [lookup_total list_lookup_total instType]. rewrite Hty. cbn [negb].
  rewrite Hp, (bool_decide_eq_true_2 (ValSetTypePB = ValSetTypePB)) by reflexivity.
  rewrite (bool_decide_eq_false_2 (n.1 = ValSetTypePB)) by assumption.
  cbn. rewrite Hc. rewrite (bool_decide_eq_false_2 _ Ho). reflexivity.
Qed.

(** X9: the difference of two pointers obtained from one pointer by
    adding the constants [a] and [b] folds to the Scalar [a - b], as long
    as neither sum lands on the value that stands for the indeterminate
    offset. *)
Theorem ptr_difference_of_sums (E : Externals) (ty : Ty) (p a b : Operand)
    (wa va wb vb : Z) (st st' : Operand) :
  isIntegerTy ty = true ->
  p.1 = ValSetTypePB ->
  Offset p.2 ≠ LLONG_MAX ->
  a.1 ≠ ValSetTypePB -> getConstantInt (V a.2) = Some (wa, va) ->
  b.1 ≠ ValSetTypePB -> getConstantInt (V b.2) = Some (wb, vb) ->
  wrap64 (Offset p.2 + getSExtValue wa va) ≠ LLONG_MAX ->
  wrap64 (Offset p.2 + getSExtValue wb vb) ≠ LLONG_MAX ->
  let sumA := (tryFoldPtrAsIntOp E (BinaryOperator Add ty) [p; a] st).2 in
  let sumB := (tryFoldPtrAsIntOp E (BinaryOperator Add ty) [p; b] st).2 in
  tryFoldPtrAsIntOp E (BinaryOperator Sub ty) [sumA; sumB] st'
  = (true, (ValSetTypeScalar,
            ofShadow (SVVal (constantIntAt ty
              (wrap64 (getSExtValue wa va - getSExtValue wb vb)))))).
Proof.
  intros Hty Hp Ho Ha Hca Hb Hcb HA HB sumA sumB.
  assert (HsA : sumA = (ValSetTypePB,
            {| V := V p.2; Offset := wrap64 (Offset p.2 + getSExtValue wa va) |})).
  { unfold sumA.
    rewrite (tryFoldPtrAsIntOp_add_const E ty p a wa va st Hty Hp Ho Ha Hca).
    reflexivity. }
  assert (HsB : sumB = (ValSetTypePB,
            {| V := V p.2; Offset := wrap64 (Offset p.2 + getSExtValue wb vb) |})).
  { unfold sumB.
    rewrite (tryFoldPtrAsIntOp_add_const E ty p b wb vb st Hty Hp Ho Hb Hcb).
    reflexivity. }
  rewrite HsA, HsB. unfold tryFoldPtrAsIntOp.
  cbn [lookup_total list_lookup_total instType fst snd V Offset].
  rewrite Hty. cbn [negb].
  rewrite !(bool_decide_eq_true_2 (ValSetTypePB = ValSetTypePB)) by reflexivity.
  cbn [negb andb].
  rewrite (bool_decide_eq_true_2 (V p.2 = V p.2)) by reflexivity.
  rewrite !bool_decide_eq_true_2 by assumption. cbn [andb].
  rewrite wrap64_sub.
  replace (Offset p.2 + getSExtValue wa va - (Offset p.2 + getSExtValue wb vb))
    with (getSExtValue wa va - getSExtValue wb vb) by lia.
  reflexivity.
Qed.

Lemma ptr_difference_of_sums_witness :
  let sumA := (tryFoldPtrAsIntOp simpleExternals (BinaryOperator Add (IntegerTy 64))
                 [allocaPointer 8; scalarOperand (ConstantInt 64 16)] freshResult).2 in
  let sumB := (tryFoldPtrAsIntOp simpleExternals (BinaryOperator Add (IntegerTy 64))
                 [allocaPointer 8; scalarOperand (ConstantInt 64 4)] freshResult).2 in
  tryFoldPtrAsIntOp simpleExternals (BinaryOperator Sub (IntegerTy 64))
    [sumA; sumB] freshResult
  = (true, (ValSetTypeScalar,
            ofShadow (SVVal (constantIntAt (IntegerTy 64)
              (wrap64 (getSExtValue 64 16 - getSExtValue 64 4)))))).
Proof.
  apply (ptr_difference_of_sums simpleExternals (IntegerTy 64) (allocaPointer 8)
           (scalarOperand (ConstantInt 64 16)) (scalarOperand (ConstantInt 64 4))
           64 16 64 4 freshResult freshResult).
  - reflexivity.
  - reflexivity.
  - vm_compute. discriminate.
  - discriminate.
  - reflexivity.
  - discriminate.
  - reflexivity.
  - vm_compute. discriminate.
  - vm_compute. discriminate.
Defined.

(** A sum that lands on [LLONG_MAX] reads as indeterminate afterwards, and
    the difference is then left alone. *)
Example sum_on_the_sentinel :
  let top := allocaPointer (LLONG_MAX - 16) in
  let sumA := (tryFoldPtrAsIntOp simpleExternals (BinaryOperator Add (IntegerTy 64))
                 [top; scalarOperand (ConstantInt 64 16)] freshResult).2 in
  Offset sumA.2 = LLONG_MAX
  ∧ tryFoldPtrAsIntOp simpleExternals (BinaryOperator Sub (IntegerTy 64))
      [sumA; top] freshResult = (false, freshResult).
Proof. vm_compute. split; reflexivity. Qed.

Lemma land_low_bits (x m k : Z) :
  0 <= k -> 0 <= m < 2 ^ k -> Z.land x m = Z.land (x mod 2 ^ k) m.
Proof.
  intros Hk Hm.
  rewrite <- (Z.mod_small m (2 ^ k)) at 1 by lia.
  rewrite <- !Z.land_ones by lia.
  rewrite Z.land_assoc, (Z.land_comm x m), <- Z.land_assoc.
  rewrite (Z.land_comm m), <- Z.land_assoc.
  rewrite (Z.land_comm (Z.ones k) m).
  rewrite (Z.land_ones m k) by lia. rewrite Z.mod_small by lia. reflexivity.
Qed.

(** X10: when [tryFoldPtrAsIntOp] folds the AND of a pointer with a mask,
    the Scalar it gives is the mask applied to the offset, and that is the
    mask applied to the address itself wherever the object lies, given
    that its address is a multiple of its alignment, a power of two. *)
Theorem alignment_mask_sound (E : Externals) (ty : Ty) (p m : Operand)
    (st r : Operand) :
  tryFoldPtrAsIntOp E (BinaryOperator And ty) [p; m] st = (true, r) ->
  ∃ maskW maskV : Z,
    getConstantInt (V m.2) = Some (maskW, maskV)
    ∧ r = (ValSetTypeScalar,
           setV st.2 (SVVal (constantIntAt ty
             (Z.land (getLimitedValue maskV) (Offset p.2)))))
    ∧ ∀ k addr : Z,
        0 <= k -> 0 <= maskV ->
        baseAlignment E (V p.2) = 2 ^ k ->
        addr mod 2 ^ k = 0 ->
        Z.land (addr + Offset p.2) (getLimitedValue maskV)
        = Z.land (getLimitedValue maskV) (Offset p.2).
Proof.
  unfold tryFoldPtrAsIntOp. cbn [lookup_total list_lookup_total instType].
  destruct (isIntegerTy ty); cbn [negb]; [|discriminate].
  destruct (bool_decide (p.1 = ValSetTypePB)); cbn [negb andb orb];
    [|destruct (bool_decide (m.1 = ValSetTypePB)); discriminate].
  destruct (bool_decide (m.1 = ValSetTypePB)); cbn [negb andb orb]; [discriminate|].
  destruct (getConstantInt (V m.2)) as [[maskW maskV]|]; [|discriminate].
  destruct (bool_decide (Offset p.2 = LLONG_MAX)); cbn [orb]; [discriminate|].
  case_bool_decide as Hneg; [discriminate|].
  case_decide as Hlt; [|discriminate].
  intros [= <-]. exists maskW, maskV. split; [reflexivity|]. split; [reflexivity|].
  intros k addr Hk Hmask Halign Haddr.
  rewrite Halign in Hlt.
  assert (Hm : 0 <= getLimitedValue maskV < 2 ^ k).
  { unfold getLimitedValue in *. lia. }
  rewrite (land_low_bits (addr + Offset p.2) _ k Hk Hm).
  rewrite (Z.land_comm (getLimitedValue maskV) (Offset p.2)).
  rewrite (land_low_bits (Offset p.2) _ k Hk Hm).
  f_equal.
  rewrite Z.add_mod by (apply Z.pow_nonzero; lia).
  rewrite Haddr, Z.add_0_l. apply Z.mod_mod. apply Z.pow_nonzero; lia.
Qed.

Lemma alignment_mask_sound_witness :
  ∃ maskW maskV : Z,
    getConstantInt (V (scalarOperand (ConstantInt 64 7)).2) = Some (maskW, maskV)
    ∧ (ValSetTypeScalar, setV freshResult.2 (SVVal (ConstantInt 64 4)))
      = (ValSetTypeScalar,
         setV freshResult.2 (SVVal (constantIntAt (IntegerTy 64)
           (Z.land (getLimitedValue maskV) (Offset (allocaPointer 12).2)))))
    ∧ ∀ k addr : Z,
        0 <= k -> 0 <= maskV ->
        baseAlignment simpleExternals (V (allocaPointer 12).2) = 2 ^ k ->
        addr mod 2 ^ k = 0 ->
        Z.land (addr + Offset (allocaPointer 12).2) (getLimitedValue maskV)
        = Z.land (getLimitedValue maskV) (Offset (allocaPointer 12).2).
Proof.
  apply (alignment_mask_sound simpleExternals (IntegerTy 64) (allocaPointer 12)
           (scalarOperand (ConstantInt 64 7)) freshResult
           (ValSetTypeScalar, setV freshResult.2 (SVVal (ConstantInt 64 4)))).
  reflexivity.
Defined.

End PtrAsIntFacts.

(** ** AND and OR with an absorbing constant *)

Module BitwiseFacts.

Import Folder Semantics MoreSpecs Examples.

Lemma tryFoldBitwiseOp_swap (I : Instruction) (a b : Operand) (st : Operand) :
  tryFoldBitwiseOp I [b; a] st = tryFoldBitwiseOp I [a; b] st.
Proof.
  unfold tryFoldBitwiseOp. cbn [lookup_total list_lookup_total].
  destruct I as [| | | | |op ty| | | | |]; try reflexivity.
  destruct op; try reflexivity.
  - rewrite orb_comm. reflexivity.
  - destruct (getVal (V a.2) ≫= isConstantInt) as [[wa va]|];
      destruct (getVal (V b.2) ≫= isConstantInt) as [[wb vb]|]; cbn;
      try destruct (isAllOnesValue wa va); try destruct (isAllOnesValue wb vb);
      reflexivity.
Qed.

(** X11: [tryFoldBitwiseOp] treats its two operands alike: swapping them
    changes neither whether it folds nor what it folds to; and it folds
    only when one of them is a constant, and then to a Scalar. *)
Theorem tryFoldBitwiseOp_commutes (I : Instruction) (a b : Operand)
    (st : Operand) :
  tryFoldBitwiseOp I [b; a] st = tryFoldBitwiseOp I [a; b] st
  ∧ ∀ r : Operand,
      tryFoldBitwiseOp I [a; b] st = (true, r) ->
      r.1 = ValSetTypeScalar
      ∧ (is_Some (getVal (V a.2)) ∨ is_Some (getVal (V b.2))).
Proof.
  split; [apply tryFoldBitwiseOp_swap|].
  intros r. unfold tryFoldBitwiseOp. cbn [lookup_total list_lookup_total].
  destruct I as [| | | | |op ty| | | | |]; try discriminate.
  destruct op; try discriminate.
  - destruct (getVal (V a.2)) as [ca|]; destruct (getVal (V b.2)) as [cb|]; cbn;
      repeat case_match; try discriminate; intros [= <-]; cbn;
      (split; [reflexivity|]); eauto.
  - destruct (getVal (V a.2)) as [ca|]; destruct (getVal (V b.2)) as [cb|]; cbn;
      repeat case_match; try discriminate; intros [= <-]; cbn;
      (split; [reflexivity|]); eauto.
Qed.

End BitwiseFacts.

(** ** Pointer-offset computation *)

Module GEPFacts.

Import Folder Semantics MoreSpecs Examples MoreExamples.

Lemma gepAccumulate_sum (idx : list Operand) (steps : list GEPStep)
    (cs : list Z) (off : Z) :
  signedRange 64 off ->
  Forall (fun op : Operand => op.1 = ValSetTypeScalar) idx ->
  Forall2 (fun (os : Operand * GEPStep) (c : Z) => gepContribution os.1 os.2 = Some c)
          (zip idx steps) cs ->
  length idx = length steps ->
  gepAccumulate idx steps off = Some (wrap64 (off + sumZ cs)).
Proof.
  revert steps cs off.
  induction idx as [|op idx IH]; intros steps cs off Hoff Hsc Hcs Hlen.
  - cbn in Hcs. apply Forall2_nil_inv_l in Hcs. subst cs. cbn.
    rewrite Z.add_0_r, PtrAsIntFacts.wrap64_id by assumption. reflexivity.
  - destruct steps as [|stp steps]; [discriminate|].
    cbn in Hcs. apply Forall2_cons_inv_l in Hcs.
    destruct Hcs as [c [cs' [Hc [Hcs ->]]]]. cbn in Hc.
    apply Forall_cons in Hsc. destruct Hsc as [Hop Hsc].
    injection Hlen as Hlen.
    cbn [gepAccumulate]. rewrite (bool_decide_eq_false_2 (op.1 ≠ _)) by tauto.
    unfold gepContribution in Hc.
    destruct (getConstantInt (V op.2)) as [[w v]|]; [|discriminate].
    cbn [sumZ foldr]. fold (sumZ cs').
    case_bool_decide as Hv.
    + injection Hc as <-. rewrite (IH steps cs' off Hoff Hsc Hcs Hlen).
      do 2 f_equal; lia.
    + destruct stp as [fieldOffsets|Size].
      * rewrite Hc.
        rewrite (IH steps cs' _ (PtrAsIntFacts.wrap64_range _) Hsc Hcs Hlen).
        rewrite PtrAsIntFacts.wrap64_add_l. do 2 f_equal; lia.
      * injection Hc as <-.
        rewrite (IH steps cs' _ (PtrAsIntFacts.wrap64_range _) Hsc Hcs Hlen).
        rewrite PtrAsIntFacts.wrap64_add_l. do 2 f_equal; lia.
Qed.

(** X12: a GEP off a Pointer-Base with a resolved offset, all of whose
    indices are integer constants, yields the same base at the old offset
    plus what the indices add: the byte offset of the field for a struct
    index, index times element size for an array index, nothing for a
    zero index; the sum is wrapped to 64 bits. *)
Theorem gep_adds_index_offsets (E : Externals) (SI : ShadowInstruction)
    (steps : list GEPStep) (base : Operand) (idx : list Operand)
    (cs : list Z) (st : Operand) :
  si_I SI = GetElementPtrInst steps ->
  base.1 = ValSetTypePB ->
  Offset base.2 ≠ LLONG_MAX ->
  signedRange 64 (Offset base.2) ->
  Forall (fun op : Operand => op.1 = ValSetTypeScalar) idx ->
  Forall2 (fun (os : Operand * GEPStep) (c : Z) => gepContribution os.1 os.2 = Some c)
          (zip idx steps) cs ->
  length idx = length steps ->
  tryEvaluateResult E SI (base :: idx) st
  = Some (ValSetTypePB,
          {| V := V base.2; Offset := wrap64 (Offset base.2 + sumZ cs) |}).
Proof.
  intros HSI Hb Ho Hr Hsc Hcs Hlen.
  unfold tryEvaluateResult. rewrite HSI. cbn.
  rewrite Hb, (bool_decide_eq_true_2 (ValSetTypePB = ValSetTypePB)) by reflexivity.
  rewrite (bool_decide_eq_true_2 _ Ho).
  rewrite (gepAccumulate_sum idx steps cs _ Hr Hsc Hcs Hlen). reflexivity.
Qed.

Lemma gep_adds_index_offsets_witness :
  tryEvaluateResult simpleExternals fieldGEP fieldGEPOperands freshResult
  = Some (ValSetTypePB,
          {| V := V (allocaPointer 0).2;
             Offset := wrap64 (Offset (allocaPointer 0).2 + sumZ [0; 8]) |}).
Proof.
  apply (gep_adds_index_offsets simpleExternals fieldGEP
           [SeqStep 16; StructStep [0; 4; 8]] (allocaPointer 0)
           [scalarOperand (ConstantInt 64 0); scalarOperand (ConstantInt 32 2)]
           [0; 8] freshResult).
  - reflexivity.
  - reflexivity.
  - vm_compute. discriminate.
  - vm_compute. split; [discriminate|reflexivity].
  - repeat constructor.
  - repeat constructor.
  - reflexivity.
Defined.

Lemma gepAccumulate_unresolved_index (idx : list Operand) (steps : list GEPStep)
    (off r : Z) :
  Exists (fun op : Operand => op.1 ≠ ValSetTypeScalar) idx ->
  gepAccumulate idx steps off = Some r -> r = LLONG_MAX.
Proof.
  revert steps off. induction idx as [|op idx IH]; intros steps off Hex Hrun.
  - apply Exists_nil in Hex. contradiction.
  - cbn [gepAccumulate] in Hrun. case_bool_decide as Hop.
    + congruence.
    + apply Exists_cons in Hex. destruct Hex as [Hbad|Hex]; [tauto|].
      destruct (getConstantInt (V op.2)) as [[w v]|]; [|discriminate].
      destruct steps as [|stp steps]; [discriminate|].
      case_bool_decide; [eapply IH; eassumption|].
      destruct stp as [fieldOffsets|Size].
      * destruct (fieldOffsets !! Z.to_nat v); [|discriminate].
        eapply IH; eassumption.
      * eapply IH; eassumption.
Qed.

(** X13: a GEP off a Pointer-Base never leaves the category nor the base:
    whatever the indices, a result is a Pointer-Base on the base of the
    first operand; and when some index is not a resolved scalar, or the
    offset of the base is indeterminate, its offset is indeterminate. *)
Theorem gep_keeps_base (E : Externals) (SI : ShadowInstruction)
    (steps : list GEPStep) (base : Operand) (idx : list Operand)
    (st r : Operand) :
  si_I SI = GetElementPtrInst steps ->
  base.1 = ValSetTypePB ->
  tryEvaluateResult E SI (base :: idx) st = Some r ->
  r.1 = ValSetTypePB
  ∧ V r.2 = V base.2
  ∧ (Offset base.2 = LLONG_MAX
     ∨ Exists (fun op : Operand => op.1 ≠ ValSetTypeScalar) idx ->
     Offset r.2 = LLONG_MAX).
Proof.
  intros HSI Hb. unfold tryEvaluateResult. rewrite HSI. cbn.
  rewrite Hb, (bool_decide_eq_true_2 (ValSetTypePB = ValSetTypePB)) by reflexivity.
  case_bool_decide as Ho.
  - destruct (gepAccumulate idx steps (Offset base.2)) as [off|] eqn:Hacc;
      [|discriminate].
    cbn. intros [= <-]. cbn. repeat split.
    intros [Hv|Hex]; [contradiction|].
    eapply gepAccumulate_unresolved_index; eassumption.
  - intros [= <-]. cbn. repeat split.
    intros _. destruct (decide (Offset base.2 = LLONG_MAX)); [assumption|contradiction].
Qed.

Lemma gep_keeps_base_witness :
  let r := (ValSetTypePB, {| V := V (allocaPointer 0).2; Offset := LLONG_MAX |}) in
  r.1 = ValSetTypePB
  ∧ V r.2 = V (allocaPointer 0).2
  ∧ (Offset (allocaPointer 0).2 = LLONG_MAX
     ∨ Exists (fun op : Operand => op.1 ≠ ValSetTypeScalar)
         [scalarOperand (ConstantInt 64 0); unresolvedOperand] ->
     Offset r.2 = LLONG_MAX).
Proof.
  apply (gep_keeps_base simpleExternals fieldGEP
           [SeqStep 16; StructStep [0; 4; 8]] (allocaPointer 0)
           [scalarOperand (ConstantInt 64 0); unresolvedOperand] freshResult
           (ValSetTypePB, {| V := V (allocaPointer 0).2; Offset := LLONG_MAX |})).
  - reflexivity.
  - reflexivity.
  - reflexivity.
Defined.

End GEPFacts.

(** ** The generic fallback *)

Module FallbackFacts.

Import Folder Semantics MoreSpecs Examples MoreExamples.

Section Gather.

Context (E : Externals).

Lemma gatherOperands_obstacle (before : list Operand) (op : Operand)
    (behind : list Operand) (avail : bool) (acc : list (option Constant)) :
  Forall (fun o : Operand => is_Some (getVal (V o.2))) before ->
  Forall (fun o => forcesOverdef o = false) before ->
  forcesOverdef op = true ->
  gatherOperands E (before ++ op :: behind) avail acc = OverdefAtOnce.
Proof.
  intros Hval Hok Hop. revert avail acc.
  induction before as [|o before IH]; intros avail acc.
  - cbn [app gatherOperands]. unfold forcesOverdef in Hop.
    destruct (bool_decide (op.1 = ValSetTypePB)) eqn:HPB; cbn in Hop |- *.
    + apply bool_decide_eq_true_1 in HPB. rewrite HPB in Hop |- *. cbn in Hop.
      destruct (getVal (V op.2)) as [c|]; cbn in Hop |- *; [|reflexivity].
      destruct (isNullValue c); cbn in Hop; [discriminate|reflexivity].
    + rewrite andb_true_r in Hop. apply andb_true_iff in Hop.
      destruct Hop as [HS HU]. apply negb_true_iff in HS, HU.
      apply bool_decide_eq_false_1 in HS.
      rewrite (bool_decide_eq_true_2 (op.1 ≠ _)) by assumption.
      rewrite HU. reflexivity.
  - apply Forall_cons in Hval. destruct Hval as [[c Hc] Hval].
    apply Forall_cons in Hok. destruct Hok as [Ho Hok].
    cbn [app gatherOperands]. rewrite Hc. unfold forcesOverdef in Ho. rewrite Hc in Ho.
    cbn in Ho.
    destruct (bool_decide (o.1 = ValSetTypePB)) eqn:HPB; cbn in Ho |- *.
    + apply bool_decide_eq_true_1 in HPB. rewrite HPB in Ho. cbn in Ho.
      destruct (isNullValue c); cbn in Ho; [|discriminate].
      apply IH; assumption.
    + destruct (bool_decide (o.1 = ValSetTypeScalar)) eqn:HS; cbn in Ho |- *.
      * apply bool_decide_eq_true_1 in HS.
        rewrite (bool_decide_eq_false_2 (o.1 ≠ _)) by tauto.
        apply IH; assumption.
      * apply bool_decide_eq_false_1 in HS.
        rewrite (bool_decide_eq_true_2 (o.1 ≠ _)) by assumption.
        rewrite andb_true_r in Ho. apply negb_false_iff in Ho. rewrite Ho.
        apply IH; assumption.
Qed.

Lemma gatherOperands_castable (Ops : list Operand) (avail : bool)
    (acc : list (option Constant)) :
  Forall (fun o : Operand => is_Some (getVal (V o.2)) ∨ forcesOverdef o = true) Ops ->
  gatherOperands E Ops avail acc ≠ CastOfNoConstant.
Proof.
  revert avail acc. induction Ops as [|o Ops IH]; intros avail acc Hall.
  - discriminate.
  - apply Forall_cons in Hall. destruct Hall as [Ho Hall].
    cbn [gatherOperands]. unfold forcesOverdef in Ho.
    destruct (getVal (V o.2)) as [c|] eqn:Hc.
    + repeat case_match; try discriminate; apply IH; assumption.
    + destruct Ho as [[c Hc']|Ho]; [discriminate Hc'|].
      cbn in Ho. rewrite andb_false_r, andb_true_r in Ho.
      apply andb_true_iff in Ho. destruct Ho as [HS HU].
      apply negb_true_iff in HS, HU. apply bool_decide_eq_false_1 in HS.
      rewrite (bool_decide_eq_true_2 (o.1 ≠ _)) by assumption.
      rewrite HU. destruct (bool_decide (o.1 = ValSetTypePB)); discriminate.
Qed.

End Gather.

(** X14: the generic fallback takes the operands in order, and an
    operand that is neither a scalar, nor Unknown, nor a pointer based on
    a null constant makes the result Overdef as soon as it is reached:
    when every operand before it holds a constant, whatever stands behind
    it, also an Unknown operand.  The constant folder is not consulted
    and [Improved] is left alone. *)
Theorem fallback_overdef_at_first_obstacle (E : Externals) (I : Instruction)
    (before : list Operand) (op : Operand) (behind : list Operand)
    (st : Operand) :
  Forall (fun o : Operand => is_Some (getVal (V o.2))) before ->
  Forall (fun o => forcesOverdef o = false) before ->
  forcesOverdef op = true ->
  ordinaryConstantFold E I (before ++ op :: behind) st
  = Some (ValSetTypeOverdef, st.2).
Proof.
  intros Hval Hok Hop. unfold ordinaryConstantFold.
  rewrite (gatherOperands_obstacle E before op behind true [] Hval Hok Hop).
  reflexivity.
Qed.

Lemma fallback_overdef_at_first_obstacle_witness :
  ordinaryConstantFold simpleExternals (OtherInst 0 (IntegerTy 32))
    ([scalarOperand (ConstantInt 32 1)] ++ handleOperand :: [unresolvedOperand])
    freshResult
  = Some (ValSetTypeOverdef, freshResult.2).
Proof.
  apply (fallback_overdef_at_first_obstacle simpleExternals
           (OtherInst 0 (IntegerTy 32)) [scalarOperand (ConstantInt 32 1)]
           handleOperand [unresolvedOperand] freshResult).
  - apply Forall_cons. split; [|apply Forall_nil_2]. eexists. reflexivity.
  - apply Forall_cons. split; [|apply Forall_nil_2]. reflexivity.
  - reflexivity.
Defined.

Lemma ordinaryConstantFold_category (E : Externals) (I : Instruction)
    (Ops : list Operand) (st r : Operand) :
  ordinaryConstantFold E I Ops st = Some r -> r.1 ∈ comparisonCategories.
Proof.
  unfold ordinaryConstantFold, comparisonCategories.
  repeat case_match; intros [= <-]; cbn; set_solver.
Qed.

(** X15: a comparison never evaluates to a pointer, a descriptor or a
    vararg cookie: whatever its operands are, the category of a result is
    Scalar, Overdef or Unknown.  And there is a result whenever each
    operand either holds a constant or is one the generic fallback gives
    up on (neither a scalar, nor Unknown, nor a pointer based on a null
    constant). *)
Theorem comparison_category (E : Externals) (SI : ShadowInstruction)
    (P : Predicate) (Ops : list Operand) (st : Operand) :
  si_I SI = CmpInst P ->
  (∀ r : Operand,
     tryEvaluateResult E SI Ops st = Some r -> r.1 ∈ comparisonCategories)
  ∧ (Forall (fun o : Operand =>
               is_Some (getVal (V o.2)) ∨ forcesOverdef o = true) Ops ->
     ∃ r : Operand, tryEvaluateResult E SI Ops st = Some r).
Proof.
  intros HSI. unfold tryEvaluateResult. rewrite HSI. cbn.
  destruct (tryFoldOpenCmp P Ops st) as [h1 st1] eqn:H1.
  assert (C1 : h1 = true -> st1.1 ∈ comparisonCategories).
  { revert H1. unfold tryFoldOpenCmp, comparisonCategories.
    repeat case_match; intros [= <- <-]; intros; try discriminate; cbn; set_solver. }
  destruct h1; [split; [intros r [= <-]; auto|eauto]|].
  destruct (if isIntPredicate P then tryFoldPointerCmp E P Ops st1 else (false, st1))
    as [h2 st2] eqn:H2.
  assert (C2 : h2 = true -> st2.1 ∈ comparisonCategories).
  { revert H2. unfold tryFoldPointerCmp, comparisonCategories.
    repeat case_match; intros [= <- <-]; intros; try discriminate; cbn; set_solver. }
  destruct h2; [split; [intros r [= <-]; auto|eauto]|].
  destruct (tryFoldNonConstCmp P Ops st2) as [h3 st3] eqn:H3.
  assert (C3 : h3 = true -> st3.1 ∈ comparisonCategories).
  { revert H3. unfold tryFoldNonConstCmp, comparisonCategories.
    repeat case_match; intros [= <- <-]; intros; try discriminate; cbn; set_solver. }
  destruct h3; [split; [intros r [= <-]; auto|eauto]|].
  split.
  - intros r. apply ordinaryConstantFold_category.
  - intros Hall. pose proof (gatherOperands_castable E Ops true [] Hall) as Hg.
    unfold ordinaryConstantFold.
    destruct (gatherOperands E Ops true []) as [| |[] l]; [contradiction|eauto..].
    repeat case_match; eauto.
Qed.

(** An integer constant compared with a pointer the constant folder is
    left to fold: there is a result, and it is no pointer. *)
Lemma comparison_category_witness :
  ∃ r : Operand,
    tryEvaluateResult simpleExternals (cmpAt ICMP_SGT)
      [scalarOperand (ConstantInt 64 5); pointerOperand] freshResult = Some r
    ∧ r.1 ∈ comparisonCategories.
Proof.
  destruct (comparison_category simpleExternals (cmpAt ICMP_SGT) ICMP_SGT
              [scalarOperand (ConstantInt 64 5); pointerOperand] freshResult)
    as [Hcat Hdef].
  - reflexivity.
  - destruct Hdef as [r Hr].
    + apply Forall_cons. split; [left; eexists; reflexivity|].
      apply Forall_cons. split; [left; eexists; reflexivity|apply Forall_nil_2].
    + exists r. split; [exact Hr|]. apply (Hcat r). exact Hr.
Defined.

End FallbackFacts.

(** * Further properties of the dead-store walk *)

(** ** The coverage bitmap *)

Module BitmapFacts.

Import DSE Examples MoreExamples.

Lemma markBytes_length (bytes : list bool) (i Size FirstDef FirstNotDef : Z) :
  length (markBytes i Size FirstDef FirstNotDef bytes).2 = length bytes.
Proof.
  revert i. induction bytes as [|b rest IH]; intros i; [reflexivity|].
  cbn [markBytes]. specialize (IH (i + 1)).
  destruct (markBytes (i + 1) Size FirstDef FirstNotDef rest) as [f rest'].
  repeat case_decide; try destruct b; cbn in *; congruence.
Qed.

Lemma markBytes_monotone (bytes : list bool) (i Size FirstDef FirstNotDef : Z)
    (j : nat) :
  bytes !! j = Some true ->
  (markBytes i Size FirstDef FirstNotDef bytes).2 !! j = Some true.
Proof.
  revert i j. induction bytes as [|b rest IH]; intros i j Hj; [discriminate|].
  cbn [markBytes]. repeat case_decide.
  - specialize (IH (i + 1)).
    destruct (markBytes (i + 1) Size FirstDef FirstNotDef rest) as [f rest'].
    destruct j; cbn in *; [reflexivity|]. apply IH. assumption.
  - destruct b; cbn.
    + specialize (IH (i + 1)).
      destruct (markBytes (i + 1) Size FirstDef FirstNotDef rest) as [f rest'].
      destruct j; cbn in *; [reflexivity|]. apply IH. assumption.
    + assumption.
  - assumption.
Qed.

Lemma markBytes_only_in_range (bytes : list bool) (i Size FirstDef FirstNotDef : Z)
    (j : nat) :
  bytes !! j = Some false ->
  (markBytes i Size FirstDef FirstNotDef bytes).2 !! j = Some true ->
  FirstDef <= i + Z.of_nat j < FirstNotDef.
Proof.
  revert i j. induction bytes as [|b rest IH]; intros i j Hj Hj'; [discriminate|].
  cbn [markBytes] in Hj'. repeat case_decide.
  - specialize (IH (i + 1)).
    destruct (markBytes (i + 1) Size FirstDef FirstNotDef rest) as [f rest'].
    destruct j; cbn in *; [lia|].
    specialize (IH j Hj Hj'). lia.
  - destruct b; cbn in Hj'.
    + specialize (IH (i + 1)).
      destruct (markBytes (i + 1) Size FirstDef FirstNotDef rest) as [f rest'].
      destruct j; cbn in *; [discriminate|].
      specialize (IH j Hj Hj'). lia.
    + destruct j; cbn in *; congruence.
  - destruct j; cbn in *; congruence.
Qed.

Lemma markBytes_finished (bytes : list bool) (i Size FirstDef FirstNotDef : Z)
    (j : nat) (b : bool) :
  (markBytes i Size FirstDef FirstNotDef bytes).1 = true ->
  (markBytes i Size FirstDef FirstNotDef bytes).2 !! j = Some b ->
  i + Z.of_nat j < Size ->
  b = true.
Proof.
  revert i j. induction bytes as [|b0 rest IH]; intros i j Hfin Hj Hlt; [discriminate|].
  cbn [markBytes] in Hfin, Hj. repeat case_decide.
  - specialize (IH (i + 1)).
    destruct (markBytes (i + 1) Size FirstDef FirstNotDef rest) as [f rest'].
    destruct j; cbn in *; [congruence|]. apply (IH j Hfin Hj). lia.
  - destruct b0; cbn in Hfin, Hj; [|discriminate].
    specialize (IH (i + 1)).
    destruct (markBytes (i + 1) Size FirstDef FirstNotDef rest) as [f rest'].
    destruct j; cbn in *; [congruence|]. apply (IH j Hfin Hj). lia.
  - lia.
Qed.

Lemma markBytes_missing_lowest (bytes : list bool) (i Size FirstDef FirstNotDef : Z)
    (j : nat) :
  (∀ k : nat, (k < j)%nat -> bytes !! k = Some true) ->
  bytes !! j = Some false ->
  i + Z.of_nat j < Size ->
  ¬ (FirstDef <= i + Z.of_nat j < FirstNotDef) ->
  markBytes i Size FirstDef FirstNotDef bytes = (false, bytes).
Proof.
  revert i j. induction bytes as [|b rest IH]; intros i j Hlow Hj Hlt Hout;
    [discriminate|].
  cbn [markBytes]. destruct j as [|j].
  - cbn in Hj. injection Hj as ->.
    case_decide; [|lia]. case_decide; [lia|]. reflexivity.
  - assert (Hb : b = true).
    { specialize (Hlow 0%nat ltac:(lia)). cbn in Hlow. congruence. }
    subst b. cbn in Hj.
    assert (IH' : markBytes (i + 1) Size FirstDef FirstNotDef rest = (false, rest)).
    { apply (IH (i + 1) j).
      - intros k Hk. apply (Hlow (S k)). lia.
      - assumption.
      - lia.
      - intros H. apply Hout. lia. }
    case_decide; [|lia]. case_decide; cbn; rewrite IH'; reflexivity.
Qed.

Lemma markBytes_covered (bytes : list bool) (i Size FirstDef FirstNotDef : Z) :
  FirstDef <= i ->
  Size <= FirstNotDef ->
  i + Z.of_nat (length bytes) <= Size ->
  markBytes i Size FirstDef FirstNotDef bytes = (true, replicate (length bytes) true).
Proof.
  revert i. induction bytes as [|b rest IH]; intros i Hlo Hhi Hlen; [reflexivity|].
  cbn [markBytes length replicate]. cbn [length] in Hlen.
  case_decide; [|lia]. case_decide; [|lia].
  rewrite IH by lia. reflexivity.
Qed.

Section HandleWrite.

Context (O : Oracle).

(** X16: [DSEHandleWrite] keeps the shape of the coverage bitmap and never
    takes a mark back: a null bitmap stays null, a bitmap keeps its
    length, and every byte marked before is marked after. *)
Theorem DSEHandleWrite_bitmap_grows (Writer : ValCtx) (WriteSize : Z)
    (StorePtr : ValCtx) (Size : Z) (StoreBase : ValCtx) (StoreOffset : Z)
    (deadBytes : option (list bool)) :
  let after := (DSEHandleWrite O Writer WriteSize StorePtr Size StoreBase
                  StoreOffset deadBytes).2 in
  match deadBytes, after with
  | None, None => True
  | Some bytes, Some bytes' =>
      length bytes' = length bytes
      ∧ ∀ j : nat, bytes !! j = Some true -> bytes' !! j = Some true
  | _, _ => False
  end.
Proof.
  unfold DSEHandleWrite. destruct deadBytes as [bytes|]; cbn; [|exact Logic.I].
  destruct (GetBaseWithConstantOffset O (first Writer) (second Writer)) as [WB WO].
  set (range := match aliasHypothetical O Writer WriteSize StorePtr Size with
                | NoAlias => (0, 0)
                | MayAlias => _
                | MustAlias => _
                end).
  destruct range as [FirstDef FirstNotDef].
  case_bool_decide; cbn; [|split; [reflexivity|tauto]].
  pose proof (markBytes_length bytes 0 Size FirstDef FirstNotDef) as Hlen.
  pose proof (markBytes_monotone bytes 0 Size FirstDef FirstNotDef) as Hmono.
  destruct (markBytes 0 Size FirstDef FirstNotDef bytes) as [f bytes']. cbn in *.
  split; assumption.
Qed.

(** X17: when [DSEHandleWrite] reports the tracked write overwritten,
    every one of its [Size] bytes is marked in the bitmap it leaves. *)
Theorem DSEHandleWrite_finished_all_marked (Writer : ValCtx) (WriteSize : Z)
    (StorePtr : ValCtx) (Size : Z) (StoreBase : ValCtx) (StoreOffset : Z)
    (deadBytes after : option (list bool)) :
  DSEHandleWrite O Writer WriteSize StorePtr Size StoreBase StoreOffset deadBytes
  = (true, after) ->
  ∃ bytes' : list bool,
    after = Some bytes'
    ∧ ∀ (j : nat) (b : bool),
        bytes' !! j = Some b -> Z.of_nat j < Size -> b = true.
Proof.
  unfold DSEHandleWrite. destruct deadBytes as [bytes|]; [|discriminate].
  destruct (GetBaseWithConstantOffset O (first Writer) (second Writer)) as [WB WO].
  set (range := match aliasHypothetical O Writer WriteSize StorePtr Size with
                | NoAlias => (0, 0)
                | MayAlias => _
                | MustAlias => _
                end).
  destruct range as [FirstDef FirstNotDef].
  case_bool_decide; [|discriminate].
  pose proof (markBytes_finished bytes 0 Size FirstDef FirstNotDef) as Hfin.
  destruct (markBytes 0 Size FirstDef FirstNotDef bytes) as [f bytes']. cbn in *.
  intros [= -> <-]. exists bytes'. split; [reflexivity|].
  intros j b Hj Hlt. apply (Hfin j b eq_refl Hj). lia.
Qed.

(** X18: a write that cannot alias the tracked one, and any write when the
    size of the tracked one is unknown (a null bitmap), is never reported
    as overwriting it and leaves the bitmap as it was. *)
Theorem DSEHandleWrite_no_alias_or_unknown_size (Writer : ValCtx) (WriteSize : Z)
    (StorePtr : ValCtx) (Size : Z) (StoreBase : ValCtx) (StoreOffset : Z)
    (deadBytes : option (list bool)) :
  deadBytes = None ∨ aliasHypothetical O Writer WriteSize StorePtr Size = NoAlias ->
  DSEHandleWrite O Writer WriteSize StorePtr Size StoreBase StoreOffset deadBytes
  = (false, deadBytes).
Proof.
  intros [-> | Hna]; [reflexivity|].
  unfold DSEHandleWrite. destruct deadBytes as [bytes|]; [|reflexivity].
  destruct (GetBaseWithConstantOffset O (first Writer) (second Writer)) as [WB WO].
  rewrite Hna. cbn. reflexivity.
Qed.

(** X19: a write that must alias the tracked one and is at least as large
    marks all of its bytes and is reported as overwriting it, whatever
    was marked before; unless the tracked write has size zero, which is
    never reported overwritten. *)
Theorem DSEHandleWrite_must_alias_covers (Writer : ValCtx) (WriteSize : Z)
    (StorePtr : ValCtx) (Size : Z) (StoreBase : ValCtx) (StoreOffset : Z)
    (bytes : list bool) :
  aliasHypothetical O Writer WriteSize StorePtr Size = MustAlias ->
  Z.of_nat (length bytes) = Size ->
  Size <= WriteSize ->
  DSEHandleWrite O Writer WriteSize StorePtr Size StoreBase StoreOffset (Some bytes)
  = if bool_decide (Size = 0) then (false, Some bytes)
    else (true, Some (replicate (length bytes) true)).
Proof.
  intros Hma Hlen Hle. unfold DSEHandleWrite.
  destruct (GetBaseWithConstantOffset O (first Writer) (second Writer)) as [WB WO].
  rewrite Hma. rewrite Z.min_r by assumption.
  destruct (decide (Size = 0)) as [Hz|Hz].
  - rewrite (bool_decide_eq_true_2 (Size = 0)) by assumption.
    rewrite bool_decide_eq_false_2 by lia. reflexivity.
  - rewrite (bool_decide_eq_false_2 (Size = 0)) by assumption.
    rewrite bool_decide_eq_true_2 by lia.
    rewrite markBytes_covered by lia. reflexivity.
Qed.

(** X20: a write that does not cover the lowest byte still unmarked leaves
    no trace in the bitmap, even where it covers bytes above it: the
    marking loop stops at the first unmarked byte outside the write. *)
Theorem DSEHandleWrite_misses_lowest_unmarked (Writer : ValCtx) (WriteSize : Z)
    (StorePtr : ValCtx) (Size : Z) (StoreBase : ValCtx) (StoreOffset : Z)
    (bytes : list bool) (j : nat) (range : Z * Z) :
  aliasHypothetical O Writer WriteSize StorePtr Size = MayAlias ->
  GetDefinedRange O StoreBase StoreOffset (Size * 8)
    (GetBaseWithConstantOffset O (first Writer) (second Writer)).1
    (GetBaseWithConstantOffset O (first Writer) (second Writer)).2
    (WriteSize * 8) = Some range ->
  (∀ k : nat, (k < j)%nat -> bytes !! k = Some true) ->
  bytes !! j = Some false ->
  Z.of_nat j < Size ->
  ¬ (range.1 <= Z.of_nat j < range.2) ->
  DSEHandleWrite O Writer WriteSize StorePtr Size StoreBase StoreOffset (Some bytes)
  = (false, Some bytes).
Proof.
  intros Hma Hrange Hlow Hj Hlt Hout. unfold DSEHandleWrite.
  destruct (GetBaseWithConstantOffset O (first Writer) (second Writer)) as [WB WO].
  cbn in Hrange. rewrite Hma, Hrange. destruct range as [FirstDef FirstNotDef].
  cbn in Hout. case_bool_decide; [|reflexivity].
  rewrite (markBytes_missing_lowest bytes 0 Size FirstDef FirstNotDef j)
    by (try assumption; lia).
  reflexivity.
Qed.

End HandleWrite.

Lemma DSEHandleWrite_finished_all_marked_witness :
  ∃ bytes' : list bool,
    Some (replicate 4 true) = Some bytes'
    ∧ ∀ (j : nat) (b : bool),
        bytes' !! j = Some b -> Z.of_nat j < 4 -> b = true.
Proof.
  apply (DSEHandleWrite_finished_all_marked scenarioOracle trackedVC 4 trackedVC 4
           trackedVC 0 (Some [true; false; false; true]) (Some (replicate 4 true))).
  reflexivity.
Defined.

Lemma DSEHandleWrite_no_alias_or_unknown_size_witness :
  DSEHandleWrite scenarioOracle trackedVC 4 trackedVC UnknownSize trackedVC 0 None
  = (false, None).
Proof.
  apply (DSEHandleWrite_no_alias_or_unknown_size scenarioOracle trackedVC 4
           trackedVC UnknownSize trackedVC 0 None).
  left. reflexivity.
Defined.

Lemma DSEHandleWrite_must_alias_covers_witness :
  DSEHandleWrite scenarioOracle trackedVC 8 trackedVC 4 trackedVC 0
    (Some [false; true; false; false])
  = if bool_decide (4 = 0) then (false, Some [false; true; false; false])
    else (true, Some (replicate (length [false; true; false; false]) true)).
Proof.
  apply (DSEHandleWrite_must_alias_covers scenarioOracle trackedVC 8 trackedVC 4
           trackedVC 0 [false; true; false; false]).
  - reflexivity.
  - reflexivity.
  - lia.
Defined.

Lemma DSEHandleWrite_misses_lowest_unmarked_witness :
  DSEHandleWrite upperHalfOracle (make_vc strayPtr 0) 2 trackedVC 4 trackedVC 0
    (Some [true; false; false; false])
  = (false, Some [true; false; false; false]).
Proof.
  apply (DSEHandleWrite_misses_lowest_unmarked upperHalfOracle (make_vc strayPtr 0)
           2 trackedVC 4 trackedVC 0 [true; false; false; false] 1 (2, 4)).
  - reflexivity.
  - reflexivity.
  - intros k Hk. destruct k as [|k]; [reflexivity|lia].
  - reflexivity.
  - lia.
  - cbn. lia.
Defined.

(** The two halves of a tracked write overwritten low half first complete
    the coverage; high half first, they do not. *)
Example halves_in_either_order :
  let low := fun bm => (markBytes 0 4 0 2 bm) in
  let high := fun bm => (markBytes 0 4 2 4 bm) in
  (high (low (replicate 4 false)).2).1 = true
  ∧ (low (high (replicate 4 false)).2).1 = false.
Proof. vm_compute. split; reflexivity. Qed.

End BitmapFacts.

(** ** One step of the walk *)

Module WalkStepFacts.

Import DSE Examples MoreExamples.

Section Step.

Context (O : Oracle).

Lemma stopOrContinue_not_whole (r : bool * option (list bool)) :
  (stopOrContinue r).1 ≠ WIRStopWholeWalk.
Proof. unfold stopOrContinue. destruct r as [[] bm]; discriminate. Qed.

(** X21: only reads stop the whole walk: when [noteBytesWrittenBy] answers
    with the stop of the whole walk, the instruction is a load whose
    pointer may alias the tracked one, or a memory transfer not yet found
    unused whose source may; the bitmap is handed back untouched. *)
Theorem whole_walk_stops_only_on_reads (this : nat) (unused : list Value)
    (Inst : Value) (StorePtr StoreBase : ValCtx) (StoreOffset Size : Z)
    (writtenBytes after : option (list bool)) :
  noteBytesWrittenBy O this unused Inst StorePtr StoreBase StoreOffset Size
    writtenBytes = (WIRStopWholeWalk, after) ->
  after = writtenBytes
  ∧ match Inst with
    | Load _ Pointer LoadSize =>
        aliasHypothetical O (make_vc Pointer this) LoadSize StorePtr Size ≠ NoAlias
    | MemTransfer _ _ source len =>
        (Inst ∉ unused)
        ∧ aliasHypothetical O (make_vc source this)
            (default UnknownSize (getConstReplacement O this len)) StorePtr Size
          ≠ NoAlias
    | _ => False
    end.
Proof.
  unfold noteBytesWrittenBy.
  destruct (isLifetimeEnd O this StoreBase Inst); [discriminate|].
  destruct Inst as [id|id c a0 a1|id d s l|id d l|id p sz|id p sz|id n|id];
    try discriminate.
  - destruct (resolvedReadCalls O this (Call id c a0 a1)); [|discriminate].
    intros Hres. exfalso. eapply stopOrContinue_not_whole.
    rewrite Hres. reflexivity.
  - cbn zeta.
    replace (match getConstReplacement O this l with
             | Some n => n | None => UnknownSize end)
      with (default UnknownSize (getConstReplacement O this l))
      by (destruct (getConstReplacement O this l); reflexivity).
    case_bool_decide as Hin; cbn [negb andb].
    + case_bool_decide; [|discriminate].
      intros Hres. exfalso. eapply stopOrContinue_not_whole. rewrite Hres. reflexivity.
    + case_bool_decide as Hal; cbn [negb].
      * case_bool_decide; [|discriminate].
        intros Hres. exfalso. eapply stopOrContinue_not_whole. rewrite Hres. reflexivity.
      * intros [= <-]. split; [reflexivity|]. split; assumption.
  - cbn zeta. cbn [negb andb].
    case_bool_decide; [|discriminate].
    intros Hres. exfalso. eapply stopOrContinue_not_whole. rewrite Hres. reflexivity.
  - destruct (_ || _); [|discriminate].
    case_bool_decide as Hal; cbn [negb]; [discriminate|].
    intros [= <-]. split; [reflexivity|assumption].
  - intros Hres. exfalso. eapply stopOrContinue_not_whole. rewrite Hres. reflexivity.
Qed.

Lemma handleWrite_stop (Writer : ValCtx) (WriteSize : Z) (StorePtr : ValCtx)
    (Size : Z) (StoreBase : ValCtx) (StoreOffset : Z)
    (writtenBytes after : option (list bool)) :
  stopOrContinue (DSEHandleWrite O Writer WriteSize StorePtr Size StoreBase
                    StoreOffset writtenBytes) = (WIRStopThisPath, after) ->
  ∃ bytes' : list bool,
    after = Some bytes'
    ∧ ∀ (j : nat) (b : bool),
        bytes' !! j = Some b -> Z.of_nat j < Size -> b = true.
Proof.
  unfold stopOrContinue, DSEHandleWrite.
  destruct writtenBytes as [bytes|]; [|discriminate].
  destruct (GetBaseWithConstantOffset O (first Writer) (second Writer)) as [WB WO].
  set (range := match aliasHypothetical O Writer WriteSize StorePtr Size with
                | NoAlias => (0, 0)
                | MayAlias => _
                | MustAlias => _
                end).
  destruct range as [FirstDef FirstNotDef].
  case_bool_decide; [|discriminate].
  pose proof (BitmapFacts.markBytes_finished bytes 0 Size FirstDef FirstNotDef) as Hfin.
  destruct (markBytes 0 Size FirstDef FirstNotDef bytes) as [f bytes']. cbn in *.
  destruct f; [|discriminate].
  intros [= <-]. exists bytes'. split; [reflexivity|].
  intros j b Hj Hlt. apply (Hfin j b eq_refl Hj). lia.
Qed.

(** X22: a path is given up only for a reason: when [noteBytesWrittenBy]
    stops the path, either the instruction ends the lifetime of the
    tracked object and the bitmap is as before, or the bitmap it hands
    back has every byte of the tracked write marked.  With an unknown
    size (a null bitmap) only the end of the lifetime can stop a path. *)
Theorem path_stops_when_overwritten_or_dead (this : nat) (unused : list Value)
    (Inst : Value) (StorePtr StoreBase : ValCtx) (StoreOffset Size : Z)
    (writtenBytes after : option (list bool)) :
  noteBytesWrittenBy O this unused Inst StorePtr StoreBase StoreOffset Size
    writtenBytes = (WIRStopThisPath, after) ->
  (isLifetimeEnd O this StoreBase Inst = true ∧ after = writtenBytes)
  ∨ (∃ bytes' : list bool,
       after = Some bytes'
       ∧ writtenBytes ≠ None
       ∧ ∀ (j : nat) (b : bool),
           bytes' !! j = Some b -> Z.of_nat j < Size -> b = true).
Proof.
  unfold noteBytesWrittenBy.
  destruct (isLifetimeEnd O this StoreBase Inst).
  { intros [= <-]. left. split; reflexivity. }
  intros Hres. right.
  assert (Hstop : ∃ Writer WriteSize,
            stopOrContinue (DSEHandleWrite O Writer WriteSize StorePtr Size
                              StoreBase StoreOffset writtenBytes)
            = (WIRStopThisPath, after)).
  { destruct Inst as [id|id c a0 a1|id d s l|id d l|id p sz|id p sz|id n|id];
      try discriminate.
    - destruct (resolvedReadCalls O this (Call id c a0 a1)); [|discriminate].
      eauto.
    - cbn zeta in Hres.
      destruct (negb _ && negb _); [discriminate|].
      case_bool_decide; [|discriminate]. eauto.
    - cbn zeta in Hres. case_bool_decide; [|discriminate]. eauto.
    - destruct (_ || _); [|discriminate].
      destruct (negb _); discriminate.
    - eauto. }
  destruct Hstop as (Writer & WriteSize & Hstop).
  destruct (handleWrite_stop _ _ _ _ _ _ _ _ Hstop) as (bytes' & -> & Hall).
  exists bytes'. split; [reflexivity|]. split; [|assumption].
  intros ->. cbn in Hstop. discriminate.
Qed.

(** X23: an instruction that cannot alias the tracked pointer is
    transparent: if the alias query separates every pointer from the
    tracked one and the instruction does not end the lifetime of the
    tracked object, the walk continues and the bitmap is as before. *)
Theorem non_aliasing_instruction_is_transparent (this : nat) (unused : list Value)
    (Inst : Value) (StorePtr StoreBase : ValCtx) (StoreOffset Size : Z)
    (writtenBytes : option (list bool)) :
  (∀ (P : ValCtx) (PSize : Z), aliasHypothetical O P PSize StorePtr Size = NoAlias) ->
  isLifetimeEnd O this StoreBase Inst = false ->
  noteBytesWrittenBy O this unused Inst StorePtr StoreBase StoreOffset Size
    writtenBytes = (WIRContinue, writtenBytes).
Proof.
  intros Hna Hlife. unfold noteBytesWrittenBy. rewrite Hlife.
  assert (Hw : ∀ Writer WriteSize,
            stopOrContinue (DSEHandleWrite O Writer WriteSize StorePtr Size
                              StoreBase StoreOffset writtenBytes)
            = (WIRContinue, writtenBytes)).
  { intros Writer WriteSize. unfold DSEHandleWrite.
    destruct writtenBytes as [bytes|]; [|reflexivity].
    destruct (GetBaseWithConstantOffset O (first Writer) (second Writer)) as [WB WO].
    rewrite Hna. reflexivity. }
  destruct Inst as [id|id c a0 a1|id d s l|id d l|id p sz|id p sz|id n|id];
    try reflexivity.
  - destruct (resolvedReadCalls O this (Call id c a0 a1)); [apply Hw|reflexivity].
  - cbn zeta. rewrite Hna. rewrite (bool_decide_eq_true_2 (NoAlias = NoAlias)) by reflexivity.
    rewrite andb_false_r. case_bool_decide; [apply Hw|reflexivity].
  - cbn zeta. case_bool_decide; [apply Hw|reflexivity].
  - rewrite Hna. rewrite (bool_decide_eq_true_2 (NoAlias = NoAlias)) by reflexivity.
    cbn. destruct (_ || _); reflexivity.
  - apply Hw.
Qed.

End Step.

Lemma whole_walk_stops_only_on_reads_witness :
  Some (replicate 4 false) = Some (replicate 4 false)
  ∧ aliasHypothetical scenarioOracle (make_vc strayPtr 0) 4 trackedVC 4 ≠ NoAlias.
Proof.
  apply (whole_walk_stops_only_on_reads scenarioOracle 0 [] strayLoad trackedVC
           trackedVC 0 4 (Some (replicate 4 false)) (Some (replicate 4 false))).
  vm_compute. reflexivity.
Defined.

Lemma path_stops_when_overwritten_or_dead_witness :
  (isLifetimeEnd scenarioOracle 0 trackedVC secondStore = true
   ∧ Some (replicate 4 true) = Some (replicate 4 false))
  ∨ (∃ bytes' : list bool,
       Some (replicate 4 true) = Some bytes'
       ∧ Some (replicate 4 false) ≠ None
       ∧ ∀ (j : nat) (b : bool),
           bytes' !! j = Some b -> Z.of_nat j < 4 -> b = true).
Proof.
  apply (path_stops_when_overwritten_or_dead scenarioOracle 0 [] secondStore
           trackedVC trackedVC 0 4 (Some (replicate 4 false))
           (Some (replicate 4 true))).
  vm_compute. reflexivity.
Defined.

Lemma non_aliasing_instruction_is_transparent_witness :
  noteBytesWrittenBy noAliasOracle 0 [] secondStore trackedVC trackedVC 0 4
    (Some (replicate 4 false))
  = (WIRContinue, Some (replicate 4 false)).
Proof.
  apply (non_aliasing_instruction_is_transparent noAliasOracle 0 [] secondStore
           trackedVC trackedVC 0 4 (Some (replicate 4 false))).
  - intros P PSize. reflexivity.
  - vm_compute. reflexivity.
Defined.

End WalkStepFacts.

(** ** Peel attempts without iterations *)

Module PeelEdgeFacts.

Import Contexts Examples.

(** X24: [allNonFinalIterationsDoNotExit] has an answer exactly when the
    peel attempt has an iteration: on an empty vector the unsigned bound
    [Iterations.size() - 1] wraps around and the loop reads
    [Iterations[0]], past the end. *)
Theorem allNonFinalIterationsDoNotExit_needs_an_iteration (PA : PeelAttempt) :
  Z.of_nat (length (Iterations PA)) < 2 ^ 32 ->
  allNonFinalIterationsDoNotExit PA = None <-> Iterations PA = [].
Proof.
  intros Hlen. unfold allNonFinalIterationsDoNotExit.
  destruct (Iterations PA) as [|it rest] eqn:HI.
  - split; [reflexivity|]. intros _. reflexivity.
  - split; [|discriminate].
    rewrite Z.mod_small by (cbn [length] in *; lia).
    rewrite IterationFacts.scanNonFinal_prefix by (cbn [length]; lia).
    discriminate.
Qed.

Lemma allNonFinalIterationsDoNotExit_needs_an_iteration_witness :
  allNonFinalIterationsDoNotExit twoIterations = None <-> Iterations twoIterations = [].
Proof.
  apply (allNonFinalIterationsDoNotExit_needs_an_iteration twoIterations).
  vm_compute. reflexivity.
Defined.

End PeelEdgeFacts.

(** ** The two phases of a merge *)

Module PhaseFacts.

Import Merging Examples.

Section Phases.

Context (getPointerBase : ShadowValue -> option PointerBase).
Context (merge : PointerBase -> PointerBase -> PointerBase).

Lemma mergeValues_phases (Vals : list ShadowValue) (anyInfo : bool)
    (NewPB : PointerBase) :
  mergeValues getPointerBase merge true Vals anyInfo NewPB
  = mergeValues getPointerBase merge false Vals anyInfo NewPB
  ∨ mergeValues getPointerBase merge true Vals anyInfo NewPB = (true, getOverdef).
Proof.
  revert anyInfo NewPB. induction Vals as [|v Vals IH]; intros anyInfo NewPB; cbn;
    [left; reflexivity|].
  destruct (Overdef NewPB); [left; reflexivity|].
  destruct (getPointerBase v) as [VPB|]; [apply IH|].
  right. reflexivity.
Qed.

Lemma mergeValues_all_known (Vals : list ShadowValue) (anyInfo : bool)
    (NewPB : PointerBase) :
  (∀ v, v ∈ Vals -> is_Some (getPointerBase v)) ->
  mergeValues getPointerBase merge true Vals anyInfo NewPB
  = mergeValues getPointerBase merge false Vals anyInfo NewPB.
Proof.
  revert anyInfo NewPB. induction Vals as [|v Vals IH]; intros anyInfo NewPB Hall; cbn;
    [reflexivity|].
  destruct (Overdef NewPB); [reflexivity|].
  destruct (Hall v (list_elem_of_here _ _)) as [VPB ->].
  apply IH. intros u Hu. apply Hall. apply list_elem_of_further. assumption.
Qed.

Lemma mergeValues_informed (Vals : list ShadowValue) (NewPB : PointerBase) :
  (mergeValues getPointerBase merge false Vals true NewPB).1 = true.
Proof.
  revert NewPB. induction Vals as [|v Vals IH]; intros NewPB; cbn; [reflexivity|].
  destruct (Overdef NewPB); [reflexivity|].
  destruct (getPointerBase v); apply IH.
Qed.

Lemma mergeValues_all_unknown (Vals : list ShadowValue) (NewPB : PointerBase) :
  (∀ v, v ∈ Vals -> getPointerBase v = None) ->
  mergeValues getPointerBase merge false Vals false NewPB = (false, NewPB).
Proof.
  induction Vals as [|v Vals IH]; intros Hall; cbn; [reflexivity|].
  destruct (Overdef NewPB); [reflexivity|].
  rewrite (Hall v (list_elem_of_here _ _)).
  apply IH. intros u Hu. apply Hall. apply list_elem_of_further. assumption.
Qed.

Lemma mergeValues_uninformed (Vals : list ShadowValue) (NewPB : PointerBase) :
  Overdef NewPB = false ->
  (mergeValues getPointerBase merge false Vals false NewPB).1 = false ->
  ∀ v, v ∈ Vals -> getPointerBase v = None.
Proof.
  intros HO. induction Vals as [|v Vals IH]; intros Hres u Hu.
  - apply elem_of_nil in Hu. contradiction.
  - cbn in Hres. rewrite HO in Hres.
    destruct (getPointerBase v) as [VPB|] eqn:Hv.
    + rewrite mergeValues_informed in Hres. discriminate.
    + apply elem_of_cons in Hu. destruct Hu as [->|Hu]; [assumption|].
      apply IH; assumption.
Qed.

End Phases.

(** X25: the finalising phase of a merge either agrees with the optimistic
    phase or gives up with Overdef and the answer true; it agrees whenever
    every operand has a value. *)
Theorem final_phase_agrees_or_gives_up
    (getPointerBase : ShadowValue -> option PointerBase)
    (merge : PointerBase -> PointerBase -> PointerBase)
    (getOperand : ShadowInstruction -> nat -> ShadowValue)
    (getLiveReturnVals : ShadowInstruction -> option (list ShadowValue))
    (getExitPHIOperands : ShadowInstruction -> nat -> list ShadowValue)
    (operandIdxs : ShadowInstruction -> list ShadowInstIdx)
    (SI : ShadowInstruction) (Vals : list ShadowValue) (NewPB : PointerBase) :
  mergeOperands getOperand getLiveReturnVals getExitPHIOperands operandIdxs SI
  = Some (Some Vals) ->
  let run := tryEvaluateMerge getPointerBase merge getOperand getLiveReturnVals
               getExitPHIOperands operandIdxs SI in
  (run true NewPB = run false NewPB ∨ run true NewPB = Some (true, getOverdef))
  ∧ ((∀ v, v ∈ Vals -> is_Some (getPointerBase v)) ->
     run true NewPB = run false NewPB).
Proof.
  intros HV run. unfold run, tryEvaluateMerge. rewrite HV. split.
  - destruct (mergeValues_phases getPointerBase merge Vals false NewPB) as [-> | ->];
      [left|right]; reflexivity.
  - intros Hall. f_equal. apply mergeValues_all_known. assumption.
Qed.

Lemma final_phase_agrees_or_gives_up_witness :
  let run := tryEvaluateMerge (cachedPointerBase []) merge noOperand noInlineAttempt
               mergePhiOperand fourOperandIdxs mergePhi in
  let Vals := [SVVal (ConstantInt 32 5); SVInst pendingInst] in
  (run true emptyPB = run false emptyPB ∨ run true emptyPB = Some (true, getOverdef))
  ∧ ((∀ v, v ∈ Vals -> is_Some (cachedPointerBase [] v)) ->
     run true emptyPB = run false emptyPB).
Proof.
  apply (final_phase_agrees_or_gives_up (cachedPointerBase []) merge noOperand
           noInlineAttempt mergePhiOperand fourOperandIdxs mergePhi
           [SVVal (ConstantInt 32 5); SVInst pendingInst] emptyPB).
  reflexivity.
Defined.

(** X26: in the optimistic phase, entered with a result that is not
    Overdef, [tryEvaluateMerge] answers false exactly when no operand has
    a value, and then the result is left as it came in. *)
Theorem optimistic_merge_false_iff_no_operand_known
    (getPointerBase : ShadowValue -> option PointerBase)
    (merge : PointerBase -> PointerBase -> PointerBase)
    (getOperand : ShadowInstruction -> nat -> ShadowValue)
    (getLiveReturnVals : ShadowInstruction -> option (list ShadowValue))
    (getExitPHIOperands : ShadowInstruction -> nat -> list ShadowValue)
    (operandIdxs : ShadowInstruction -> list ShadowInstIdx)
    (SI : ShadowInstruction) (Vals : list ShadowValue) (NewPB : PointerBase) :
  mergeOperands getOperand getLiveReturnVals getExitPHIOperands operandIdxs SI
  = Some (Some Vals) ->
  Overdef NewPB = false ->
  ∃ r : bool * PointerBase,
    tryEvaluateMerge getPointerBase merge getOperand getLiveReturnVals
      getExitPHIOperands operandIdxs SI false NewPB = Some r
    ∧ (r.1 = false <-> ∀ v, v ∈ Vals -> getPointerBase v = None)
    ∧ (r.1 = false -> r.2 = NewPB).
Proof.
  intros HV HO. unfold tryEvaluateMerge. rewrite HV. eexists. split; [reflexivity|].
  assert (Hfwd : (∀ v, v ∈ Vals -> getPointerBase v = None) ->
                 mergeValues getPointerBase merge false Vals false NewPB = (false, NewPB)).
  { apply mergeValues_all_unknown. }
  assert (Hbwd : (mergeValues getPointerBase merge false Vals false NewPB).1 = false ->
                 ∀ v, v ∈ Vals -> getPointerBase v = None).
  { apply mergeValues_uninformed. assumption. }
  split; [split|].
  - assumption.
  - intros Hall. rewrite (Hfwd Hall). reflexivity.
  - intros Hres. rewrite (Hfwd (Hbwd Hres)). reflexivity.
Qed.

Lemma optimistic_merge_false_iff_no_operand_known_witness :
  ∃ r : bool * PointerBase,
    tryEvaluateMerge (cachedPointerBase []) merge noOperand noInlineAttempt
      mergePhiOperand fourOperandIdxs mergePhi false emptyPB = Some r
    ∧ (r.1 = false <->
       ∀ v, v ∈ [SVVal (ConstantInt 32 5); SVInst pendingInst] ->
            cachedPointerBase [] v = None)
    ∧ (r.1 = false -> r.2 = emptyPB).
Proof.
  apply (optimistic_merge_false_iff_no_operand_known (cachedPointerBase []) merge
           noOperand noInlineAttempt mergePhiOperand fourOperandIdxs mergePhi
           [SVVal (ConstantInt 32 5); SVInst pendingInst] emptyPB).
  - reflexivity.
  - reflexivity.
Defined.

End PhaseFacts.

(** ** The out-parameters of [tryEvaluateResult] *)

Module AssignmentFacts.

Import Folder Semantics Examples MoreExamples.

Lemma tryFoldOpenCmp_assigns (p : Predicate) (Ops : list Operand) (st st' : Operand) :
  (tryFoldOpenCmp p Ops st).1 = (tryFoldOpenCmp p Ops st').1
  ∧ ((tryFoldOpenCmp p Ops st).1 = true ->
     (tryFoldOpenCmp p Ops st).2.1 = (tryFoldOpenCmp p Ops st').2.1).
Proof.
  unfold tryFoldOpenCmp. cbn zeta.
  repeat case_match; simplify_eq/=; try (split; [reflexivity|intros; first [discriminate|reflexivity]]); auto.
Qed.

Lemma tryFoldNonConstCmp_assigns (p : Predicate) (Ops : list Operand) (st st' : Operand) :
  (tryFoldNonConstCmp p Ops st).1 = (tryFoldNonConstCmp p Ops st').1
  ∧ ((tryFoldNonConstCmp p Ops st).1 = true ->
     (tryFoldNonConstCmp p Ops st).2.1 = (tryFoldNonConstCmp p Ops st').2.1).
Proof.
  unfold tryFoldNonConstCmp. cbn zeta.
  repeat case_match; simplify_eq/=; try (split; [reflexivity|intros; first [discriminate|reflexivity]]); auto.
Qed.

Lemma tryFoldPointerCmp_assigns E (p : Predicate) (Ops : list Operand) (st st' : Operand) :
  (tryFoldPointerCmp E p Ops st).1 = (tryFoldPointerCmp E p Ops st').1
  ∧ ((tryFoldPointerCmp E p Ops st).1 = true ->
     (tryFoldPointerCmp E p Ops st).2.1 = (tryFoldPointerCmp E p Ops st').2.1).
Proof.
  unfold tryFoldPointerCmp. cbn zeta.
  repeat case_match; simplify_eq/=; try (split; [reflexivity|intros; first [discriminate|reflexivity]]); auto.
Qed.

Lemma tryFoldPtrAsIntOp_assigns E (I : Instruction) (Ops : list Operand) (st st' : Operand) :
  (tryFoldPtrAsIntOp E I Ops st).1 = (tryFoldPtrAsIntOp E I Ops st').1
  ∧ ((tryFoldPtrAsIntOp E I Ops st).1 = true ->
     (tryFoldPtrAsIntOp E I Ops st).2.1 = (tryFoldPtrAsIntOp E I Ops st').2.1).
Proof.
  unfold tryFoldPtrAsIntOp. cbn zeta.
  repeat case_match; simplify_eq/=; try (split; [reflexivity|intros; first [discriminate|reflexivity]]); auto.
Qed.

Lemma tryFoldBitwiseOp_assigns (I : Instruction) (Ops : list Operand) (st st' : Operand) :
  (tryFoldBitwiseOp I Ops st).1 = (tryFoldBitwiseOp I Ops st').1
  ∧ ((tryFoldBitwiseOp I Ops st).1 = true ->
     (tryFoldBitwiseOp I Ops st).2.1 = (tryFoldBitwiseOp I Ops st').2.1).
Proof.
  unfold tryFoldBitwiseOp. cbn zeta.
  repeat case_match; simplify_eq/=; try (split; [reflexivity|intros; first [discriminate|reflexivity]]); auto.
Qed.

Lemma ordinaryConstantFold_assigns E (I : Instruction) (Ops : list Operand) (st st' : Operand) :
  fst <$> ordinaryConstantFold E I Ops st = fst <$> ordinaryConstantFold E I Ops st'.
Proof.
  unfold ordinaryConstantFold.
  repeat case_match; simplify_eq/=; try (split; [reflexivity|intros; first [discriminate|reflexivity]]); auto.
Qed.

(** X27: [tryEvaluateResult] assigns the category of its result on every
    path but one: unless the instruction is a GEP whose base operand is a
    vararg cookie, the category handed back does not depend on what the
    out-parameters held on entry (nor does whether the call is defined). *)
Theorem result_type_assigned (E : Externals) (SI : ShadowInstruction)
    (Ops : list Operand) (st st' : Operand) :
  (∀ steps, si_I SI = GetElementPtrInst steps ->
            (Ops !!! 0%nat).1 ≠ ValSetTypeVarArg) ->
  fst <$> tryEvaluateResult E SI Ops st = fst <$> tryEvaluateResult E SI Ops st'.
Proof.
  intros Hgep. unfold tryEvaluateResult. cbn zeta.
  destruct (isAlloca (si_I SI) || isNoAliasCall (VInst (si_I SI))); [reflexivity|].
  destruct (si_I SI) as [a|ty na callee|op s d|pred|steps|op ty|ty| |ty inc|ty|opc ty]
    eqn:HI;
    try (cbn; apply ordinaryConstantFold_assigns).
  - unfold castArm. cbn zeta.
    destruct (_ && _); [reflexivity|].
    case_bool_decide; [reflexivity|].
    cbn. apply ordinaryConstantFold_assigns.
  - pose proof (tryFoldOpenCmp_assigns pred Ops st st') as [H1 H1'].
    destruct (tryFoldOpenCmp pred Ops st) as [h1 st1],
             (tryFoldOpenCmp pred Ops st') as [h1' st1']. cbn in H1, H1'. subst h1'.
    destruct h1; [cbn; f_equal; auto|].
    assert (H2 : ((if isIntPredicate pred then tryFoldPointerCmp E pred Ops st1
                   else (false, st1)).1
                  = (if isIntPredicate pred then tryFoldPointerCmp E pred Ops st1'
                     else (false, st1')).1)
                 ∧ ((if isIntPredicate pred then tryFoldPointerCmp E pred Ops st1
                     else (false, st1)).1 = true ->
                    (if isIntPredicate pred then tryFoldPointerCmp E pred Ops st1
                     else (false, st1)).2.1
                    = (if isIntPredicate pred then tryFoldPointerCmp E pred Ops st1'
                       else (false, st1')).2.1)).
    { destruct (isIntPredicate pred); [apply tryFoldPointerCmp_assigns|].
      split; [reflexivity|discriminate]. }
    destruct H2 as [H2 H2'].
    destruct (if isIntPredicate pred then tryFoldPointerCmp E pred Ops st1
              else (false, st1)) as [h2 st2],
             (if isIntPredicate pred then tryFoldPointerCmp E pred Ops st1'
              else (false, st1')) as [h2' st2']. cbn in H2, H2'. subst h2'.
    destruct h2; [cbn; f_equal; auto|].
    pose proof (tryFoldNonConstCmp_assigns pred Ops st2 st2') as [H3 H3'].
    destruct (tryFoldNonConstCmp pred Ops st2) as [h3 st3],
             (tryFoldNonConstCmp pred Ops st2') as [h3' st3']. cbn in H3, H3'. subst h3'.
    destruct h3; [cbn; f_equal; auto|].
    cbn. apply ordinaryConstantFold_assigns.
  - specialize (Hgep steps eq_refl).
    case_bool_decide; [reflexivity|].
    case_bool_decide; [contradiction|]. reflexivity.
  - assert (Hbin : ∀ I,
      fst <$> (let '(handled, st1) := tryFoldPtrAsIntOp E I Ops st in
               if handled then Some st1
               else let '(handled0, st2) := tryFoldBitwiseOp I Ops st1 in
                    if handled0 then Some st2
                    else ordinaryConstantFold E I Ops st2)
      = fst <$> (let '(handled, st1) := tryFoldPtrAsIntOp E I Ops st' in
               if handled then Some st1
               else let '(handled0, st2) := tryFoldBitwiseOp I Ops st1 in
                    if handled0 then Some st2
                    else ordinaryConstantFold E I Ops st2)).
    { intros I.
      pose proof (tryFoldPtrAsIntOp_assigns E I Ops st st') as [H1 H1'].
      destruct (tryFoldPtrAsIntOp E I Ops st) as [h1 st1],
               (tryFoldPtrAsIntOp E I Ops st') as [h1' st1']. cbn in H1, H1'. subst h1'.
      destruct h1; [cbn; f_equal; auto|].
      pose proof (tryFoldBitwiseOp_assigns I Ops st1 st1') as [H2 H2'].
      destruct (tryFoldBitwiseOp I Ops st1) as [h2 st2],
               (tryFoldBitwiseOp I Ops st1') as [h2' st2']. cbn in H2, H2'. subst h2'.
      destruct h2; [cbn; f_equal; auto|].
      cbn. apply ordinaryConstantFold_assigns. }
    destruct op; try apply Hbin; cbn; apply ordinaryConstantFold_assigns.
Qed.

Lemma result_type_assigned_witness :
  fst <$> tryEvaluateResult simpleExternals fieldGEP fieldGEPOperands freshResult
  = fst <$> tryEvaluateResult simpleExternals fieldGEP fieldGEPOperands varargCookie.
Proof.
  apply (result_type_assigned simpleExternals fieldGEP fieldGEPOperands freshResult
           varargCookie).
  intros steps _. vm_compute. discriminate.
Defined.

(** X28: the path that assigns nothing: a GEP off a vararg cookie with an
    operand count other than two returns with both out-parameters as they
    were on entry. *)
Theorem vararg_gep_assigns_nothing (E : Externals) (SI : ShadowInstruction)
    (Ops : list Operand) (st : Operand) (steps : list GEPStep) :
  si_I SI = GetElementPtrInst steps ->
  (Ops !!! 0%nat).1 = ValSetTypeVarArg ->
  length Ops ≠ 2%nat ->
  tryEvaluateResult E SI Ops st = Some st.
Proof.
  intros HI Hva Hlen. unfold tryEvaluateResult. cbn zeta. rewrite HI.
  cbv beta iota delta [isAlloca isNoAliasCall orb].
  rewrite Hva.
  rewrite (bool_decide_eq_false_2 (ValSetTypeVarArg = ValSetTypePB)) by discriminate.
  rewrite (bool_decide_eq_true_2 (ValSetTypeVarArg = ValSetTypeVarArg)) by reflexivity.
  unfold gepVarArg. cbn zeta.
  rewrite bool_decide_eq_false_2 by assumption. reflexivity.
Qed.

Lemma vararg_gep_assigns_nothing_witness :
  tryEvaluateResult simpleExternals cookieGEP cookieGEPOperands freshResult
  = Some freshResult.
Proof.
  apply (vararg_gep_assigns_nothing simpleExternals cookieGEP cookieGEPOperands
           freshResult [SeqStep 8; SeqStep 8]).
  - reflexivity.
  - reflexivity.
  - vm_compute. discriminate.
Defined.

End AssignmentFacts.
